(** * The calculator of [src/componets/Calculator/Calculator.jsx]

    A shallow embedding of the calculator component: its three pieces of
    React state, the helpers [formatNumber] and [safeEval], the click
    handler [handleButtonClick], and the keyboard listener
    [handleKeyDown] with its [keyMap].

    - JavaScript strings are sequences of UTF-16 code units: [list N].
    - JavaScript numbers are IEEE-754 binary64 values: [spec_float] with
      precision 53 and maximal exponent 1024, every operation rounding to
      nearest, ties to even.
    - [Function(body)()] is the host's evaluator.  Its behaviour on the
      bodies [safeEval] can build (the characters [0-9+-*/.() ] wrapped in
      ["use strict"; return (...)]) is written out: lexer, parser of the
      expression grammar, evaluation with the coercions of the language.
    - A handler either completes with the next state or throws:
      [completion].  One call of the handler reads the state of its
      render and sets the state of the next one.

    Where the language leaves a choice to the implementation, the model
    takes what the engines in use do: a decimal text denotes the nearest
    binary64 number, ties to even, however many digits it has;
    [Number::toString] prints the fewest digits that read back as the
    number, and of those the nearest; [Math.sqrt] is the correctly
    rounded root.  The operator [**] is left open: the evaluator takes
    it as a parameter. *)

From Stdlib Require Import String Ascii.
From Stdlib Require Import List ZArith NArith Bool Lia.
From Stdlib Require Import Floats.SpecFloat.
Import ListNotations.

Set Implicit Arguments.
Local Open Scope Z_scope.

(** ** Strings *)

Module JsString.

Definition jsstring := list N.

(** An ASCII literal as a sequence of code units. *)
Fixpoint lit (s : string) : jsstring :=
  match s with
  | EmptyString => []
  | String c r => N_of_ascii c :: lit r
  end.

Fixpoint eqb (a b : jsstring) : bool :=
  match a, b with
  | [], [] => true
  | x :: a', y :: b' => N.eqb x y && eqb a' b'
  | _, _ => false
  end.

(** Code units used by the component. *)
Definition c_space : N := 32.
Definition c_lparen : N := 40.
Definition c_rparen : N := 41.
Definition c_star : N := 42.
Definition c_plus : N := 43.
Definition c_comma : N := 44.
Definition c_minus : N := 45.
Definition c_dot : N := 46.
Definition c_slash : N := 47.
Definition c_0 : N := 48.
Definition c_times : N := 215.      (* U+00D7 multiplication sign *)
Definition c_divide : N := 247.     (* U+00F7 division sign *)

(** [\d], that is [0-9]. *)
Definition is_digit (c : N) : bool := (48 <=? c)%N && (c <=? 57)%N.

(** WhiteSpace and LineTerminator code units, the ones [trim] strips. *)
Definition is_space (c : N) : bool :=
  existsb (N.eqb c)
    [9; 10; 11; 12; 13; 32; 160; 5760; 8232; 8233; 8239; 8287; 12288; 65279]%N
  || ((8192 <=? c)%N && (c <=? 8202)%N).

Fixpoint trimStart (s : jsstring) : jsstring :=
  match s with
  | c :: r => if is_space c then trimStart r else s
  | [] => []
  end.

Definition trimEnd (s : jsstring) : jsstring := rev (trimStart (rev s)).

(** [s.trim()] *)
Definition trim (s : jsstring) : jsstring := trimEnd (trimStart s).

(** [s.slice(0, -1)] *)
Definition slice_0_m1 (s : jsstring) : jsstring := removelast s.

(** [s.slice(-1)] *)
Definition slice_m1 (s : jsstring) : jsstring :=
  match s with
  | [] => []
  | _ => [last s 0%N]
  end.

(** [s.includes(c)] for a one-unit needle. *)
Definition includes (c : N) (s : jsstring) : bool := existsb (N.eqb c) s.

(** [s.split(re)] for a regular expression [re] that is a character class
    matching one code unit: the pieces between the matches.  The result
    is never empty: [split] of the empty string is one empty piece. *)
Fixpoint split (sep : N -> bool) (s : jsstring) : list jsstring :=
  match s with
  | [] => [[]]
  | c :: r =>
      if sep c then [] :: split sep r
      else match split sep r with
           | p :: ps => (c :: p) :: ps
           | [] => [[c]]
           end
  end.

(** [s.replace(/c/g, d)] for single code units. *)
Definition replace_all (c d : N) (s : jsstring) : jsstring :=
  map (fun x => if N.eqb x c then d else x) s.

End JsString.
Import JsString.

(** ** Numbers *)

Module JsNumber.

Definition number := spec_float.

Definition prec : Z := 53.
Definition emax : Z := 1024.

Definition NaN : number := S754_nan.
Definition zero : number := S754_zero false.

(** The Number value of an integer. *)
Definition of_Z (z : Z) : number := binary_normalize prec emax z 0 false.

Definition add : number -> number -> number := SFadd prec emax.
Definition sub : number -> number -> number := SFsub prec emax.
Definition mul : number -> number -> number := SFmul prec emax.
Definition div : number -> number -> number := SFdiv prec emax.
Definition sqrt : number -> number := SFsqrt prec emax.
Definition neg : number -> number := SFopp.

(** [x === y] and [x < y] on numbers. *)
Definition strict_eq : number -> number -> bool := SFeqb.
Definition lt : number -> number -> bool := SFltb.

(** [isNaN(x)] and [isFinite(x)] for a number [x]. *)
Definition isNaN (x : number) : bool :=
  match x with S754_nan => true | _ => false end.

Definition isFinite (x : number) : bool :=
  match x with
  | S754_nan | S754_infinity _ => false
  | S754_zero _ | S754_finite _ _ _ => true
  end.

(** *** Decimal digits *)

Definition digit_char (d : Z) : N := (48 + Z.to_N d)%N.

Fixpoint digits_aux (fuel : nat) (n : Z) (acc : jsstring) : jsstring :=
  match fuel with
  | O => digit_char (n mod 10) :: acc
  | S f =>
      if n <? 10 then digit_char (n mod 10) :: acc
      else digits_aux f (n / 10) (digit_char (n mod 10) :: acc)
  end.

(** The decimal representation of [n >= 0], most significant digit first;
    ["0"] for zero. *)
Definition digits (n : Z) : jsstring :=
  digits_aux (Z.to_nat (Z.log2 n)) n [].

Definition digit_val (c : N) : Z := Z.of_N c - 48.

(** The integer denoted by a run of decimal digits; zero for the empty run. *)
Definition digits_val (s : jsstring) : Z :=
  fold_left (fun acc c => 10 * acc + digit_val c) s 0.

(** *** From decimal to binary64

    The Number value of [m * 10^e] for [m >= 0], with the sign [s]:
    the exact value rounded once, to nearest, ties to even.  A negative
    power of ten is a division of two integers, which [SFdiv] rounds
    once whatever the size of the operands. *)
Definition of_decimal (s : bool) (m e : Z) : number :=
  match m with
  | Zpos p =>
      if 0 <=? e
      then binary_round prec emax s (Z.to_pos (m * 10 ^ e)) 0
      else div (S754_finite s p 0) (S754_finite false (Z.to_pos (10 ^ (- e))) 0)
  | _ => S754_zero s
  end.

(** The exact value of a positive finite number, as a fraction. *)
Definition ratio (m : positive) (e : Z) : Z * Z :=
  if 0 <=? e then (Zpos m * 2 ^ e, 1) else (Zpos m, 2 ^ (- e)).

(** *** Number::toString

    For a positive finite [x], the digits [s], their count [k] and the
    exponent [n] with [10^(k-1) <= s < 10^k], the Number value of
    [s * 10^(n-k)] being [x], and [k] as small as possible; of several
    such [s] the one nearest to [x], the even one on a tie. *)

Fixpoint find_t (fuel : nat) (p q t : Z) : Z :=
  match fuel with
  | O => t
  | S f => if q <=? p * 10 ^ t then t else find_t f p q (t + 1)
  end.

(** The [n] with [10^(n-1) <= p/q < 10^n], for [p, q > 0]. *)
Definition decimal_exponent (p q : Z) : Z :=
  if q <=? p then Z.of_nat (length (digits (p / q)))
  else 1 - find_t (Z.to_nat (Z.log2 q) + 1) p q 1.

(** Leading zeros dropped, but not the last unit. *)
Fixpoint strip_zeros_rev (r : jsstring) : jsstring :=
  match r with
  | c :: (_ :: _) as r' => if N.eqb c c_0 then strip_zeros_rev r' else r
  | _ => r
  end.

(** A candidate [c * 10^sc] as its significant digits and its [n]. *)
Definition candidate_digits (c sc : Z) : jsstring * Z :=
  let ds := digits c in
  (rev (strip_zeros_rev (rev ds)), sc + Z.of_nat (length ds)).

Definition roundtrips (x : number) (c sc : Z) : bool :=
  strict_eq (of_decimal false c sc) x.

Fixpoint shortest_from (fuel : nat) (x : number) (p q n0 k : Z)
  : jsstring * Z :=
  let sc := n0 - k in
  let '(p', q') := if 0 <=? sc then (p, q * 10 ^ sc) else (p * 10 ^ (- sc), q) in
  let lo := p' / q' in
  let hi := lo + 1 in
  let lo_ok := roundtrips x lo sc in
  let hi_ok := roundtrips x hi sc in
  let nearer_lo :=
    match 2 * p' ?= (lo + hi) * q' with
    | Lt => true
    | Eq => Z.even lo
    | Gt => false
    end in
  if lo_ok && (negb hi_ok || nearer_lo) then candidate_digits lo sc
  else if hi_ok then candidate_digits hi sc
  else match fuel with
       | O => candidate_digits (if nearer_lo then lo else hi) sc
       | S f => shortest_from f x p q n0 (k + 1)
       end.

Definition shortest (m : positive) (e : Z) : jsstring * Z :=
  let '(p, q) := ratio m e in
  shortest_from 16 (S754_finite false m e) p q (decimal_exponent p q) 1.

Definition zeros (n : Z) : jsstring := repeat c_0 (Z.to_nat n).

Definition exponent_text (e : Z) : jsstring :=
  lit "e" ++ (if 0 <=? e then [c_plus] else [c_minus]) ++ digits (Z.abs e).

(** The text of the digits [ds] with exponent [n], as the language lays
    it out: plain integer, point inside, leading [0.], or scientific. *)
Definition layout (ds : jsstring) (n : Z) : jsstring :=
  let k := Z.of_nat (length ds) in
  if (k <=? n) && (n <=? 21) then ds ++ zeros (n - k)
  else if (0 <? n) && (n <=? 21)
  then firstn (Z.to_nat n) ds ++ [c_dot] ++ skipn (Z.to_nat n) ds
  else if (-6 <? n) && (n <=? 0) then lit "0." ++ zeros (- n) ++ ds
  else match ds with
       | [d] => [d] ++ exponent_text (n - 1)
       | d :: rest => [d] ++ [c_dot] ++ rest ++ exponent_text (n - 1)
       | [] => exponent_text (n - 1)
       end.

Definition toString (x : number) : jsstring :=
  match x with
  | S754_nan => lit "NaN"
  | S754_zero _ => lit "0"
  | S754_infinity s => (if s then [c_minus] else []) ++ lit "Infinity"
  | S754_finite s m e =>
      let '(ds, n) := shortest m e in
      (if s then [c_minus] else []) ++ layout ds n
  end.

(** *** Number.prototype.toFixed(8) *)

Definition pad_left (n : nat) (s : jsstring) : jsstring :=
  repeat c_0 (n - length s) ++ s.

Definition fixed_text (n : Z) : jsstring :=
  let m := pad_left 9 (digits n) in
  firstn (length m - 8) m ++ [c_dot] ++ skipn (length m - 8) m.

Definition toFixed8 (x : number) : jsstring :=
  match x with
  | S754_zero _ => fixed_text 0
  | S754_finite s m e =>
      let '(p, q) := ratio m e in
      (if s then [c_minus] else []) ++
      (if 10 ^ 21 * q <=? p then toString (S754_finite false m e)
       else fixed_text ((2 * p * 10 ^ 8 + q) / (2 * q)))
  | _ => toString x
  end.

(** *** From text to number: StringToNumber and parseFloat *)

Fixpoint span_digits (s : jsstring) : jsstring * jsstring :=
  match s with
  | c :: r =>
      if is_digit c then let '(d, t) := span_digits r in (c :: d, t)
      else ([], s)
  | [] => ([], [])
  end.

Fixpoint strip_prefix (p s : jsstring) : option jsstring :=
  match p, s with
  | [], _ => Some s
  | a :: p', b :: s' => if N.eqb a b then strip_prefix p' s' else None
  | _ :: _, [] => None
  end.

(** ExponentPart: [e] or [E], an optional sign and at least one digit.
    When there is none the exponent is zero and nothing is consumed. *)
Definition exponent_part (s : jsstring) : Z * jsstring :=
  match s with
  | c :: r =>
      if N.eqb c 101 || N.eqb c 69 then
        let '(sg, r1) :=
          match r with
          | c1 :: r' =>
              if N.eqb c1 c_plus then (false, r')
              else if N.eqb c1 c_minus then (true, r')
              else (false, r)
          | [] => (false, r)
          end in
        match span_digits r1 with
        | ([], _) => (0, s)
        | (ds, t) => ((if sg then - digits_val ds else digits_val ds), t)
        end
      else (0, s)
  | [] => (0, s)
  end.

(** The longest prefix that is a StrUnsignedDecimalLiteral, its value
    under the sign [sg], and the text after it. *)
Definition unsigned_decimal (sg : bool) (s : jsstring)
  : option (number * jsstring) :=
  match strip_prefix (lit "Infinity") s with
  | Some r => Some (S754_infinity sg, r)
  | None =>
      let '(ip, r) := span_digits s in
      let '(fp, r1) :=
        match r with
        | c :: r' => if N.eqb c c_dot then span_digits r' else ([], r)
        | [] => ([], r)
        end in
      match ip, fp with
      | [], [] => None
      | _, _ =>
          let '(ex, r2) := exponent_part r1 in
          Some (of_decimal sg (digits_val (ip ++ fp))
                  (ex - Z.of_nat (length fp)), r2)
      end
  end.

Definition StrDecimalLiteral (s : jsstring) : option (number * jsstring) :=
  match s with
  | c :: r =>
      if N.eqb c c_plus then unsigned_decimal false r
      else if N.eqb c c_minus then unsigned_decimal true r
      else unsigned_decimal false s
  | [] => None
  end.

Definition radix_digit (radix : Z) (c : N) : option Z :=
  let v :=
    if is_digit c then Some (Z.of_N c - 48)
    else if (97 <=? c)%N && (c <=? 102)%N then Some (Z.of_N c - 87)
    else if (65 <=? c)%N && (c <=? 70)%N then Some (Z.of_N c - 55)
    else None in
  match v with
  | Some d => if d <? radix then Some d else None
  | None => None
  end.

Fixpoint radix_val (radix : Z) (s : jsstring) (acc : Z) : option Z :=
  match s with
  | [] => Some acc
  | c :: r =>
      match radix_digit radix c with
      | Some d => radix_val radix r (radix * acc + d)
      | None => None
      end
  end.

(** NonDecimalIntegerLiteral: [0x], [0o] or [0b] and at least one digit. *)
Definition non_decimal (s : jsstring) : option number :=
  match s with
  | z :: p :: (_ :: _) as ds =>
      let radix :=
        if N.eqb p 120 || N.eqb p 88 then Some 16
        else if N.eqb p 111 || N.eqb p 79 then Some 8
        else if N.eqb p 98 || N.eqb p 66 then Some 2
        else None in
      match N.eqb z c_0, radix with
      | true, Some rx =>
          match radix_val rx ds 0 with
          | Some v => Some (of_Z v)
          | None => None
          end
      | _, _ => None
      end
  | _ => None
  end.

(** [Number(s)] for a string [s]. *)
Definition StringToNumber (s : jsstring) : number :=
  match trim s with
  | [] => zero
  | t =>
      match non_decimal t with
      | Some v => v
      | None =>
          match StrDecimalLiteral t with
          | Some (v, []) => v
          | _ => NaN
          end
      end
  end.

(** [parseFloat(s)] for a string [s]. *)
Definition parseFloat (s : jsstring) : number :=
  match StrDecimalLiteral (trimStart s) with
  | Some (v, _) => v
  | None => NaN
  end.

(** SameValue on numbers: the same datum.  It tells [+0] from [-0] and
    finds [NaN] the same as itself. *)
Definition SameValue (x y : number) : bool :=
  match x, y with
  | S754_zero a, S754_zero b => Bool.eqb a b
  | S754_infinity a, S754_infinity b => Bool.eqb a b
  | S754_nan, S754_nan => true
  | S754_finite a m e, S754_finite b n f =>
      Bool.eqb a b && Pos.eqb m n && Z.eqb e f
  | _, _ => false
  end.

(** [r] is what is left of [s] after a prefix without [/]. *)
Definition consumed (s r : jsstring) : Prop :=
  exists pre, s = pre ++ r /\ ~ In c_slash pre.

End JsNumber.
Import JsNumber.

(** ** The host evaluator behind [Function]

    [safeEval] hands the text [return (<sanitized>)] to the [Function]
    constructor in strict mode and calls the result.  The text holds
    only characters of [0-9+-*/.() ], so the program is an expression
    over numeric literals, regular-expression literals, the operators
    [+ - * / **], parentheses and calls; everything else the characters
    can spell ([++], [--], a lone [.], [...]) is an early error. *)

Module JsEngine.

Inductive error := SyntaxError | TypeError.

Inductive completion (A : Type) : Type :=
| Normal (a : A)
| Throw (e : error).
Arguments Normal {A} a.
Arguments Throw {A} e.

Definition bind {A B} (c : completion A) (k : A -> completion B)
  : completion B :=
  match c with
  | Normal a => k a
  | Throw e => Throw e
  end.

Inductive value :=
| VNumber (x : number)
| VString (s : jsstring)
| VRegExp (source : jsstring).

(** *** Lexical grammar *)

Inductive token :=
| TNum (x : number)
| TRegExp (source : jsstring)
| TPlus | TMinus | TStar | TSlash | TStarStar
| TPlusPlus | TMinusMinus
| TLParen | TRParen
| TDot | TEllipsis.

(** The text of a regular expression body is a valid pattern when its
    groups are balanced and each quantifier follows an atom.  Over the
    characters at hand the atoms are the digits, [-], the space, [.]
    and a parenthesised group; the quantifiers are [*] and [+]. *)
Fixpoint valid_pattern (depth : nat) (atom : bool) (s : jsstring) : bool :=
  match s with
  | [] => Nat.eqb depth 0
  | c :: r =>
      if N.eqb c c_lparen then valid_pattern (S depth) false r
      else if N.eqb c c_rparen then
        match depth with
        | O => false
        | S d => valid_pattern d true r
        end
      else if N.eqb c c_star || N.eqb c c_plus then
        atom && valid_pattern depth false r
      else valid_pattern depth true r
  end.

(** The text up to the first [stop], and what follows that [stop]. *)
Fixpoint until (stop : N) (s : jsstring) : option (jsstring * jsstring) :=
  match s with
  | [] => None
  | c :: r =>
      if N.eqb c stop then Some ([], r)
      else match until stop r with
           | Some (a, b) => Some (c :: a, b)
           | None => None
           end
  end.

(** The length of a block comment body up to and including its closing
    [*/]; [None] when the comment is not closed. *)
Fixpoint comment_end (s : jsstring) : option nat :=
  match s with
  | a :: r =>
      match r with
      | b :: _ =>
          if N.eqb a c_star && N.eqb b c_slash then Some 2%nat
          else option_map S (comment_end r)
      | [] => None
      end
  | [] => None
  end.

Definition starts_with_digit (s : jsstring) : bool :=
  match s with
  | c :: _ => is_digit c
  | [] => false
  end.

(** A decimal literal at the head of [s], which starts with a digit or
    with [.] and a digit: its value and its length.  In strict code a
    literal that starts with [0] and another digit is an early error. *)
Definition scan_number (s : jsstring) : option (token * nat) :=
  let '(ip, r) := span_digits s in
  let leading_zero :=
    match ip with
    | z :: _ :: _ => N.eqb z c_0
    | _ => false
    end in
  if leading_zero then None
  else
    match r with
    | c :: r' =>
        if N.eqb c c_dot then
          let '(fp, _) := span_digits r' in
          Some (TNum (of_decimal false (digits_val (ip ++ fp))
                        (- Z.of_nat (length fp))),
                (length ip + 1 + length fp)%nat)
        else Some (TNum (of_decimal false (digits_val ip) 0), length ip)
    | [] => Some (TNum (of_decimal false (digits_val ip) 0), length ip)
    end.

(** The input element at the head of a non-empty [s]: its token ([None]
    for white space and comments) and its length, or [None] for text
    that is no input element.  [operand] tells whether the grammar
    expects an operand here, in which case [/] opens a regular
    expression literal and not a division. *)
Definition scan (operand : bool) (s : jsstring) : option (option token * nat) :=
  match s with
  | [] => None
  | c :: r =>
      if N.eqb c c_space then Some (None, 1%nat)
      else if is_digit c then
        option_map (fun '(t, n) => (Some t, n)) (scan_number s)
      else if N.eqb c c_dot then
        if starts_with_digit r then
          option_map (fun '(t, n) => (Some t, n)) (scan_number s)
        else match strip_prefix [c_dot; c_dot] r with
             | Some _ => Some (Some TEllipsis, 3%nat)
             | None => Some (Some TDot, 1%nat)
             end
      else if N.eqb c c_plus then
        match strip_prefix [c_plus] r with
        | Some _ => Some (Some TPlusPlus, 2%nat)
        | None => Some (Some TPlus, 1%nat)
        end
      else if N.eqb c c_minus then
        match strip_prefix [c_minus] r with
        | Some _ => Some (Some TMinusMinus, 2%nat)
        | None => Some (Some TMinus, 1%nat)
        end
      else if N.eqb c c_star then
        match strip_prefix [c_star] r with
        | Some _ => Some (Some TStarStar, 2%nat)
        | None => Some (Some TStar, 1%nat)
        end
      else if N.eqb c c_lparen then Some (Some TLParen, 1%nat)
      else if N.eqb c c_rparen then Some (Some TRParen, 1%nat)
      else if N.eqb c c_slash then
        match r with
        | d :: r' =>
            if N.eqb d c_slash then Some (None, length s)
            else if N.eqb d c_star then
              option_map (fun n => (None, (2 + n)%nat)) (comment_end r')
            else if operand then
              match until c_slash r with
              | Some (body, rest) =>
                  if starts_with_digit rest then None
                  else if valid_pattern 0 false body
                  then Some (Some (TRegExp body), (2 + length body)%nat)
                  else None
              | None => None
              end
            else Some (Some TSlash, 1%nat)
        | [] => if operand then None else Some (Some TSlash, 1%nat)
        end
      else None
  end.

(** Whether an operand is expected after the tokens read so far, the
    last one first. *)
Definition expects_operand (acc : list token) : bool :=
  match acc with
  | (TNum _ | TRegExp _ | TRParen) :: _ => false
  | _ => true
  end.

(** The tokens of [s].  The input element found at a position tells how
    many of the following code units belong to it; they are skipped. *)
Fixpoint lex (skip : nat) (acc : list token) (s : jsstring)
  : option (list token) :=
  match s with
  | [] => Some (rev acc)
  | _ :: r =>
      match skip with
      | S k => lex k acc r
      | O =>
          match scan (expects_operand acc) s with
          | Some (Some t, n) => lex (Nat.pred n) (t :: acc) r
          | Some (None, n) => lex (Nat.pred n) acc r
          | None => None
          end
      end
  end.

Definition tokens (s : jsstring) : option (list token) := lex 0 [] s.

(** *** Expressions *)

Inductive binop := Add | Sub | Mul | Div | Pow.

Inductive expr :=
| ELit (x : number)
| ERegExp (source : jsstring)
| EParen (e : expr)
| EPos (e : expr)
| ENeg (e : expr)
| EBin (op : binop) (a b : expr)
| ECall0 (f : expr)
| ECall1 (spread : bool) (f a : expr).

(** The outcome of a parsing function: an expression and the tokens
    after it, no parse, or recursion budget exhausted. *)
Inductive parsed :=
| Parsed (e : expr) (rest : list token)
| Unparsed
| Starved.

(** One function per nonterminal: AdditiveExpression,
    MultiplicativeExpression, ExponentiationExpression, UnaryExpression,
    UpdateExpression, CallExpression with its Arguments, and
    PrimaryExpression.  The levels between Expression and
    AdditiveExpression have no operator the characters can spell. *)
Fixpoint additive (fuel : nat) (ts : list token) : parsed :=
  match fuel with
  | O => Starved
  | S f =>
      match multiplicative f ts with
      | Parsed a r => additive_rest f a r
      | o => o
      end
  end
with additive_rest (fuel : nat) (a : expr) (ts : list token) : parsed :=
  match ts, fuel with
  | TPlus :: r, S f =>
      match multiplicative f r with
      | Parsed b r' => additive_rest f (EBin Add a b) r'
      | o => o
      end
  | TMinus :: r, S f =>
      match multiplicative f r with
      | Parsed b r' => additive_rest f (EBin Sub a b) r'
      | o => o
      end
  | (TPlus | TMinus) :: _, O => Starved
  | _, _ => Parsed a ts
  end
with multiplicative (fuel : nat) (ts : list token) : parsed :=
  match fuel with
  | O => Starved
  | S f =>
      match exponentiation f ts with
      | Parsed a r => multiplicative_rest f a r
      | o => o
      end
  end
with multiplicative_rest (fuel : nat) (a : expr) (ts : list token) : parsed :=
  match ts, fuel with
  | TStar :: r, S f =>
      match exponentiation f r with
      | Parsed b r' => multiplicative_rest f (EBin Mul a b) r'
      | o => o
      end
  | TSlash :: r, S f =>
      match exponentiation f r with
      | Parsed b r' => multiplicative_rest f (EBin Div a b) r'
      | o => o
      end
  | (TStar | TSlash) :: _, O => Starved
  | _, _ => Parsed a ts
  end
with exponentiation (fuel : nat) (ts : list token) : parsed :=
  match fuel with
  | O => Starved
  | S f =>
      match ts with
      | (TPlus | TMinus) :: _ =>
          (* a unary expression is no base of [**] *)
          match unary f ts with
          | Parsed _ (TStarStar :: _) => Unparsed
          | o => o
          end
      | _ =>
          match update f ts with
          | Parsed a (TStarStar :: r) =>
              match exponentiation f r with
              | Parsed b r' => Parsed (EBin Pow a b) r'
              | o => o
              end
          | o => o
          end
      end
  end
with unary (fuel : nat) (ts : list token) : parsed :=
  match fuel with
  | O => Starved
  | S f =>
      match ts with
      | TPlus :: r =>
          match unary f r with
          | Parsed e r' => Parsed (EPos e) r'
          | o => o
          end
      | TMinus :: r =>
          match unary f r with
          | Parsed e r' => Parsed (ENeg e) r'
          | o => o
          end
      | _ => update f ts
      end
  end
with update (fuel : nat) (ts : list token) : parsed :=
  match fuel with
  | O => Starved
  | S f =>
      match ts with
      | (TPlusPlus | TMinusMinus) :: _ => Unparsed
      | _ =>
          (* no operand of [++] or [--] is an assignment target *)
          match primary f ts with
          | Parsed a r =>
              match call_rest f a r with
              | Parsed _ ((TPlusPlus | TMinusMinus) :: _) => Unparsed
              | o => o
              end
          | o => o
          end
      end
  end
with call_rest (fuel : nat) (a : expr) (ts : list token) : parsed :=
  match ts, fuel with
  | TLParen :: TRParen :: r, S f => call_rest f (ECall0 a) r
  | TLParen :: TEllipsis :: r, S f =>
      match additive f r with
      | Parsed e (TRParen :: r') => call_rest f (ECall1 true a e) r'
      | Parsed _ _ => Unparsed
      | o => o
      end
  | TLParen :: r, S f =>
      match additive f r with
      | Parsed e (TRParen :: r') => call_rest f (ECall1 false a e) r'
      | Parsed _ _ => Unparsed
      | o => o
      end
  | TLParen :: _, O => Starved
  | _, _ => Parsed a ts
  end
with primary (fuel : nat) (ts : list token) : parsed :=
  match fuel with
  | O => Starved
  | S f =>
      match ts with
      | TNum x :: r => Parsed (ELit x) r
      | TRegExp s :: r => Parsed (ERegExp s) r
      | TLParen :: r =>
          match additive f r with
          | Parsed e (TRParen :: r') => Parsed (EParen e) r'
          | Parsed _ _ => Unparsed
          | o => o
          end
      | _ => Unparsed
      end
  end.

(** Enough budget for every token list: see [additive_fed]. *)
Definition budget (ts : list token) : nat := 8 * length ts + 8.

(** What is left after a parse is no longer than what was given. *)
Definition shorter (p : parsed) (ts : list token) : Prop :=
  match p with
  | Parsed _ r => (length r <= length ts)%nat
  | _ => True
  end.

Definition all_shorter (fuel : nat) : Prop :=
  (forall ts, shorter (additive fuel ts) ts)
  /\ (forall a ts, shorter (additive_rest fuel a ts) ts)
  /\ (forall ts, shorter (multiplicative fuel ts) ts)
  /\ (forall a ts, shorter (multiplicative_rest fuel a ts) ts)
  /\ (forall ts, shorter (exponentiation fuel ts) ts)
  /\ (forall ts, shorter (unary fuel ts) ts)
  /\ (forall ts, shorter (update fuel ts) ts)
  /\ (forall a ts, shorter (call_rest fuel a ts) ts)
  /\ (forall ts, shorter (primary fuel ts) ts).

(** With a budget of eight per token and one per level of the grammar
    below, no parsing function starves. *)
Definition all_fed (fuel : nat) : Prop :=
  (forall ts, (8 * length ts + 6 <= fuel)%nat -> additive fuel ts <> Starved)
  /\ (forall a ts, (8 * length ts <= fuel)%nat ->
        additive_rest fuel a ts <> Starved)
  /\ (forall ts, (8 * length ts + 5 <= fuel)%nat ->
        multiplicative fuel ts <> Starved)
  /\ (forall a ts, (8 * length ts <= fuel)%nat ->
        multiplicative_rest fuel a ts <> Starved)
  /\ (forall ts, (8 * length ts + 4 <= fuel)%nat ->
        exponentiation fuel ts <> Starved)
  /\ (forall ts, (8 * length ts + 3 <= fuel)%nat -> unary fuel ts <> Starved)
  /\ (forall ts, (8 * length ts + 2 <= fuel)%nat -> update fuel ts <> Starved)
  /\ (forall a ts, (8 * length ts <= fuel)%nat ->
        call_rest fuel a ts <> Starved)
  /\ (forall ts, (8 * length ts + 1 <= fuel)%nat -> primary fuel ts <> Starved).

(** The expression a token list spells, all of it. *)
Definition parse (ts : list token) : option expr :=
  match additive (budget ts) ts with
  | Parsed e [] => Some e
  | _ => None
  end.

(** *** Evaluation *)

Definition regexp_text (source : jsstring) : jsstring :=
  [c_slash] ++ source ++ [c_slash].

(** ToPrimitive: a regular expression object becomes its text. *)
Definition ToPrimitive (v : value) : value :=
  match v with
  | VRegExp src => VString (regexp_text src)
  | _ => v
  end.

Definition ToNumber (v : value) : number :=
  match ToPrimitive v with
  | VNumber x => x
  | VString s => StringToNumber s
  | VRegExp _ => NaN
  end.

Definition ToString (v : value) : jsstring :=
  match ToPrimitive v with
  | VNumber x => toString x
  | VString s => s
  | VRegExp src => regexp_text src
  end.

Definition is_string (v : value) : bool :=
  match v with VString _ => true | _ => false end.

(** Values whose text, when they are strings, holds a [/]: what an
    expression over these literals can evaluate to. *)
Definition slashed (v : value) : Prop :=
  match v with
  | VString s => In c_slash s
  | _ => True
  end.

Section Evaluation.

(** [base ** exponent] on numbers, which the language leaves to the
    implementation to approximate. *)
Variable Number_exponentiate : number -> number -> number.

Definition apply_binop (op : binop) (a b : value) : value :=
  match op with
  | Add =>
      let pa := ToPrimitive a in
      let pb := ToPrimitive b in
      if is_string pa || is_string pb
      then VString (ToString pa ++ ToString pb)
      else VNumber (add (ToNumber pa) (ToNumber pb))
  | Sub => VNumber (sub (ToNumber a) (ToNumber b))
  | Mul => VNumber (mul (ToNumber a) (ToNumber b))
  | Div => VNumber (div (ToNumber a) (ToNumber b))
  | Pow => VNumber (Number_exponentiate (ToNumber a) (ToNumber b))
  end.

(** No value here is callable: a call evaluates its callee and its
    argument, then throws. *)
Fixpoint eval (e : expr) : completion value :=
  match e with
  | ELit x => Normal (VNumber x)
  | ERegExp src => Normal (VRegExp src)
  | EParen e1 => eval e1
  | EPos e1 => bind (eval e1) (fun v => Normal (VNumber (ToNumber v)))
  | ENeg e1 => bind (eval e1) (fun v => Normal (VNumber (neg (ToNumber v))))
  | EBin op a b =>
      bind (eval a) (fun va =>
      bind (eval b) (fun vb => Normal (apply_binop op va vb)))
  | ECall0 f => bind (eval f) (fun _ => Throw TypeError)
  | ECall1 _ f a =>
      bind (eval f) (fun _ => bind (eval a) (fun _ => Throw TypeError))
  end.

(** [Function(src)()] for [src] the text ["use strict"; return ]
    followed by [text]: the tokens of [text] must spell one expression,
    which is evaluated. *)
Definition Function_return (text : jsstring) : completion value :=
  match tokens text with
  | None => Throw SyntaxError
  | Some ts =>
      match parse ts with
      | None => Throw SyntaxError
      | Some e => eval e
      end
  end.

End Evaluation.

End JsEngine.
Import JsEngine.

(** ** The component *)

Module Calculator.

(** The three [useState] cells. *)
Record state := {
  screenNumbers : jsstring;
  expression : jsstring;
  previousResult : option number
}.

Definition initial : state :=
  {| screenNumbers := lit "0"; expression := []; previousResult := None |}.

(** What the handler sets on every failure. *)
Definition error_display : state :=
  {| screenNumbers := lit "Error"; expression := []; previousResult := None |}.

(** Button labels. *)
Definition b_percent : jsstring := lit "%".
Definition b_CE : jsstring := lit "CE".
Definition b_C : jsstring := lit "C".
Definition b_backspace : jsstring := [9003%N].           (* U+232B *)
Definition b_reciprocal : jsstring := [8543%N; 120%N].   (* U+215F x *)
Definition b_square : jsstring := [120%N; 178%N].        (* x U+00B2 *)
Definition b_sqrt : jsstring := [178%N; 8730%N; 120%N].  (* U+00B2 U+221A x *)
Definition b_divide : jsstring := [c_divide].
Definition b_times : jsstring := [c_times].
Definition b_minus : jsstring := lit "-".
Definition b_plus : jsstring := lit "+".
Definition b_negate : jsstring := lit "+/-".
Definition b_comma : jsstring := lit ",".
Definition b_equals : jsstring := lit "=".
Definition b_digit (d : Z) : jsstring := [digit_char d].

Definition buttonValues : list jsstring :=
  [ b_percent; b_CE; b_C; b_backspace;
    b_reciprocal; b_square; b_sqrt; b_divide;
    b_digit 7; b_digit 8; b_digit 9; b_times;
    b_digit 4; b_digit 5; b_digit 6; b_minus;
    b_digit 1; b_digit 2; b_digit 3; b_plus;
    b_negate; b_digit 0; b_comma; b_equals ].

Definition formatNumber (num : number) : jsstring :=
  if negb (isFinite num) then lit "Error"
  else toString (StringToNumber (toFixed8 num)).

(** [ [+\-×÷] ] *)
Definition is_operator (c : N) : bool :=
  N.eqb c c_plus || N.eqb c c_minus || N.eqb c c_times || N.eqb c c_divide.

(** [ [\d+\-*/.() ] ] *)
Definition is_arithmetic (c : N) : bool :=
  is_digit c || N.eqb c c_plus || N.eqb c c_minus || N.eqb c c_star
  || N.eqb c c_slash || N.eqb c c_dot || N.eqb c c_lparen
  || N.eqb c c_rparen || N.eqb c c_space.

(** [/^[\d+\-*/.() ]+$/.test(s)] *)
Definition arithmetic_only (s : jsstring) : bool :=
  match s with
  | [] => false
  | _ => forallb is_arithmetic s
  end.

Definition sanitize (expression : jsstring) : jsstring :=
  replace_all c_comma c_dot
    (replace_all c_times c_star
       (replace_all c_divide c_slash expression)).

(** [/[0-9]/.test(val)] *)
Definition has_digit (val : jsstring) : bool := existsb is_digit val.

(** [["+", "-", "×", "÷"].includes(val)] *)
Definition is_binary_operator (val : jsstring) : bool :=
  existsb (JsString.eqb val) [b_plus; b_minus; b_times; b_divide].

(** [/[+\-×÷]$/.test(s)] *)
Definition ends_with_operator (s : jsstring) : bool :=
  match s with
  | [] => false
  | _ => is_operator (last s 0%N)
  end.

(** [s === ""], which is also [!s] *)
Definition is_empty (s : jsstring) : bool :=
  match s with
  | [] => true
  | _ => false
  end.

(** [p !== null] *)
Definition not_null (p : option number) : bool :=
  match p with
  | Some _ => true
  | None => false
  end.

(** [s || "0"] *)
Definition or_zero (s : jsstring) : jsstring :=
  match s with
  | [] => lit "0"
  | _ => s
  end.

(** The object [mathOps]: its own keys, each with what its function
    returns for the number on the screen ([None] for [null]). *)
Definition mathOps (screenNumbers : jsstring)
  : list (jsstring * option jsstring) :=
  let num := parseFloat screenNumbers in
  [ (b_percent,
     if isFinite num then Some (formatNumber (div num (of_Z 100))) else None);
    (b_negate,
     if isFinite num then Some (formatNumber (neg num)) else None);
    (b_reciprocal,
     if negb (isFinite num) || strict_eq num zero then None
     else Some (formatNumber (div (of_Z 1) num)));
    (b_square,
     if isFinite num then Some (formatNumber (mul num num)) else None);
    (b_sqrt,
     if negb (isFinite num) || lt num zero then None
     else Some (formatNumber (sqrt num))) ].

Fixpoint lookup {A} (k : jsstring) (l : list (jsstring * A)) : option A :=
  match l with
  | [] => None
  | (k', a) :: r => if JsString.eqb k k' then Some a else lookup k r
  end.

Section Handler.

(** The host's [Function] constructor, as [safeEval] uses it: given the
    text that follows ["use strict"; return ] in the body, the completion
    of calling the function it builds. *)
Variable host : jsstring -> completion value.

(** [safeEval(expression)].  A throw, of the guard or of the host, is
    caught and answered with [NaN]. *)
Definition safeEval (expression : jsstring) : value :=
  let sanitized := sanitize expression in
  if negb (arithmetic_only sanitized) then VNumber NaN
  else match host ([c_lparen] ++ sanitized ++ [c_rparen]) with
       | Normal v => v
       | Throw _ => VNumber NaN
       end.

(** [handleButtonClick(val)] in a render whose state is [st]: the state
    of the next render, or the exception the call lets through.  [val]
    is a text: a label of [buttonValues], as the buttons and the own
    keys of the key map pass, or a key the listener passes on as it is.
    It is none of the names every object inherits, for which
    [mathOps[val]] would find the inherited property. *)
Definition handleButtonClick (st : state) (val : jsstring)
  : completion state :=
  let expression := st.(expression) in
  let screenNumbers := st.(screenNumbers) in
  let previousResult := st.(previousResult) in
  if JsString.eqb val b_C then Normal initial
  else if JsString.eqb val b_equals then
    match trim expression with
    | [] => Normal st
    | _ =>
        let result := safeEval expression in
        if isNaN (ToNumber result) || negb (isFinite (ToNumber result))
        then Normal error_display
        else
          (* [formatNumber(result)] calls [result.toFixed] *)
          match result with
          | VNumber x =>
              let formattedResult := formatNumber x in
              Normal {| screenNumbers := formattedResult;
                        expression := formattedResult;
                        previousResult := Some x |}
          | _ => Throw TypeError
          end
    end
  else if JsString.eqb val b_backspace then
    match previousResult with
    | Some _ => Normal initial
    | None =>
        if (length expression <=? 1)%nat
        then Normal {| screenNumbers := lit "0"; expression := [];
                       previousResult := previousResult |}
        else
          let newExp := slice_0_m1 expression in
          Normal {| screenNumbers := or_zero newExp; expression := newExp;
                    previousResult := previousResult |}
    end
  else if JsString.eqb val b_CE then Normal initial
  else if JsString.eqb val b_comma then
    match previousResult with
    | Some _ =>
        Normal {| screenNumbers := lit "0,"; expression := lit "0,";
                  previousResult := None |}
    | None =>
        let parts := split is_operator expression in
        let currentNumber := last parts [] in
        if includes c_comma currentNumber then Normal st
        else if is_empty expression || ends_with_operator expression then
          let newExp := expression ++ lit "0," in
          Normal {| screenNumbers := newExp; expression := newExp;
                    previousResult := previousResult |}
        else
          let newExp := expression ++ lit "," in
          Normal {| screenNumbers := newExp; expression := newExp;
                    previousResult := previousResult |}
    end
  else
    match lookup val (mathOps screenNumbers) with
    | Some (Some result) =>
        Normal {| screenNumbers := result; expression := result;
                  previousResult := Some (parseFloat result) |}
    | Some None => Normal error_display
    | None =>
        if not_null previousResult && has_digit val then
          Normal {| screenNumbers := val; expression := val;
                    previousResult := None |}
        else if is_binary_operator val && not_null previousResult then
          let newExp := screenNumbers ++ val in
          Normal {| screenNumbers := newExp; expression := newExp;
                    previousResult := None |}
        else if is_binary_operator val
                && is_binary_operator (slice_m1 expression) then
          let newExp := slice_0_m1 expression ++ val in
          Normal {| screenNumbers := newExp; expression := newExp;
                    previousResult := previousResult |}
        else
          let newExp :=
            if is_empty expression && has_digit val then val
            else expression ++ val in
          Normal {| screenNumbers := or_zero newExp; expression := newExp;
                    previousResult := None |}
    end.

(** The presses [vals] in turn, each in the render the one before it
    leaves. *)
Fixpoint presses (st : state) (vals : list jsstring) : completion state :=
  match vals with
  | [] => Normal st
  | v :: r => bind (handleButtonClick st v) (fun st' => presses st' r)
  end.

End Handler.

(** An instance of the operation the language leaves open, for the
    runs that never raise to a power. *)
Definition exponentiate_unused (base exponent : number) : number := NaN.

(** The handler on the evaluator of [JsEngine]. *)
Definition engine (Number_exponentiate : number -> number -> number)
  : jsstring -> completion value :=
  Function_return Number_exponentiate.

(** *** Vocabulary of the properties *)

(** The five unary keys: label, operation and the arguments at which
    the operation is undefined. *)
Inductive unary := Negate | Percent | Reciprocal | Square | SquareRoot.

Definition unary_label (u : unary) : jsstring :=
  match u with
  | Negate => b_negate
  | Percent => b_percent
  | Reciprocal => b_reciprocal
  | Square => b_square
  | SquareRoot => b_sqrt
  end.

Definition unary_apply (u : unary) (x : number) : number :=
  match u with
  | Negate => neg x
  | Percent => div x (of_Z 100)
  | Reciprocal => div (of_Z 1) x
  | Square => mul x x
  | SquareRoot => sqrt x
  end.

Definition domain_failure (u : unary) (x : number) : bool :=
  negb (isFinite x)
  || match u with
     | Reciprocal => strict_eq x zero
     | SquareRoot => lt x zero
     | _ => false
     end.

(** The four binary keys, with the precedence and the operation the
    usual reading of a formula gives them. *)
Inductive binary := Plus | Minus | Times | Divide.

Definition binary_label (o : binary) : jsstring :=
  match o with
  | Plus => b_plus
  | Minus => b_minus
  | Times => b_times
  | Divide => b_divide
  end.

Definition binary_apply (o : binary) (x y : number) : number :=
  match o with
  | Plus => add x y
  | Minus => sub x y
  | Times => mul x y
  | Divide => div x y
  end.

(** The token the label of a binary key becomes in [safeEval]. *)
Definition binary_token (o : binary) : token :=
  match o with
  | Plus => TPlus
  | Minus => TMinus
  | Times => TStar
  | Divide => TSlash
  end.

Definition binds_tighter (o1 o2 : binary) : bool :=
  match o1, o2 with
  | (Plus | Minus), (Times | Divide) => true
  | _, _ => false
  end.

(** The value of [x o1 y o2 z] read with the standard precedence, and
    from left to right where the two operators have the same one. *)
Definition standard (o1 o2 : binary) (x y z : number) : number :=
  if binds_tighter o1 o2
  then binary_apply o1 x (binary_apply o2 y z)
  else binary_apply o2 (binary_apply o1 x y) z.

(** Whether [=] takes a value for a failure. *)
Definition failed (v : value) : bool :=
  isNaN (ToNumber v) || negb (isFinite (ToNumber v)).

(** The state [=] leaves for the number [x]. *)
Definition shown (x : number) : state :=
  if isNaN x || negb (isFinite x) then error_display
  else {| screenNumbers := formatNumber x; expression := formatNumber x;
          previousResult := Some x |}.

(** The state a successful unary key leaves for the text [r]. *)
Definition settled_on (r : jsstring) : state :=
  {| screenNumbers := r; expression := r;
     previousResult := Some (parseFloat r) |}.

(** The state while the text [s] is being typed: [s] in both cells and
    no result. *)
Definition typed (s : jsstring) : state :=
  {| screenNumbers := s; expression := s; previousResult := None |}.

Definition digit_values : list Z := [0; 1; 2; 3; 4; 5; 6; 7; 8; 9].

Definition binaries : list binary := [Plus; Minus; Times; Divide].

(** The keys that type 10^21. *)
Definition twenty_two_presses : list jsstring :=
  b_digit 1 :: repeat (b_digit 0) 21.

(** Whether [safeEval] reads [d1 o1 d2 o2 d3] the standard way. *)
Definition reads_standard (host : jsstring -> completion value)
    (d1 d2 d3 : Z) (o1 o2 : binary) : bool :=
  match safeEval host (b_digit d1 ++ binary_label o1 ++ b_digit d2
                       ++ binary_label o2 ++ b_digit d3) with
  | VNumber x => SameValue x (standard o1 o2 (of_Z d1) (of_Z d2) (of_Z d3))
  | _ => false
  end.

(** States the calculator can be in: what some presses of its buttons
    make of the initial state. *)
Definition reachable (Number_exponentiate : number -> number -> number)
    (st : state) : Prop :=
  exists vals,
    Forall (fun v => In v buttonValues) vals /\
    presses (engine Number_exponentiate) initial vals = Normal st.

Fixpoint no_adjacent_operators (s : jsstring) : bool :=
  match s with
  | a :: r =>
      match r with
      | b :: _ => negb (is_operator a && is_operator b)
                  && no_adjacent_operators r
      | [] => true
      end
  | [] => true
  end.

Definition no_space (s : jsstring) : bool :=
  forallb (fun c => negb (is_space c)) s.

(** A text without white space and without two operators in a row. *)
Definition tidy (s : jsstring) : Prop :=
  no_space s = true /\ no_adjacent_operators s = true.

(** Code units that are no operator, no decimal comma and no white
    space. *)
Definition safe_char (c : N) : bool :=
  negb (is_operator c || N.eqb c c_comma || is_space c).

Definition plain (s : jsstring) : Prop := forallb safe_char s = true.

Definition starts_with_operator (s : jsstring) : bool :=
  match s with
  | c :: _ => is_operator c
  | [] => false
  end.

(** What every result text is: tidy, not empty, without a decimal
    comma, and not ending in an operator. *)
Definition settled (s : jsstring) : Prop :=
  s <> [] /\ tidy s /\ includes c_comma s = false
  /\ ends_with_operator s = false.

(** [expression] and [screenNumbers] agree while a result is shown. *)
Definition aligned (st : state) : Prop :=
  st.(previousResult) <> None -> st.(expression) = st.(screenNumbers).

(** The invariant of the reachable states. *)
Definition invariant (st : state) : Prop :=
  st.(screenNumbers) <> []
  /\ tidy st.(expression)
  /\ (st.(previousResult) <> None ->
      st.(expression) = st.(screenNumbers) /\ settled st.(expression)).

(** A result text that does not start with an operator either. *)
Definition solid (s : jsstring) : Prop :=
  settled s /\ starts_with_operator s = false.

End Calculator.
Import Calculator.

(** ** The keyboard

    The effect of the component listens to [keydown] on the document
    and passes accepted keys to [handleButtonClick]. *)

Module Keyboard.

(** [a < b] on strings: code unit by code unit, a proper prefix being
    the smaller. *)
Fixpoint lt_string (a b : jsstring) : bool :=
  match a, b with
  | _, [] => false
  | [], _ :: _ => true
  | x :: a', y :: b' =>
      if (x <? y)%N then true
      else if (y <? x)%N then false
      else lt_string a' b'
  end.

(** [a >= b] and [a <= b] on strings. *)
Definition ge_string (a b : jsstring) : bool := negb (lt_string a b).
Definition le_string (a b : jsstring) : bool := negb (lt_string b a).

(** The object [keyMap]: its own keys. *)
Definition keyMap : list (jsstring * jsstring) :=
  [ (lit "%", b_percent);
    (lit "Escape", b_C);
    (lit "Backspace", b_backspace);
    (lit "Enter", b_equals);
    (lit "=", b_equals);
    (lit "+", b_plus);
    (lit "-", b_minus);
    (lit "*", b_times);
    (lit "x", b_times);
    (lit "X", b_times);
    (lit "/", b_divide);
    (lit ",", b_comma);
    (lit ".", b_comma) ].

(** The names every object inherits from [Object.prototype]: each a
    function, but [__proto__], which gives the prototype itself. *)
Definition inherited_names : list jsstring :=
  [ lit "constructor"; lit "hasOwnProperty"; lit "isPrototypeOf";
    lit "propertyIsEnumerable"; lit "toLocaleString"; lit "toString";
    lit "valueOf"; lit "__proto__"; lit "__defineGetter__";
    lit "__defineSetter__"; lit "__lookupGetter__"; lit "__lookupSetter__" ].

(** What reading a property of [keyMap] gives: the text of an own key,
    the value inherited under the name, or [undefined]. *)
Inductive property :=
| Own (text : jsstring)
| Inherited
| Undefined.

(** [keyMap[key]]: own keys first, then the prototype. *)
Definition keyMap_at (key : jsstring) : property :=
  match lookup key keyMap with
  | Some val => Own val
  | None =>
      if existsb (JsString.eqb key) inherited_names then Inherited
      else Undefined
  end.

(** Whether a property counts as true: a text that is not empty does,
    and so does every function and object. *)
Definition truthy (p : property) : bool :=
  match p with
  | Own (_ :: _) | Inherited => true
  | Own [] | Undefined => false
  end.

(** What a keyboard sends as [event.key]: one character, or the name
    of a key.  No key name starts with a digit and none is a name every
    object inherits. *)
Definition event_key (key : jsstring) : bool :=
  negb (existsb (JsString.eqb key) inherited_names)
  && ((length key =? 1)%nat || negb (starts_with_digit key)).

(** What one [keydown] does: whether it calls [preventDefault], and
    the completion of the handler it may call. *)
Record reaction := {
  prevented : bool;
  next : completion state
}.

Section Listener.

Variable host : jsstring -> completion value.

(** [handleButtonClick(v)], in a render whose state is [st], for [v]
    the value every object inherits under [name].  The handler is
    written for texts and this [v] is a function or an object: what the
    handler makes of it, through the text the implementation gives the
    value, is left open. *)
Variable inherited_click : state -> jsstring -> completion state.

(** [handleKeyDown(event)] for an event whose key is [key], in a render
    whose state is [st].  The handler gets [keyMap[key] || key]. *)
Definition handleKeyDown (st : state) (key : jsstring) : reaction :=
  if (ge_string key (lit "0") && le_string key (lit "9"))
     || truthy (keyMap_at key)
  then {| prevented := true;
          next := match keyMap_at key with
                  | Own [] | Undefined => handleButtonClick host st key
                  | Own val => handleButtonClick host st val
                  | Inherited => inherited_click st key
                  end |}
  else {| prevented := false; next := Normal st |}.

(** The key events [keys] in turn.  The effect subscribes the listener
    of each render anew, so every event meets the state the one before
    it left. *)
Fixpoint keydowns (st : state) (keys : list jsstring) : completion state :=
  match keys with
  | [] => Normal st
  | k :: r => bind (next (handleKeyDown st k)) (fun st' => keydowns st' r)
  end.

End Listener.

(** A key that types the character [c] of an expression: [*] for [×],
    [/] for [÷], the point for the decimal comma, and the character
    itself for a digit, [+] and [-]. *)
Definition key_for (c : N) : jsstring :=
  if N.eqb c c_times then lit "*"
  else if N.eqb c c_divide then lit "/"
  else if N.eqb c c_comma then lit "."
  else [c].

End Keyboard.
Import Keyboard.

(** ** Formulas

    The vocabulary of the properties of whole formulas: numerals as
    they are typed, and sums of products of them. *)

Module Formula.

(** A numeral: the digits of its whole part and, after a decimal
    comma, the digits of its fraction. *)
Record numeral := {
  whole : jsstring;
  fraction : option jsstring
}.

Definition fraction_digits (n : numeral) : jsstring :=
  match n.(fraction) with
  | Some f => f
  | None => []
  end.

(** The whole part has a digit and no superfluous zero in front. *)
Definition valid_numeral (n : numeral) : bool :=
  forallb is_digit n.(whole)
  && match n.(whole) with
     | [] => false
     | [_] => true
     | z :: _ => negb (N.eqb z c_0)
     end
  && forallb is_digit (fraction_digits n).

(** The numeral as the keys type it. *)
Definition numeral_text (n : numeral) : jsstring :=
  n.(whole) ++ match n.(fraction) with
               | Some f => c_comma :: f
               | None => []
               end.

(** The number a numeral denotes: the nearest one. *)
Definition numeral_value (n : numeral) : number :=
  of_decimal false (digits_val (n.(whole) ++ fraction_digits n))
    (- Z.of_nat (length (fraction_digits n))).

Inductive scaling := ByTimes | ByDivide.
Inductive summing := ByPlus | ByMinus.

Definition scaling_binary (k : scaling) : binary :=
  match k with ByTimes => Times | ByDivide => Divide end.

Definition summing_binary (k : summing) : binary :=
  match k with ByPlus => Plus | ByMinus => Minus end.

(** A product: a numeral and the factors that multiply or divide it,
    taken from left to right. *)
Definition product : Type := numeral * list (scaling * numeral).

(** A formula: a product and the products added to it or subtracted
    from it, taken from left to right. *)
Definition formula : Type := product * list (summing * product).

Definition product_value (p : product) : number :=
  fold_left
    (fun acc '(k, n) => binary_apply (scaling_binary k) acc (numeral_value n))
    (snd p) (numeral_value (fst p)).

Definition formula_value (f : formula) : number :=
  fold_left
    (fun acc '(k, p) => binary_apply (summing_binary k) acc (product_value p))
    (snd f) (product_value (fst f)).

(** The formula read from left to right: its first numeral, and each
    further numeral with the operator in front of it. *)
Definition product_units (p : product) : list (binary * numeral) :=
  map (fun '(k, n) => (scaling_binary k, n)) (snd p).

Definition formula_units (f : formula) : list (binary * numeral) :=
  product_units (fst f)
  ++ flat_map (fun '(k, p) => (summing_binary k, fst p) :: product_units p)
       (snd f).

Definition units_text (us : list (binary * numeral)) : jsstring :=
  flat_map (fun '(o, n) => binary_label o ++ numeral_text n) us.

Definition formula_text (f : formula) : jsstring :=
  numeral_text (fst (fst f)) ++ units_text (formula_units f).

(** The tokens the units become in [safeEval]. *)
Definition units_tokens (us : list (binary * numeral)) : list token :=
  flat_map (fun '(o, n) => [binary_token o; TNum (numeral_value n)]) us.

(** One key for each character of the text. *)
Definition keys_of (s : jsstring) : list jsstring := map (fun c => [c]) s.

Definition valid_formula (f : formula) : bool :=
  valid_numeral (fst (fst f))
  && forallb (fun '(_, n) => valid_numeral n) (formula_units f).

End Formula.
Import Formula.

(** ** Display and expression

    What the further properties say of the two texts of a state. *)

Module Texts.

(** The display follows the expression: it shows the expression, ["0"]
    for the empty one, or it is the error display. *)
Definition mirrors (st : state) : Prop :=
  st = error_display \/ st.(screenNumbers) = or_zero st.(expression).

(** The decimal commas of a text. *)
Definition commas (s : jsstring) : nat :=
  length (filter (N.eqb c_comma) s).

(** No number of the expression, the pieces between its operators,
    has two decimal commas. *)
Definition single_commas (e : jsstring) : Prop :=
  forall part, In part (split is_operator e) -> (commas part <= 1)%nat.

End Texts.
Import Texts.

(** * Properties *)

(** ** Strings *)

Section StringFacts.

Lemma jsstring_eqb_eq (a b : jsstring) : JsString.eqb a b = true <-> a = b.
Proof.
  revert b; induction a as [|x a IH]; intros [|y b]; simpl;
    try (split; [discriminate | congruence]); try tauto.
  rewrite andb_true_iff, N.eqb_eq, IH. split.
  - intros [-> ->]; reflexivity.
  - intros H; injection H; auto.
Qed.

Lemma jsstring_eqb_refl (a : jsstring) : JsString.eqb a a = true.
Proof. now apply jsstring_eqb_eq. Qed.

Lemma In_trimStart (c : N) (s : jsstring) :
  In c s -> is_space c = false -> In c (trimStart s).
Proof.
  induction s as [|x s IH]; simpl; [tauto|].
  intros [->|H] Hc.
  - rewrite Hc; left; reflexivity.
  - destruct (is_space x); [auto | right; exact H].
Qed.

Lemma In_trim (c : N) (s : jsstring) :
  In c s -> is_space c = false -> In c (trim s).
Proof.
  intros H Hc. unfold trim, trimEnd.
  apply in_rev. rewrite rev_involutive.
  apply In_trimStart; [|exact Hc].
  apply in_rev. rewrite rev_involutive.
  now apply In_trimStart.
Qed.

Lemma trimStart_all_space (s : jsstring) :
  forallb is_space s = true -> trimStart s = [].
Proof.
  induction s as [|x s IH]; simpl; [reflexivity|].
  rewrite andb_true_iff; intros [-> H]; auto.
Qed.

Lemma removelast_snoc (s : jsstring) (c : N) : removelast (s ++ [c]) = s.
Proof. apply removelast_last. Qed.

Lemma rev_cons_case (s : jsstring) :
  s = [] \/ exists s' c, s = s' ++ [c].
Proof.
  destruct (rev s) as [|c r] eqn:E.
  - left. apply (f_equal (@rev N)) in E. now rewrite rev_involutive in E.
  - right. exists (rev r), c.
    apply (f_equal (@rev N)) in E. now rewrite rev_involutive in E.
Qed.

End StringFacts.

(** ** Result texts *)

Section ResultText.

Lemma is_digit_cases (c : N) :
  is_digit c = true -> In c [48; 49; 50; 51; 52; 53; 54; 55; 56; 57]%N.
Proof.
  unfold is_digit. rewrite andb_true_iff, !N.leb_le. intros [H1 H2].
  simpl.
  assert (c = 48 \/ c = 49 \/ c = 50 \/ c = 51 \/ c = 52 \/ c = 53
          \/ c = 54 \/ c = 55 \/ c = 56 \/ c = 57)%N by lia.
  intuition auto.
Qed.

Lemma digit_safe (c : N) : is_digit c = true -> safe_char c = true.
Proof.
  intros H. apply is_digit_cases in H. simpl in H.
  repeat (destruct H as [<-|H]; [reflexivity|]). contradiction.
Qed.

Lemma digit_char_is_digit (n : Z) : is_digit (digit_char (n mod 10)) = true.
Proof.
  pose proof (Z.mod_pos_bound n 10 ltac:(lia)) as B.
  unfold is_digit, digit_char. rewrite andb_true_iff, !N.leb_le. lia.
Qed.

Lemma digits_aux_all (fuel : nat) (n : Z) (acc : jsstring) :
  forallb is_digit acc = true ->
  forallb is_digit (digits_aux fuel n acc) = true.
Proof.
  revert n acc; induction fuel as [|f IH]; intros n acc H; simpl.
  - now rewrite digit_char_is_digit.
  - destruct (n <? 10); simpl.
    + now rewrite digit_char_is_digit.
    + apply IH; simpl; now rewrite digit_char_is_digit.
Qed.

Lemma digits_aux_not_nil (fuel : nat) (n : Z) (acc : jsstring) :
  digits_aux fuel n acc <> [].
Proof.
  revert n acc; induction fuel as [|f IH]; intros n acc; simpl.
  - discriminate.
  - destruct (n <? 10); [discriminate | apply IH].
Qed.

Lemma digits_all (n : Z) : forallb is_digit (digits n) = true.
Proof. now apply digits_aux_all. Qed.

Lemma digits_not_nil (n : Z) : digits n <> [].
Proof. apply digits_aux_not_nil. Qed.

Lemma all_digits_plain (s : jsstring) :
  forallb is_digit s = true -> plain s.
Proof.
  unfold plain. rewrite !forallb_forall. intros H c Hc.
  apply digit_safe, H, Hc.
Qed.

Lemma plain_app (s t : jsstring) : plain s -> plain t -> plain (s ++ t).
Proof. unfold plain; intros; rewrite forallb_app; now apply andb_true_iff. Qed.

Lemma plain_sub (s t : jsstring) :
  (forall c, In c s -> In c t) -> plain t -> plain s.
Proof.
  unfold plain. rewrite !forallb_forall. intros H Ht c Hc. auto.
Qed.

Lemma plain_repeat_zero (n : nat) : plain (repeat c_0 n).
Proof.
  unfold plain. apply forallb_forall. intros c Hc.
  apply repeat_spec in Hc. now subst.
Qed.

Lemma strip_zeros_rev_sub (r : jsstring) (c : N) :
  In c (strip_zeros_rev r) -> In c r.
Proof.
  induction r as [|x r IH]; simpl; [tauto|].
  destruct r as [|y r']; [tauto|].
  destruct (N.eqb x c_0); [|tauto].
  intros H; right; apply IH, H.
Qed.

Lemma strip_zeros_rev_not_nil (r : jsstring) :
  r <> [] -> strip_zeros_rev r <> [].
Proof.
  induction r as [|x r IH]; [tauto|]. intros _. simpl.
  destruct r as [|y r']; [discriminate|].
  destruct (N.eqb x c_0); [apply IH|]; discriminate.
Qed.

Lemma candidate_digits_plain (c sc : Z) :
  plain (fst (candidate_digits c sc)) /\ fst (candidate_digits c sc) <> [].
Proof.
  unfold candidate_digits; simpl. split.
  - apply plain_sub with (t := digits c).
    + intros x Hx. apply in_rev in Hx. apply strip_zeros_rev_sub in Hx.
      now apply in_rev.
    + apply all_digits_plain, digits_all.
  - intros E. apply (f_equal (@rev N)) in E. rewrite rev_involutive in E.
    simpl in E. revert E. apply strip_zeros_rev_not_nil.
    intros E. apply (f_equal (@rev N)) in E. rewrite rev_involutive in E.
    now apply digits_not_nil in E.
Qed.

Lemma shortest_from_plain (fuel : nat) (x : number) (p q n0 k : Z) :
  plain (fst (shortest_from fuel x p q n0 k))
  /\ fst (shortest_from fuel x p q n0 k) <> [].
Proof.
  revert k; induction fuel as [|f IH]; intros k; simpl;
    destruct (0 <=? n0 - k);
    repeat match goal with
           | |- context [if ?b then _ else _] => destruct b
           end;
    try apply candidate_digits_plain; apply IH.
Qed.

Lemma shortest_plain (m : positive) (e : Z) :
  plain (fst (shortest m e)) /\ fst (shortest m e) <> [].
Proof.
  unfold shortest. destruct (ratio m e) as [p q]. apply shortest_from_plain.
Qed.

Lemma last_append (s t : jsstring) (d : N) :
  t <> [] -> last (s ++ t) d = last t d.
Proof.
  intros Ht. induction s as [|x s IH]; [reflexivity|].
  simpl. destruct (s ++ t) eqn:E; [|exact IH].
  apply app_eq_nil in E. tauto.
Qed.

Lemma In_firstn_list (n : nat) (s : jsstring) (c : N) :
  In c (firstn n s) -> In c s.
Proof.
  intros H. rewrite <- (firstn_skipn n s). apply in_or_app; now left.
Qed.

Lemma In_skipn_list (n : nat) (s : jsstring) (c : N) :
  In c (skipn n s) -> In c s.
Proof.
  intros H. rewrite <- (firstn_skipn n s). apply in_or_app; now right.
Qed.

Lemma ends_with_operator_app (s t : jsstring) :
  t <> [] -> ends_with_operator (s ++ t) = ends_with_operator t.
Proof.
  intros Ht. unfold ends_with_operator.
  destruct t as [|y t]; [contradiction|].
  destruct (s ++ y :: t) eqn:E.
  - now destruct s.
  - rewrite <- E. now rewrite last_append by discriminate.
Qed.

Lemma ends_with_operator_snoc (s : jsstring) (c : N) :
  ends_with_operator (s ++ [c]) = is_operator c.
Proof. rewrite ends_with_operator_app by discriminate. reflexivity. Qed.

Lemma no_adjacent_operators_app (s t : jsstring) :
  no_adjacent_operators s = true ->
  no_adjacent_operators t = true ->
  ends_with_operator s && starts_with_operator t = false ->
  no_adjacent_operators (s ++ t) = true.
Proof.
  induction s as [|a s IH]; intros Hs Ht Hb; [exact Ht|].
  destruct s as [|b s].
  - simpl in *. destruct t as [|y t]; [reflexivity|].
    simpl in Hb. rewrite Hb, Ht. reflexivity.
  - change (negb (is_operator a && is_operator b)
            && no_adjacent_operators ((b :: s) ++ t) = true).
    change (negb (is_operator a && is_operator b)
            && no_adjacent_operators (b :: s) = true) in Hs.
    apply andb_true_iff in Hs as [H1 H2]. rewrite H1. simpl andb.
    apply IH; auto.
Qed.

Lemma plain_forall (s : jsstring) :
  plain s ->
  forall c, In c s ->
    is_operator c = false /\ N.eqb c c_comma = false /\ is_space c = false.
Proof.
  unfold plain. rewrite forallb_forall. intros H c Hc.
  specialize (H c Hc). unfold safe_char in H.
  apply negb_true_iff in H. rewrite !orb_false_iff in H. tauto.
Qed.

Lemma plain_no_adjacent (s : jsstring) :
  plain s -> no_adjacent_operators s = true.
Proof.
  intros H. induction s as [|a s IH]; [reflexivity|].
  assert (Ha : is_operator a = false)
    by (apply (plain_forall H); left; reflexivity).
  assert (Hs : plain s)
    by (unfold plain in *; simpl in H; apply andb_true_iff in H; tauto).
  simpl. destruct s; [reflexivity|]. rewrite Ha, (IH Hs). reflexivity.
Qed.

Lemma plain_no_space (s : jsstring) : plain s -> no_space s = true.
Proof.
  intros H. unfold no_space. apply forallb_forall. intros c Hc.
  apply negb_true_iff. now apply (plain_forall H).
Qed.

Lemma plain_no_comma (s : jsstring) : plain s -> includes c_comma s = false.
Proof.
  intros H. unfold includes.
  destruct (existsb (N.eqb c_comma) s) eqn:E; [|reflexivity].
  apply existsb_exists in E as (c & Hc & E).
  apply N.eqb_eq in E; subst c.
  now destruct (plain_forall H _ Hc) as (_ & ? & _).
Qed.

Lemma plain_ends (s : jsstring) : plain s -> ends_with_operator s = false.
Proof.
  intros H. destruct (rev_cons_case s) as [->|(s' & c & ->)];
    [reflexivity|].
  rewrite ends_with_operator_snoc.
  apply (plain_forall H). apply in_or_app; right; left; reflexivity.
Qed.

Lemma plain_starts (s : jsstring) : plain s -> starts_with_operator s = false.
Proof.
  intros H. destruct s as [|c s]; [reflexivity|].
  apply (plain_forall H). left; reflexivity.
Qed.

Lemma plain_solid (s : jsstring) : plain s -> s <> [] -> solid s.
Proof.
  intros H Hn. repeat split; auto using plain_no_space, plain_no_adjacent,
    plain_no_comma, plain_ends, plain_starts.
Qed.

Lemma solid_exponent (a d : jsstring) (sg : N) :
  plain a -> a <> [] -> plain d -> d <> [] ->
  sg = c_plus \/ sg = c_minus ->
  solid (a ++ 101%N :: sg :: d).
Proof.
  intros Ha Hna Hd Hnd Hsg.
  assert (Hop : is_operator sg = true) by (destruct Hsg; subst; reflexivity).
  assert (Hsp : is_space sg = false) by (destruct Hsg; subst; reflexivity).
  assert (Hco : N.eqb c_comma sg = false) by (destruct Hsg; subst; reflexivity).
  repeat split.
  - destruct a; [contradiction | discriminate].
  - unfold no_space. apply forallb_forall. intros c Hc.
    apply negb_true_iff.
    apply in_app_or in Hc as [Hc|[<-|[<-|Hc]]];
      try reflexivity; try assumption.
    + now apply (plain_forall Ha).
    + now apply (plain_forall Hd).
  - apply no_adjacent_operators_app.
    + now apply plain_no_adjacent.
    + change (negb (false && is_operator sg)
              && no_adjacent_operators (sg :: d) = true).
      simpl andb. destruct d as [|y d]; [contradiction|].
      change (negb (is_operator sg && is_operator y)
              && no_adjacent_operators (y :: d) = true).
      rewrite (plain_starts Hd : is_operator y = false).
      rewrite andb_false_r. exact (plain_no_adjacent Hd).
    + rewrite (plain_ends Ha). reflexivity.
  - destruct (includes c_comma (a ++ 101%N :: sg :: d)) eqn:E;
      [|reflexivity].
    apply existsb_exists in E as (c & Hc & E).
    apply N.eqb_eq in E; subst c.
    apply in_app_or in Hc as [Hc|[Hc|[Hc|Hc]]].
    + now destruct (plain_forall Ha _ Hc) as (_ & ? & _).
    + discriminate.
    + subst sg. discriminate.
    + now destruct (plain_forall Hd _ Hc) as (_ & ? & _).
  - change (a ++ 101%N :: sg :: d) with (a ++ [101%N; sg] ++ d).
    rewrite app_assoc, ends_with_operator_app by assumption.
    now apply plain_ends.
  - destruct a as [|x a]; [contradiction|]. simpl.
    apply (plain_forall Ha). left; reflexivity.
Qed.

Lemma settled_minus (s : jsstring) : solid s -> settled (c_minus :: s).
Proof.
  intros ((Hn & (Hsp & Hadj) & Hco & Hend) & Hst).
  repeat split.
  - discriminate.
  - unfold no_space in *. simpl. exact Hsp.
  - destruct s as [|y s]; [contradiction|].
    change (negb (is_operator c_minus && is_operator y)
            && no_adjacent_operators (y :: s) = true).
    simpl in Hst. rewrite Hst, Hadj. reflexivity.
  - unfold includes in *. simpl. exact Hco.
  - change (c_minus :: s) with ([c_minus] ++ s).
    now rewrite ends_with_operator_app.
Qed.

Lemma exponent_text_shape (e : Z) :
  exists sg, exponent_text e = 101%N :: sg :: digits (Z.abs e)
             /\ (sg = c_plus \/ sg = c_minus).
Proof.
  unfold exponent_text. destruct (0 <=? e); eexists; split;
    try reflexivity; auto.
Qed.

Lemma plain_cons (c : N) (s : jsstring) :
  safe_char c = true -> plain s -> plain (c :: s).
Proof. unfold plain; simpl; intros -> ->; reflexivity. Qed.

Lemma plain_inv (c : N) (s : jsstring) :
  plain (c :: s) -> safe_char c = true /\ plain s.
Proof. unfold plain; simpl; intros H; now apply andb_true_iff in H. Qed.

Lemma layout_solid (ds : jsstring) (n : Z) :
  plain ds -> ds <> [] -> solid (layout ds n).
Proof.
  intros Hp Hn. unfold layout.
  destruct ((Z.of_nat (length ds) <=? n) && (n <=? 21)).
  { apply plain_solid.
    - apply plain_app; [assumption | apply plain_repeat_zero].
    - destruct ds; [contradiction | discriminate]. }
  destruct ((0 <? n) && (n <=? 21)) eqn:E.
  { apply plain_solid.
    - apply plain_app.
      + apply plain_sub with (t := ds); [|assumption].
        intros c Hc. eapply In_firstn_list; eauto.
      + apply plain_cons; [reflexivity|].
        apply plain_sub with (t := ds); [|assumption].
        intros c Hc. eapply In_skipn_list; eauto.
    - destruct (firstn (Z.to_nat n) ds); discriminate. }
  destruct ((-6 <? n) && (n <=? 0)).
  { apply plain_solid; [|discriminate].
    apply (plain_app (s := lit "0.")); [reflexivity|].
    apply plain_app; [apply plain_repeat_zero | assumption]. }
  destruct (exponent_text_shape (n - 1)) as (sg & -> & Hsg).
  destruct ds as [|d rest]; [contradiction|].
  apply plain_inv in Hp as [Hd Hrest].
  destruct rest as [|d' rest].
  - apply solid_exponent; auto; try discriminate.
    + now apply plain_cons.
    + apply all_digits_plain, digits_all.
    + apply digits_not_nil.
  - change ([d] ++ [c_dot] ++ (d' :: rest) ++ 101%N :: sg :: digits (Z.abs (n - 1)))
      with ((d :: c_dot :: d' :: rest) ++ 101%N :: sg :: digits (Z.abs (n - 1))).
    apply solid_exponent; auto; try discriminate.
    + apply plain_cons; [assumption|]. apply plain_cons; [reflexivity|].
      assumption.
    + apply all_digits_plain, digits_all.
    + apply digits_not_nil.
Qed.

Lemma solid_settled (s : jsstring) : solid s -> settled s.
Proof. now intros [H _]. Qed.

Lemma toString_settled (x : number) : settled (toString x).
Proof.
  destruct x as [s|s| |s m e]; simpl.
  - apply solid_settled, plain_solid; [reflexivity | discriminate].
  - destruct s; [apply settled_minus|apply solid_settled];
      apply plain_solid; try reflexivity; discriminate.
  - apply solid_settled, plain_solid; [reflexivity | discriminate].
  - destruct (shortest_plain m e) as [Hp Hn].
    destruct (shortest m e) as [ds n]; simpl in Hp, Hn.
    destruct s; simpl.
    + apply settled_minus. now apply layout_solid.
    + apply solid_settled. now apply layout_solid.
Qed.

Lemma formatNumber_settled (x : number) : settled (formatNumber x).
Proof.
  unfold formatNumber. destruct (negb (isFinite x)).
  - apply solid_settled, plain_solid; [reflexivity | discriminate].
  - apply toString_settled.
Qed.

End ResultText.

(** ** Decimal digits denote the number they were made from *)

Section Digits.

Lemma digits_val_from (s : jsstring) (a : Z) :
  fold_left (fun acc c => 10 * acc + digit_val c) s a
  = a * 10 ^ Z.of_nat (length s) + digits_val s.
Proof.
  unfold digits_val. revert a; induction s as [|c s IH]; intros a.
  - simpl. lia.
  - cbn [fold_left length]. rewrite IH, (IH (10 * 0 + digit_val c)).
    rewrite Nat2Z.inj_succ, Z.pow_succ_r by lia. lia.
Qed.

Lemma digits_val_cons (c : N) (s : jsstring) :
  digits_val (c :: s) = digit_val c * 10 ^ Z.of_nat (length s) + digits_val s.
Proof.
  unfold digits_val at 1. cbn [fold_left]. rewrite digits_val_from. lia.
Qed.

Lemma digit_val_char (d : Z) : 0 <= d -> digit_val (digit_char d) = d.
Proof. intros H. unfold digit_val, digit_char. lia. Qed.

Lemma digits_aux_val (fuel : nat) (n : Z) (acc : jsstring) :
  0 <= n -> Z.log2 n <= Z.of_nat fuel ->
  digits_val (digits_aux fuel n acc)
  = n * 10 ^ Z.of_nat (length acc) + digits_val acc.
Proof.
  revert n acc; induction fuel as [|f IH]; intros n acc Hn Hl.
  - assert (n < 2).
    { destruct (Z.eq_dec n 0) as [->|]; [lia|].
      change 2 with (2 ^ 1). apply Z.log2_lt_pow2; simpl in *; lia. }
    simpl. rewrite digits_val_cons, Z.mod_small, digit_val_char by lia.
    reflexivity.
  - simpl. destruct (n <? 10) eqn:E.
    + apply Z.ltb_lt in E.
      rewrite digits_val_cons, Z.mod_small, digit_val_char by lia.
      reflexivity.
    + apply Z.ltb_ge in E.
      pose proof (Z.mod_pos_bound n 10 ltac:(lia)) as B.
      rewrite IH.
      * rewrite digits_val_cons, digit_val_char by lia.
        cbn [length]. rewrite Nat2Z.inj_succ, Z.pow_succ_r by lia.
        pose proof (Z.div_mod n 10 ltac:(lia)). nia.
      * apply Z.div_pos; lia.
      * assert (H0 : 0 < n / 10) by (apply Z.div_str_pos; lia).
        assert (H1 : 2 * (n / 10) <= n)
          by (pose proof (Z.div_mod n 10 ltac:(lia)); lia).
        apply Z.log2_le_mono in H1. rewrite Z.log2_double in H1 by lia.
        lia.
Qed.

(** The budget of [digits] is enough. *)
Lemma digits_val_digits (n : Z) : 0 <= n -> digits_val (digits n) = n.
Proof.
  intros H. unfold digits. rewrite digits_aux_val.
  - simpl. unfold digits_val. simpl. lia.
  - exact H.
  - pose proof (Z.log2_nonneg n). lia.
Qed.

End Digits.

(** ** No text with a [/] in it is the text of a number *)

Section SlashFacts.

Lemma span_digits_split (s d r : jsstring) :
  span_digits s = (d, r) -> s = d ++ r /\ forallb is_digit d = true.
Proof.
  revert d r; induction s as [|c s IH]; intros d r; simpl.
  - intros [= <- <-]; auto.
  - destruct (is_digit c) eqn:E.
    + destruct (span_digits s) as [d' t]. intros [= <- <-].
      destruct (IH _ _ eq_refl) as [-> H]. simpl. rewrite E. auto.
    + intros [= <- <-]; auto.
Qed.

Lemma digits_no_slash (d : jsstring) :
  forallb is_digit d = true -> ~ In c_slash d.
Proof.
  intros H Hin. rewrite forallb_forall in H. now apply H in Hin.
Qed.

Lemma strip_prefix_split (p s r : jsstring) :
  strip_prefix p s = Some r -> s = p ++ r.
Proof.
  revert s; induction p as [|a p IH]; intros s; simpl.
  - now intros [= ->].
  - destruct s as [|b s]; [discriminate|].
    destruct (N.eqb a b) eqn:E; [|discriminate].
    apply N.eqb_eq in E; subst b. intros H. now rewrite (IH _ H).
Qed.

Lemma consumed_refl (s : jsstring) : consumed s s.
Proof. exists []; auto. Qed.

Lemma consumed_trans (s r t : jsstring) :
  consumed s r -> consumed r t -> consumed s t.
Proof.
  intros (p1 & -> & H1) (p2 & -> & H2). exists (p1 ++ p2).
  rewrite app_assoc. split; [reflexivity|].
  intros H. apply in_app_or in H. tauto.
Qed.

Lemma consumed_cons (c : N) (s r : jsstring) :
  c <> c_slash -> consumed s r -> consumed (c :: s) r.
Proof.
  intros Hc (p & -> & H). exists (c :: p). split; [reflexivity|].
  intros [E|E]; [congruence | tauto].
Qed.

Lemma consumed_digits (s d r : jsstring) :
  span_digits s = (d, r) -> consumed s r.
Proof.
  intros H. apply span_digits_split in H as [-> H].
  exists d. split; [reflexivity | now apply digits_no_slash].
Qed.

Lemma consumed_slash (s : jsstring) : In c_slash s -> ~ consumed s [].
Proof. intros H (p & -> & Hp). rewrite app_nil_r in H. tauto. Qed.

Lemma exponent_part_consumed (s r : jsstring) (e : Z) :
  exponent_part s = (e, r) -> consumed s r.
Proof.
  unfold exponent_part. destruct s as [|c s].
  { intros [= _ <-]. apply consumed_refl. }
  destruct (N.eqb c 101 || N.eqb c 69) eqn:Ec.
  2: { intros [= _ <-]. apply consumed_refl. }
  assert (Hc : c <> c_slash).
  { intros ->. discriminate. }
  destruct s as [|c1 s'].
  { simpl. intros [= _ <-]. apply consumed_refl. }
  destruct (N.eqb c1 c_plus) eqn:E1; [|destruct (N.eqb c1 c_minus) eqn:E2].
  - destruct (span_digits s') as [d t] eqn:Ed.
    destruct d; intros [= _ <-]; [apply consumed_refl|].
    apply consumed_cons; [assumption|].
    apply consumed_cons; [apply N.eqb_eq in E1; subst; discriminate|].
    now apply consumed_digits in Ed.
  - destruct (span_digits s') as [d t] eqn:Ed.
    destruct d; intros [= _ <-]; [apply consumed_refl|].
    apply consumed_cons; [assumption|].
    apply consumed_cons; [apply N.eqb_eq in E2; subst; discriminate|].
    now apply consumed_digits in Ed.
  - destruct (span_digits (c1 :: s')) as [d t] eqn:Ed.
    destruct d; intros [= _ <-]; [apply consumed_refl|].
    apply consumed_cons; [assumption|].
    now apply consumed_digits in Ed.
Qed.

Lemma unsigned_decimal_consumed (sg : bool) (s r : jsstring) (v : number) :
  unsigned_decimal sg s = Some (v, r) -> consumed s r.
Proof.
  unfold unsigned_decimal.
  destruct (strip_prefix (lit "Infinity") s) as [r0|] eqn:Ei.
  { intros [= _ <-]. apply strip_prefix_split in Ei as ->.
    exists (lit "Infinity"). split; [reflexivity|].
    simpl. intros H. repeat (destruct H as [H|H]; [discriminate|]).
    contradiction. }
  destruct (span_digits s) as [ip r1] eqn:E1.
  apply consumed_digits in E1.
  match goal with
  | |- (let '(fp, r2) := ?X in _) = _ -> _ =>
      remember X as fr eqn:Efr; assert (H2 : consumed r1 (snd fr))
  end.
  { subst fr. destruct r1 as [|c r']; [apply consumed_refl|].
    destruct (N.eqb c c_dot) eqn:Ec; [|apply consumed_refl].
    destruct (span_digits r') as [fp t] eqn:E3. simpl.
    apply consumed_cons; [apply N.eqb_eq in Ec; subst; discriminate|].
    now apply consumed_digits in E3. }
  clear Efr. destruct fr as [fp r2]. simpl in H2.
  destruct (exponent_part r2) as [ex r3] eqn:E4.
  apply exponent_part_consumed in E4.
  assert (consumed s r3) by eauto using consumed_trans.
  destruct ip, fp; intros [= _ <-]; assumption.
Qed.

Lemma StrDecimalLiteral_consumed (s r : jsstring) (v : number) :
  StrDecimalLiteral s = Some (v, r) -> consumed s r.
Proof.
  unfold StrDecimalLiteral. destruct s as [|c s]; [discriminate|].
  destruct (N.eqb c c_plus) eqn:E1; [|destruct (N.eqb c c_minus) eqn:E2].
  - intros H. apply unsigned_decimal_consumed in H.
    apply consumed_cons; [apply N.eqb_eq in E1; subst; discriminate | easy].
  - intros H. apply unsigned_decimal_consumed in H.
    apply consumed_cons; [apply N.eqb_eq in E2; subst; discriminate | easy].
  - apply unsigned_decimal_consumed.
Qed.

Lemma radix_val_no_slash (rx : Z) (s : jsstring) (acc v : Z) :
  radix_val rx s acc = Some v -> ~ In c_slash s.
Proof.
  revert acc; induction s as [|c s IH]; intros acc; simpl; [tauto|].
  destruct (radix_digit rx c) as [d|] eqn:E; [|discriminate].
  intros H [Hc|Hc]; [subst c; discriminate | eapply IH; eauto].
Qed.

Lemma non_decimal_no_slash (s : jsstring) (v : number) :
  non_decimal s = Some v -> ~ In c_slash s.
Proof.
  unfold non_decimal. destruct s as [|z [|p [|c ds]]]; try discriminate.
  destruct (N.eqb z c_0) eqn:Ez; [|discriminate].
  apply N.eqb_eq in Ez; subst z.
  destruct (N.eqb p 120 || N.eqb p 88) eqn:E1;
    [|destruct (N.eqb p 111 || N.eqb p 79) eqn:E2;
      [|destruct (N.eqb p 98 || N.eqb p 66) eqn:E3; [|discriminate]]];
    (destruct (radix_val _ (c :: ds) 0) eqn:Er; [|discriminate]);
    apply radix_val_no_slash in Er;
    intros _ [H|[H|H]]; try discriminate; try tauto;
    subst p; discriminate.
Qed.

Lemma StringToNumber_slash (s : jsstring) :
  In c_slash s -> StringToNumber s = NaN.
Proof.
  intros H. apply In_trim in H; [|reflexivity].
  unfold StringToNumber. destruct (trim s) as [|c t] eqn:E; [contradiction|].
  destruct (non_decimal (c :: t)) eqn:En.
  { now apply non_decimal_no_slash in En. }
  destruct (StrDecimalLiteral (c :: t)) as [[v r]|] eqn:Ed; [|reflexivity].
  destruct r; [|reflexivity].
  apply StrDecimalLiteral_consumed in Ed. now apply consumed_slash in Ed.
Qed.

Lemma regexp_text_slash (src : jsstring) : In c_slash (regexp_text src).
Proof. left; reflexivity. Qed.

Lemma ToNumber_slashed (v : value) :
  slashed v -> (exists x, v = VNumber x) \/ ToNumber v = NaN.
Proof.
  destruct v as [x|s|src]; simpl; intros H.
  - left; eauto.
  - right. now apply StringToNumber_slash.
  - right. apply StringToNumber_slash, regexp_text_slash.
Qed.

Lemma ToString_slashed (v : value) :
  slashed v -> is_string (ToPrimitive v) = true ->
  In c_slash (ToString (ToPrimitive v)).
Proof.
  destruct v as [x|s|src]; simpl; intros H E; try discriminate; auto.
Qed.

Lemma apply_binop_slashed pow (op : binop) (a b : value) :
  slashed a -> slashed b -> slashed (apply_binop pow op a b).
Proof.
  intros Ha Hb. destruct op; simpl; auto.
  destruct (is_string (ToPrimitive a)) eqn:Ea; simpl.
  - apply in_or_app; left. now apply ToString_slashed.
  - destruct (is_string (ToPrimitive b)) eqn:Eb; simpl; auto.
    apply in_or_app; right. now apply ToString_slashed.
Qed.

Lemma eval_slashed pow (e : expr) (v : value) :
  eval pow e = Normal v -> slashed v.
Proof.
  revert v; induction e; intros v; simpl.
  - intros [= <-]; exact I.
  - intros [= <-]; exact I.
  - auto.
  - destruct (eval pow e); simpl; [intros [= <-]; exact I | discriminate].
  - destruct (eval pow e); simpl; [intros [= <-]; exact I | discriminate].
  - destruct (eval pow e1) as [va|]; simpl; [|discriminate].
    destruct (eval pow e2) as [vb|]; simpl; [|discriminate].
    intros [= <-]. apply apply_binop_slashed; auto.
  - destruct (eval pow e); simpl; discriminate.
  - destruct (eval pow e1); simpl; [|discriminate].
    destruct (eval pow e2); simpl; discriminate.
Qed.

Lemma engine_slashed pow (text : jsstring) (v : value) :
  engine pow text = Normal v -> slashed v.
Proof.
  unfold engine, Function_return.
  destruct (tokens text); [|discriminate].
  destruct (parse l); [|discriminate].
  apply eval_slashed.
Qed.

Lemma safeEval_slashed pow (expression : jsstring) :
  slashed (safeEval (engine pow) expression).
Proof.
  unfold safeEval. destruct (negb _); [exact I|].
  destruct (engine pow _) eqn:E; [|exact I].
  now apply engine_slashed in E.
Qed.

End SlashFacts.

(** ** The handler, key by key *)

Section Keys.

Variable host : jsstring -> completion value.

Lemma press_C (st : state) : handleButtonClick host st b_C = Normal initial.
Proof. reflexivity. Qed.

Lemma press_CE (st : state) : handleButtonClick host st b_CE = Normal initial.
Proof. reflexivity. Qed.

Lemma press_equals (st : state) :
  handleButtonClick host st b_equals =
  match trim st.(expression) with
  | [] => Normal st
  | _ =>
      let result := safeEval host st.(expression) in
      if failed result then Normal error_display
      else match result with
           | VNumber x =>
               Normal {| screenNumbers := formatNumber x;
                         expression := formatNumber x;
                         previousResult := Some x |}
           | _ => Throw TypeError
           end
  end.
Proof. reflexivity. Qed.

Lemma press_backspace (st : state) :
  handleButtonClick host st b_backspace =
  match st.(previousResult) with
  | Some _ => Normal initial
  | None =>
      if (length st.(expression) <=? 1)%nat
      then Normal {| screenNumbers := lit "0"; expression := [];
                     previousResult := None |}
      else Normal {| screenNumbers := or_zero (slice_0_m1 st.(expression));
                     expression := slice_0_m1 st.(expression);
                     previousResult := None |}
  end.
Proof.
  unfold handleButtonClick. simpl. now destruct (previousResult st).
Qed.

Lemma press_comma (st : state) :
  handleButtonClick host st b_comma =
  match st.(previousResult) with
  | Some _ => Normal (typed (lit "0,"))
  | None =>
      if includes c_comma (last (split is_operator st.(expression)) [])
      then Normal st
      else if is_empty st.(expression) || ends_with_operator st.(expression)
      then Normal (typed (st.(expression) ++ lit "0,"))
      else Normal (typed (st.(expression) ++ lit ","))
  end.
Proof.
  unfold handleButtonClick. simpl. now destruct (previousResult st).
Qed.

Lemma press_unary (st : state) (u : unary) :
  handleButtonClick host st (unary_label u) =
  let num := parseFloat st.(screenNumbers) in
  if domain_failure u num then Normal error_display
  else Normal (settled_on (formatNumber (unary_apply u num))).
Proof.
  destruct u; unfold handleButtonClick; simpl;
    unfold domain_failure;
    destruct (isFinite (parseFloat (screenNumbers st))); simpl;
    try reflexivity;
    match goal with |- context [if ?b then _ else _] => now destruct b end.
Qed.

Lemma press_digit (st : state) (d : Z) :
  In d digit_values ->
  handleButtonClick host st (b_digit d) =
  match st.(previousResult) with
  | Some _ => Normal (typed (b_digit d))
  | None =>
      match st.(expression) with
      | [] => Normal (typed (b_digit d))
      | e => Normal (typed (e ++ b_digit d))
      end
  end.
Proof.
  intros H. simpl in H.
  repeat (destruct H as [<-|H];
          [unfold handleButtonClick; simpl;
           destruct (previousResult st); simpl; [reflexivity|];
           destruct (expression st); reflexivity|]).
  contradiction.
Qed.

Lemma binary_label_operator (o : binary) :
  exists c, binary_label o = [c] /\ is_operator c = true.
Proof. destruct o; eexists; split; reflexivity. Qed.

Lemma is_binary_operator_unit (c : N) :
  is_binary_operator [c] = is_operator c.
Proof.
  unfold is_binary_operator, is_operator. simpl.
  rewrite !andb_true_r, orb_false_r, !orb_assoc. reflexivity.
Qed.

Lemma is_binary_operator_slice (s : jsstring) :
  is_binary_operator (slice_m1 s) = ends_with_operator s.
Proof.
  destruct s as [|c s]; [reflexivity|].
  unfold slice_m1, ends_with_operator. apply is_binary_operator_unit.
Qed.

Lemma press_binary (st : state) (o : binary) :
  handleButtonClick host st (binary_label o) =
  match st.(previousResult) with
  | Some _ => Normal (typed (st.(screenNumbers) ++ binary_label o))
  | None =>
      if ends_with_operator st.(expression)
      then Normal (typed (slice_0_m1 st.(expression) ++ binary_label o))
      else Normal {| screenNumbers := or_zero (st.(expression) ++ binary_label o);
                     expression := st.(expression) ++ binary_label o;
                     previousResult := None |}
  end.
Proof.
  rewrite <- is_binary_operator_slice.
  destruct o; unfold handleButtonClick; simpl;
    (destruct (previousResult st); simpl; [reflexivity|]);
    (destruct (is_binary_operator (slice_m1 (expression st)));
     [reflexivity|]);
    destruct (expression st); reflexivity.
Qed.

End Keys.

Lemma button_cases (val : jsstring) :
  In val buttonValues ->
  val = b_C \/ val = b_CE \/ val = b_equals \/ val = b_backspace
  \/ val = b_comma
  \/ (exists u, val = unary_label u)
  \/ (exists d, In d digit_values /\ val = b_digit d)
  \/ (exists o, val = binary_label o).
Proof.
  intros H. simpl in H.
  assert (U : forall u, val = unary_label u -> exists u', val = unary_label u')
    by eauto.
  assert (B : forall o, val = binary_label o -> exists o', val = binary_label o')
    by eauto.
  assert (D : forall d, In d digit_values -> val = b_digit d ->
                        exists d', In d' digit_values /\ val = b_digit d')
    by eauto.
  repeat (destruct H as [H|H];
    [symmetry in H;
     first [ now (left; exact H)
           | now (right; left; exact H)
           | now (right; right; left; exact H)
           | now (right; right; right; left; exact H)
           | now (right; right; right; right; left; exact H)
           | right; right; right; right; right; left;
             first [ exact (U Negate H) | exact (U Percent H)
                   | exact (U Reciprocal H) | exact (U Square H)
                   | exact (U SquareRoot H) ]
           | right; right; right; right; right; right; right;
             first [ exact (B Plus H) | exact (B Minus H)
                   | exact (B Times H) | exact (B Divide H) ]
           | right; right; right; right; right; right; left;
             first [ exact (D 0 ltac:(simpl; tauto) H)
                   | exact (D 1 ltac:(simpl; tauto) H)
                   | exact (D 2 ltac:(simpl; tauto) H)
                   | exact (D 3 ltac:(simpl; tauto) H)
                   | exact (D 4 ltac:(simpl; tauto) H)
                   | exact (D 5 ltac:(simpl; tauto) H)
                   | exact (D 6 ltac:(simpl; tauto) H)
                   | exact (D 7 ltac:(simpl; tauto) H)
                   | exact (D 8 ltac:(simpl; tauto) H)
                   | exact (D 9 ltac:(simpl; tauto) H) ] ] |]).
  contradiction.
Qed.


(** ** The invariant of the reachable states *)

Section Invariant.

Lemma no_adjacent_operators_prefix (s t : jsstring) :
  no_adjacent_operators (s ++ t) = true -> no_adjacent_operators s = true.
Proof.
  induction s as [|a s IH]; [reflexivity|].
  destruct s as [|b s]; [reflexivity|].
  change (negb (is_operator a && is_operator b)
          && no_adjacent_operators ((b :: s) ++ t) = true ->
          negb (is_operator a && is_operator b)
          && no_adjacent_operators (b :: s) = true).
  rewrite !andb_true_iff. intros [H1 H2]. auto.
Qed.

Lemma no_adjacent_operators_tail (a : N) (r : jsstring) :
  no_adjacent_operators (a :: r) = true -> no_adjacent_operators r = true.
Proof.
  destruct r as [|b r]; [reflexivity|].
  change (negb (is_operator a && is_operator b)
          && no_adjacent_operators (b :: r) = true ->
          no_adjacent_operators (b :: r) = true).
  rewrite andb_true_iff. tauto.
Qed.

Lemma no_adjacent_operators_last2 (s : jsstring) (b c : N) :
  no_adjacent_operators (s ++ [b; c]) = true ->
  is_operator b && is_operator c = false.
Proof.
  induction s as [|a s IH].
  - simpl. rewrite andb_true_r. apply negb_true_iff.
  - intros H. apply IH. now apply no_adjacent_operators_tail in H.
Qed.

Lemma tidy_nil : tidy [].
Proof. split; reflexivity. Qed.

Lemma tidy_app (s t : jsstring) :
  tidy s -> tidy t ->
  ends_with_operator s && starts_with_operator t = false ->
  tidy (s ++ t).
Proof.
  intros [S1 S2] [T1 T2] H. split.
  - unfold no_space in *. rewrite forallb_app, S1, T1. reflexivity.
  - now apply no_adjacent_operators_app.
Qed.

Lemma tidy_prefix (s t : jsstring) : tidy (s ++ t) -> tidy s.
Proof.
  intros [H1 H2]. split.
  - unfold no_space in *. rewrite forallb_app in H1.
    now apply andb_true_iff in H1.
  - now apply no_adjacent_operators_prefix in H2.
Qed.

Lemma tidy_removelast (s : jsstring) : tidy s -> tidy (removelast s).
Proof.
  destruct (rev_cons_case s) as [->|(s' & c & ->)]; [auto|].
  rewrite removelast_snoc. apply tidy_prefix.
Qed.

Lemma removelast_not_ends (s : jsstring) :
  tidy s -> ends_with_operator s = true ->
  ends_with_operator (removelast s) = false.
Proof.
  destruct (rev_cons_case s) as [->|(s' & c & ->)]; [discriminate|].
  rewrite removelast_snoc, ends_with_operator_snoc. intros [_ H] Hc.
  destruct (rev_cons_case s') as [->|(s'' & b & ->)]; [reflexivity|].
  rewrite ends_with_operator_snoc. rewrite <- app_assoc in H.
  apply no_adjacent_operators_last2 in H. rewrite Hc, andb_true_r in H.
  exact H.
Qed.

Lemma tidy_plain (s : jsstring) : plain s -> tidy s.
Proof. split; [now apply plain_no_space | now apply plain_no_adjacent]. Qed.

Lemma tidy_snoc_plain (s t : jsstring) : tidy s -> plain t -> tidy (s ++ t).
Proof.
  intros Hs Ht. apply tidy_app; [assumption | now apply tidy_plain |].
  rewrite (plain_starts Ht). apply andb_false_r.
Qed.

Lemma tidy_operator (c : N) : is_operator c = true -> tidy [c].
Proof.
  intros H. split; [|reflexivity].
  unfold no_space. simpl. rewrite andb_true_r. apply negb_true_iff.
  unfold is_operator in H. rewrite !orb_true_iff, !N.eqb_eq in H.
  destruct H as [[[->| ->]| ->]| ->]; reflexivity.
Qed.

Lemma tidy_snoc_operator (s : jsstring) (c : N) :
  tidy s -> ends_with_operator s = false -> is_operator c = true ->
  tidy (s ++ [c]).
Proof.
  intros Hs He Hc. apply tidy_app; [assumption | now apply tidy_operator |].
  now rewrite He.
Qed.

Lemma b_digit_plain (d : Z) : In d digit_values -> plain (b_digit d).
Proof.
  simpl. intros H.
  repeat (destruct H as [<-|H]; [reflexivity|]). contradiction.
Qed.

Lemma invariant_typed (s : jsstring) : s <> [] -> tidy s -> invariant (typed s).
Proof.
  intros Hn Ht. split; [exact Hn|]. split; [exact Ht|].
  simpl. intros H. now contradiction H.
Qed.

Lemma invariant_initial : invariant initial.
Proof.
  split; [discriminate|]. split; [apply tidy_nil|].
  simpl. intros H. now contradiction H.
Qed.

Lemma invariant_error : invariant error_display.
Proof.
  split; [discriminate|]. split; [apply tidy_nil|].
  simpl. intros H. now contradiction H.
Qed.

Lemma invariant_result (r : jsstring) (x : number) :
  settled r ->
  invariant {| screenNumbers := r; expression := r; previousResult := Some x |}.
Proof.
  intros H. pose proof H as (Hn & Ht & _).
  split; [exact Hn|]. split; [exact Ht|]. intros _. split; [reflexivity|].
  exact H.
Qed.

Lemma invariant_shown (x : number) : invariant (shown x).
Proof.
  unfold shown. destruct (isNaN x || negb (isFinite x)).
  - apply invariant_error.
  - apply invariant_result, formatNumber_settled.
Qed.

Lemma or_zero_not_nil (s : jsstring) : or_zero s <> [].
Proof. destruct s; discriminate. Qed.

Lemma snoc_not_nil (s t : jsstring) : t <> [] -> s ++ t <> [].
Proof. intros Ht E. apply app_eq_nil in E. tauto. Qed.

(** [=] on the evaluator of [JsEngine]: a failure or the number shown. *)
Lemma equals_engine pow (st : state) :
  trim st.(expression) <> [] ->
  handleButtonClick (engine pow) st b_equals =
  Normal (shown (ToNumber (safeEval (engine pow) st.(expression)))).
Proof.
  intros Ht. rewrite press_equals.
  destruct (trim (expression st)); [contradiction|].
  cbv zeta. unfold failed, shown.
  destruct (ToNumber_slashed _ (safeEval_slashed pow (expression st)))
    as [(x & ->)|E].
  - change (ToNumber (VNumber x)) with x.
    now destruct (isNaN x || negb (isFinite x)).
  - rewrite E. reflexivity.
Qed.

Lemma invariant_step pow (st : state) (val : jsstring) :
  In val buttonValues -> invariant st ->
  exists st', handleButtonClick (engine pow) st val = Normal st'
              /\ invariant st'.
Proof.
  intros Hval Hinv. pose proof Hinv as (Hscr & Htidy & Hres).
  apply button_cases in Hval
    as [->|[->|[->|[->|[->|[(u & ->)|[(d & Hd & ->)|(o & ->)]]]]]]].
  - rewrite press_C. eexists; split; [reflexivity | apply invariant_initial].
  - rewrite press_CE. eexists; split; [reflexivity | apply invariant_initial].
  - destruct (trim (expression st)) eqn:E.
    + rewrite press_equals, E. eexists; split; [reflexivity|].
      exact Hinv.
    + rewrite equals_engine by (rewrite E; discriminate).
      eexists; split; [reflexivity | apply invariant_shown].
  - rewrite press_backspace. destruct (previousResult st).
    { eexists; split; [reflexivity | apply invariant_initial]. }
    destruct (length (expression st) <=? 1)%nat.
    { eexists; split; [reflexivity|]. apply invariant_initial. }
    eexists; split; [reflexivity|].
    split; [apply or_zero_not_nil|]. split; [now apply tidy_removelast|].
    simpl. intros H. now contradiction H.
  - rewrite press_comma. destruct (previousResult st) eqn:Ep.
    { eexists; split; [reflexivity|].
      apply invariant_typed; [discriminate | split; reflexivity]. }
    destruct (includes c_comma _).
    { eexists; split; [reflexivity|].
      exact Hinv. }
    destruct (is_empty (expression st) || ends_with_operator (expression st));
      (eexists; split; [reflexivity|]);
      (apply invariant_typed;
       [apply snoc_not_nil; discriminate
       |apply tidy_app;
        [assumption | split; reflexivity | apply andb_false_r]]).
  - rewrite press_unary. cbv zeta. destruct (domain_failure u _).
    + eexists; split; [reflexivity | apply invariant_error].
    + eexists; split; [reflexivity|].
      apply invariant_result, formatNumber_settled.
  - rewrite press_digit by assumption.
    pose proof (b_digit_plain Hd) as Hp.
    destruct (previousResult st).
    { eexists; split; [reflexivity|].
      apply invariant_typed; [discriminate | now apply tidy_plain]. }
    destruct (expression st) eqn:E.
    { eexists; split; [reflexivity|].
      apply invariant_typed; [discriminate | now apply tidy_plain]. }
    eexists; split; [reflexivity|].
    apply invariant_typed; [discriminate | now apply tidy_snoc_plain].
  - rewrite press_binary.
    destruct (binary_label_operator o) as (c & -> & Hc).
    destruct (previousResult st) eqn:Ep.
    { eexists; split; [reflexivity|].
      destruct Hres as [E (Hn & Ht & _ & He)]; [discriminate|].
      rewrite <- E.
      apply invariant_typed; [apply snoc_not_nil; discriminate|].
      now apply tidy_snoc_operator. }
    destruct (ends_with_operator (expression st)) eqn:Ee.
    { eexists; split; [reflexivity|].
      apply invariant_typed; [apply snoc_not_nil; discriminate|].
      apply tidy_snoc_operator; auto using tidy_removelast.
      now apply removelast_not_ends. }
    eexists; split; [reflexivity|].
    split; [apply or_zero_not_nil|].
    split; [now apply tidy_snoc_operator|].
    simpl. intros H. now contradiction H.
Qed.

Lemma invariant_presses pow (vals : list jsstring) (st : state) :
  Forall (fun v => In v buttonValues) vals -> invariant st ->
  exists st', presses (engine pow) st vals = Normal st' /\ invariant st'.
Proof.
  intros H; revert st; induction H as [|v vals Hv _ IH]; intros st Hst.
  - exists st; split; [reflexivity | assumption].
  - destruct (invariant_step pow Hv Hst) as (st1 & E1 & H1).
    destruct (IH _ H1) as (st2 & E2 & H2).
    exists st2. split; [|assumption]. simpl. rewrite E1. exact E2.
Qed.

Lemma reachable_invariant pow (st : state) :
  reachable pow st -> invariant st.
Proof.
  intros (vals & Hv & E).
  destruct (invariant_presses pow Hv invariant_initial) as (st' & E' & H).
  rewrite E in E'. injection E' as ->. exact H.
Qed.

End Invariant.

(** ** Steps from any state *)

Section Steps.

Lemma SameValue_eq (x y : number) : SameValue x y = true -> x = y.
Proof.
  destruct x, y; simpl; try discriminate; try reflexivity.
  - intros H. apply Bool.eqb_prop in H. now subst.
  - intros H. apply Bool.eqb_prop in H. now subst.
  - rewrite !andb_true_iff, Pos.eqb_eq, Z.eqb_eq.
    intros [[H ->] ->]. apply Bool.eqb_prop in H. now subst.
Qed.

Lemma split_sub (p : N -> bool) (s part : jsstring) (c : N) :
  In part (split p s) -> In c part -> In c s.
Proof.
  revert part; induction s as [|x s IH]; intros part; simpl.
  - intros [<-|[]] [].
  - destruct (p x).
    + intros [<-|H] Hc; [contradiction | right; apply (IH part); assumption].
    + destruct (split p s) as [|q qs] eqn:E.
      * intros [<-|[]] [<-|[]]. now left.
      * intros [<-|H] Hc.
        -- destruct Hc as [<-|Hc]; [now left | right].
           apply (IH q); [now left | assumption].
        -- right. apply (IH part); [now right | assumption].
Qed.

Lemma split_not_nil (p : N -> bool) (s : jsstring) : split p s <> [].
Proof.
  destruct s as [|x s]; simpl; [discriminate|].
  destruct (p x); [discriminate|]. destruct (split p s); discriminate.
Qed.

Lemma last_In (l : list jsstring) : l <> [] -> In (last l []) l.
Proof.
  induction l as [|a l IH]; [contradiction|]. intros _.
  destruct l as [|b l]; [now left|].
  right. apply IH. discriminate.
Qed.


(** What a press makes of any state: nothing, a text being typed or
    the error display, or one formatted number in both cells. *)
Lemma step_outcome pow (st : state) (val : jsstring) :
  In val buttonValues ->
  exists st', handleButtonClick (engine pow) st val = Normal st'
    /\ (st' = st
        \/ previousResult st' = None
        \/ exists y x, st' = {| screenNumbers := formatNumber y;
                                expression := formatNumber y;
                                previousResult := Some x |}).
Proof.
  intros Hval.
  apply button_cases in Hval
    as [->|[->|[->|[->|[->|[(u & ->)|[(d & Hd & ->)|(o & ->)]]]]]]].
  - rewrite press_C. eauto.
  - rewrite press_CE. eauto.
  - destruct (trim (expression st)) eqn:E.
    + rewrite press_equals, E. eauto.
    + rewrite equals_engine by (rewrite E; discriminate).
      eexists; split; [reflexivity|]. unfold shown.
      destruct (isNaN _ || negb _); eauto.
  - rewrite press_backspace. destruct (previousResult st); [eauto|].
    destruct (length (expression st) <=? 1)%nat; eauto.
  - rewrite press_comma. destruct (previousResult st); [eauto|].
    destruct (includes c_comma _); [eauto|].
    destruct (is_empty _ || ends_with_operator _); eauto.
  - rewrite press_unary. cbv zeta. destruct (domain_failure u _); [eauto|].
    eexists; split; [reflexivity|]. right; right. unfold settled_on. eauto.
  - rewrite press_digit by assumption.
    destruct (previousResult st); [eauto|]. destruct (expression st); eauto.
  - rewrite press_binary. destruct (previousResult st); [eauto|].
    destruct (ends_with_operator (expression st)); eauto.
Qed.

Lemma handler_returns pow (st : state) (val : jsstring) :
  In val buttonValues ->
  exists st', handleButtonClick (engine pow) st val = Normal st'.
Proof.
  intros H. destruct (step_outcome pow st H) as (st' & E & _). eauto.
Qed.

(** A press never empties the display, whatever the state. *)
Lemma display_step pow (st : state) (val : jsstring) :
  In val buttonValues -> st.(screenNumbers) <> [] ->
  exists st', handleButtonClick (engine pow) st val = Normal st'
              /\ st'.(screenNumbers) <> [].
Proof.
  intros Hval Hscr.
  apply button_cases in Hval
    as [->|[->|[->|[->|[->|[(u & ->)|[(d & Hd & ->)|(o & ->)]]]]]]].
  - rewrite press_C. eexists; split; [reflexivity | discriminate].
  - rewrite press_CE. eexists; split; [reflexivity | discriminate].
  - destruct (trim (expression st)) eqn:E.
    + rewrite press_equals, E. eauto.
    + rewrite equals_engine by (rewrite E; discriminate).
      eexists; split; [reflexivity | apply invariant_shown].
  - rewrite press_backspace. destruct (previousResult st).
    { eexists; split; [reflexivity | discriminate]. }
    destruct (length (expression st) <=? 1)%nat;
      (eexists; split; [reflexivity|]);
      [discriminate | apply or_zero_not_nil].
  - rewrite press_comma. destruct (previousResult st).
    { eexists; split; [reflexivity | discriminate]. }
    destruct (includes c_comma _); [eauto|].
    destruct (is_empty _ || ends_with_operator _);
      (eexists; split; [reflexivity | apply snoc_not_nil; discriminate]).
  - rewrite press_unary. cbv zeta. destruct (domain_failure u _).
    + eexists; split; [reflexivity | discriminate].
    + eexists; split; [reflexivity | apply formatNumber_settled].
  - rewrite press_digit by assumption.
    destruct (previousResult st);
      [eexists; split; [reflexivity | discriminate]|].
    destruct (expression st);
      (eexists; split; [reflexivity | discriminate]).
  - rewrite press_binary.
    assert (Ho : binary_label o <> []) by (destruct o; discriminate).
    destruct (previousResult st).
    { eexists; split; [reflexivity | now apply snoc_not_nil]. }
    destruct (ends_with_operator (expression st));
      (eexists; split; [reflexivity|]);
      [now apply snoc_not_nil | apply or_zero_not_nil].
Qed.

(** Typing a formula. *)
Lemma typing_first_digit host (d : Z) :
  In d digit_values ->
  handleButtonClick host initial (b_digit d) = Normal (typed (b_digit d)).
Proof. intros H. now rewrite press_digit. Qed.

Lemma typing_digit host (s : jsstring) (d : Z) :
  In d digit_values -> s <> [] ->
  handleButtonClick host (typed s) (b_digit d)
  = Normal (typed (s ++ b_digit d)).
Proof.
  intros H Hs. rewrite press_digit by assumption. simpl.
  destruct s; [contradiction | reflexivity].
Qed.

Lemma typing_operator host (s : jsstring) (o : binary) :
  s <> [] -> ends_with_operator s = false ->
  handleButtonClick host (typed s) (binary_label o)
  = Normal (typed (s ++ binary_label o)).
Proof.
  intros Hs He. rewrite press_binary. simpl. rewrite He.
  destruct s; [contradiction | reflexivity].
Qed.

Lemma ends_with_digit (s : jsstring) (d : Z) :
  In d digit_values -> ends_with_operator (s ++ b_digit d) = false.
Proof.
  intros H. unfold b_digit. rewrite ends_with_operator_snoc.
  apply (plain_forall (b_digit_plain H)). now left.
Qed.

Lemma b_digit_no_space (d : Z) :
  In d digit_values -> is_space (digit_char d) = false.
Proof. intros H. apply (plain_forall (b_digit_plain H)). now left. Qed.

Lemma forallb_at {A} (f : A -> bool) (l : list A) (x : A) :
  forallb f l = true -> In x l -> f x = true.
Proof. intros H. now apply forallb_forall. Qed.

(** [safeEval] reads every [d1 o1 d2 o2 d3] the standard way: checked
    on each choice of three digits and two operators. *)
Lemma reads_standard_engine pow :
  forallb (fun d1 =>
  forallb (fun d2 =>
  forallb (fun d3 =>
  forallb (fun o1 =>
  forallb (fun o2 => reads_standard (engine pow) d1 d2 d3 o1 o2)
    binaries) binaries) digit_values) digit_values) digit_values = true.
Proof. vm_compute. reflexivity. Qed.

Lemma reads_standard_spec pow d1 d2 d3 o1 o2 :
  In d1 digit_values -> In d2 digit_values -> In d3 digit_values ->
  reads_standard (engine pow) d1 d2 d3 o1 o2 = true.
Proof.
  intros H1 H2 H3.
  assert (B : forall o, In o binaries) by (intros []; simpl; tauto).
  exact (forallb_at _ _ o2
          (forallb_at _ _ o1
            (forallb_at _ _ d3
              (forallb_at _ _ d2
                (forallb_at _ _ d1 (reads_standard_engine pow) H1) H2) H3)
            (B o1)) (B o2)).
Qed.

End Steps.

(** ** The parser never starves *)

Section Budget.

Ltac use_shorter H :=
  repeat match goal with
  | |- context [additive ?f ?ts] =>
      let E := fresh "L" in
      pose proof (proj1 H ts) as E;
      destruct (additive f ts) as [? ?| |]; simpl in E
  | |- context [additive_rest ?f ?a ?ts] =>
      let E := fresh "L" in
      pose proof (proj1 (proj2 H) a ts) as E;
      destruct (additive_rest f a ts) as [? ?| |]; simpl in E
  | |- context [multiplicative ?f ?ts] =>
      let E := fresh "L" in
      pose proof (proj1 (proj2 (proj2 H)) ts) as E;
      destruct (multiplicative f ts) as [? ?| |]; simpl in E
  | |- context [multiplicative_rest ?f ?a ?ts] =>
      let E := fresh "L" in
      pose proof (proj1 (proj2 (proj2 (proj2 H))) a ts) as E;
      destruct (multiplicative_rest f a ts) as [? ?| |]; simpl in E
  | |- context [exponentiation ?f ?ts] =>
      let E := fresh "L" in
      pose proof (proj1 (proj2 (proj2 (proj2 (proj2 H)))) ts) as E;
      destruct (exponentiation f ts) as [? ?| |]; simpl in E
  | |- context [JsEngine.unary ?f ?ts] =>
      let E := fresh "L" in
      pose proof (proj1 (proj2 (proj2 (proj2 (proj2 (proj2 H))))) ts) as E;
      destruct (JsEngine.unary f ts) as [? ?| |]; simpl in E
  | |- context [update ?f ?ts] =>
      let E := fresh "L" in
      pose proof (proj1 (proj2 (proj2 (proj2 (proj2 (proj2 (proj2 H)))))) ts) as E;
      destruct (update f ts) as [? ?| |]; simpl in E
  | |- context [call_rest ?f ?a ?ts] =>
      let E := fresh "L" in
      pose proof (proj1 (proj2 (proj2 (proj2 (proj2 (proj2 (proj2 (proj2 H))))))) a ts) as E;
      destruct (call_rest f a ts) as [? ?| |]; simpl in E
  | |- context [primary ?f ?ts] =>
      let E := fresh "L" in
      pose proof (proj2 (proj2 (proj2 (proj2 (proj2 (proj2 (proj2 (proj2 H))))))) ts) as E;
      destruct (primary f ts) as [? ?| |]; simpl in E
  | |- context [match ?r with [] => _ | _ :: _ => _ end] =>
      destruct r as [|[]]
  end.

Lemma parse_shorter (fuel : nat) : all_shorter fuel.
Proof.
  induction fuel as [|f IH].
  - repeat split; intros; simpl; try exact I;
      try (destruct ts as [|[] ts]; simpl; auto; fail).
    + destruct ts as [|[] [|[] ts]]; simpl; auto.
  - repeat split; intros; simpl.
    all: try (destruct ts as [|[] ts]; simpl; try exact I; try lia).
    all: use_shorter IH; simpl in *; try exact I; try lia.
Qed.

Ltac feed tac X P :=
  let L := fresh "L" in
  let N := fresh "N" in
  pose proof P as L;
  assert (N : X <> Starved) by (tac; simpl in *; lia);
  destruct X as [? ?| |]; [simpl in L | | now contradiction N].

Ltac use_fed tac :=
  repeat match goal with
  | |- context [additive ?f ?ts] =>
      feed tac (additive f ts) (proj1 (parse_shorter f) ts)
  | |- context [additive_rest ?f ?a ?ts] =>
      feed tac (additive_rest f a ts) (proj1 (proj2 (parse_shorter f)) a ts)
  | |- context [multiplicative ?f ?ts] =>
      feed tac (multiplicative f ts)
        (proj1 (proj2 (proj2 (parse_shorter f))) ts)
  | |- context [multiplicative_rest ?f ?a ?ts] =>
      feed tac (multiplicative_rest f a ts)
        (proj1 (proj2 (proj2 (proj2 (parse_shorter f)))) a ts)
  | |- context [exponentiation ?f ?ts] =>
      feed tac (exponentiation f ts)
        (proj1 (proj2 (proj2 (proj2 (proj2 (parse_shorter f))))) ts)
  | |- context [JsEngine.unary ?f ?ts] =>
      feed tac (JsEngine.unary f ts)
        (proj1 (proj2 (proj2 (proj2 (proj2 (proj2 (parse_shorter f)))))) ts)
  | |- context [update ?f ?ts] =>
      feed tac (update f ts)
        (proj1 (proj2 (proj2 (proj2 (proj2 (proj2 (proj2
           (parse_shorter f))))))) ts)
  | |- context [call_rest ?f ?a ?ts] =>
      feed tac (call_rest f a ts)
        (proj1 (proj2 (proj2 (proj2 (proj2 (proj2 (proj2 (proj2
           (parse_shorter f)))))))) a ts)
  | |- context [primary ?f ?ts] =>
      feed tac (primary f ts)
        (proj2 (proj2 (proj2 (proj2 (proj2 (proj2 (proj2 (proj2
           (parse_shorter f)))))))) ts)
  | |- context [match ?r with [] => _ | _ :: _ => _ end] =>
      destruct r as [|[]]
  end.

Lemma parse_fed (fuel : nat) : all_fed fuel.
Proof.
  induction fuel as [|f IH].
  - repeat split; intros; simpl in *; try lia;
      destruct ts as [|[] ts]; simpl in *; try discriminate; try lia.
  - destruct IH as (I1 & I2 & I3 & I4 & I5 & I6 & I7 & I8 & I9).
    repeat split; intros; simpl.
    all: try (destruct ts as [|[] ts]; simpl in *; try discriminate).
    all: use_fed ltac:(first [apply I1 | apply I2 | apply I3 | apply I4 | apply I5 | apply I6 | apply I7 | apply I8 | apply I9]).
    all: try discriminate.
Qed.

(** The budget [parse] gives is enough: its outcome is that of the
    grammar, never an exhausted budget. *)
Lemma additive_fed (ts : list token) : additive (budget ts) ts <> Starved.
Proof. apply (proj1 (parse_fed (budget ts))). unfold budget. lia. Qed.

End Budget.

(** ** The model at work

    Values the definitions take where the language's behaviour is well
    known. *)

Section Examples.

Variable pow : number -> number -> number.

Example toString_sum :
  toString (add (of_decimal false 1 (-1)) (of_decimal false 2 (-1)))
  = lit "0.30000000000000004".
Proof. vm_compute. reflexivity. Qed.

Example toString_small : toString (of_decimal false 1 (-7)) = lit "1e-7".
Proof. vm_compute. reflexivity. Qed.

Example toFixed8_third :
  toFixed8 (div (of_Z 1) (of_Z 3)) = lit "0.33333333".
Proof. vm_compute. reflexivity. Qed.

Example toFixed8_negative_zero :
  toFixed8 (of_decimal true 1 (-9)) = lit "-0.00000000".
Proof. vm_compute. reflexivity. Qed.

Example formatNumber_negative_zero :
  formatNumber (of_decimal true 1 (-9)) = lit "0".
Proof. vm_compute. reflexivity. Qed.

Example formatNumber_large :
  formatNumber (of_decimal false 1 21) = lit "1e+21".
Proof. vm_compute. reflexivity. Qed.

Example formatNumber_infinite :
  formatNumber (S754_infinity false) = lit "Error".
Proof. reflexivity. Qed.

Example parseFloat_stops_at_comma : parseFloat (lit "2,5") = of_Z 2.
Proof. vm_compute. reflexivity. Qed.

Example parseFloat_of_error : parseFloat (lit "Error") = NaN.
Proof. vm_compute. reflexivity. Qed.

Example engine_precedence :
  engine pow (lit "(8-2*3+10/4)") = Normal (VNumber (of_decimal false 45 (-1))).
Proof. vm_compute. reflexivity. Qed.

Example engine_strict_octal : engine pow (lit "(07)") = Throw SyntaxError.
Proof. reflexivity. Qed.

Example engine_call : engine pow (lit "(1)(2)") = Throw TypeError.
Proof. vm_compute. reflexivity. Qed.

Example engine_unary_base : engine pow (lit "(-2**2)") = Throw SyntaxError.
Proof. vm_compute. reflexivity. Qed.

Example engine_update : engine pow (lit "(1--1)") = Throw SyntaxError.
Proof. vm_compute. reflexivity. Qed.

Example engine_comment : engine pow (lit "(1)//)") = Normal (VNumber (of_Z 1)).
Proof. vm_compute. reflexivity. Qed.

Example engine_regexp :
  engine pow (lit "(/5+3/)") = Normal (VRegExp (lit "5+3")).
Proof. vm_compute. reflexivity. Qed.

Example engine_regexp_flags : engine pow (lit "(/5/2)") = Throw SyntaxError.
Proof. vm_compute. reflexivity. Qed.

Example engine_regexp_concat :
  engine pow (lit "(/1/+1)") = Normal (VString (lit "/1/1")).
Proof. vm_compute. reflexivity. Qed.

(** A leading zero makes the literal an early error in strict code. *)
Example press_zero_seven :
  presses (engine pow) initial [b_digit 0; b_digit 7; b_equals]
  = Normal error_display.
Proof. vm_compute. reflexivity. Qed.

(** The whole of the display is not what a unary key reads. *)
Example press_square_after_comma :
  presses (engine pow) initial [b_digit 2; b_comma; b_digit 5; b_square]
  = Normal (settled_on (lit "4")).
Proof. vm_compute. reflexivity. Qed.

(** A result that needs an exponent cannot be continued. *)
Example press_after_large_result :
  presses (engine pow)
    {| screenNumbers := lit "1e+21"; expression := lit "1e+21";
       previousResult := Some (of_decimal false 1 21) |}
    [b_plus; b_digit 1; b_equals]
  = Normal error_display.
Proof. vm_compute. reflexivity. Qed.

(** The square of a number too large to square: the text ["Error"] in
    both cells, with a result cell that is not empty. *)
Example press_square_overflow :
  presses (engine pow) initial
    (b_digit 1 :: repeat (b_digit 0) 160 ++ [b_square])
  = Normal {| screenNumbers := lit "Error"; expression := lit "Error";
              previousResult := Some NaN |}.
Proof. lazy. reflexivity. Qed.

End Examples.

(** * The claims *)

Section ClaimFacts.

Lemma presses_cons host (st : state) (v : jsstring) (r : list jsstring) :
  presses host st (v :: r)
  = bind (handleButtonClick host st v) (fun st' => presses host st' r).
Proof. reflexivity. Qed.

Lemma bind_normal {A B} (a : A) (k : A -> completion B) :
  bind (Normal a) k = k a.
Proof. reflexivity. Qed.

Lemma presses_nil host (st : state) : presses host st [] = Normal st.
Proof. reflexivity. Qed.

Lemma arithmetic_only_false (s : jsstring) (c : N) :
  In c s -> is_arithmetic c = false -> arithmetic_only s = false.
Proof.
  intros Hc Ha. unfold arithmetic_only. destruct s as [|x s]; [reflexivity|].
  destruct (forallb is_arithmetic (x :: s)) eqn:E; [|reflexivity].
  rewrite forallb_forall in E. rewrite (E c Hc) in Ha. discriminate.
Qed.

Lemma safeEval_rejects host (e : jsstring) :
  (exists c, In c (sanitize e) /\ is_arithmetic c = false) ->
  safeEval host e = VNumber NaN.
Proof.
  intros (c & Hc & Ha). unfold safeEval.
  now rewrite (arithmetic_only_false _ _ Hc Ha).
Qed.

Lemma sanitize_nil_iff (e : jsstring) : sanitize e = [] -> e = [].
Proof.
  unfold sanitize, replace_all. intros H.
  repeat (apply map_eq_nil in H). exact H.
Qed.

Lemma no_space_trim (e : jsstring) :
  no_space e = true -> e <> [] -> trim e <> [].
Proof.
  intros Hs Hn. destruct e as [|c e]; [contradiction|].
  assert (Hc : is_space c = false).
  { unfold no_space in Hs. simpl in Hs. apply andb_true_iff in Hs as [Hs _].
    now apply negb_true_iff in Hs. }
  intros E. assert (H : In c (trim (c :: e))) by (apply In_trim; [now left|assumption]).
  now rewrite E in H.
Qed.

Lemma trim_keeps (s : jsstring) (c : N) :
  In c s -> is_space c = false -> trim s <> [].
Proof.
  intros Hc Hs E. apply (In_trim _ _ Hc) in Hs. now rewrite E in Hs.
Qed.

Lemma or_zero_snoc (s t : jsstring) : t <> [] -> or_zero (s ++ t) = s ++ t.
Proof.
  intros Ht. destruct (s ++ t) eqn:E; [|reflexivity].
  apply app_eq_nil in E. tauto.
Qed.

Lemma press_binary_after_operator host (s : jsstring) (c : N) (o : binary) :
  is_operator c = true ->
  handleButtonClick host (typed (s ++ [c])) (binary_label o)
  = Normal (typed (s ++ binary_label o)).
Proof.
  intros Hc. rewrite press_binary. simpl.
  now rewrite ends_with_operator_snoc, Hc, removelast_snoc.
Qed.

(** Two operator keys in a row from any state: a base text and the
    second operator. *)
Lemma two_operators host (st : state) (o1 o2 : binary) :
  let base :=
    match st.(previousResult) with
    | Some _ => st.(screenNumbers)
    | None => if ends_with_operator st.(expression)
              then slice_0_m1 st.(expression) else st.(expression)
    end in
  handleButtonClick host st (binary_label o1)
    = Normal (typed (base ++ binary_label o1))
  /\ presses host st [binary_label o1; binary_label o2]
     = Normal (typed (base ++ binary_label o2)).
Proof.
  intros base.
  assert (E1 : handleButtonClick host st (binary_label o1)
               = Normal (typed (base ++ binary_label o1))).
  { rewrite press_binary. subst base. destruct (previousResult st);
      [reflexivity|].
    destruct (ends_with_operator (expression st)); [reflexivity|].
    unfold typed. rewrite or_zero_snoc; [reflexivity|].
    destruct o1; discriminate. }
  split; [exact E1|].
  rewrite presses_cons, E1, bind_normal, presses_cons.
  destruct (binary_label_operator o1) as (c & -> & Hc).
  now rewrite press_binary_after_operator.
Qed.

Lemma all_buttons (vals : list jsstring) :
  forallb (fun v => existsb (JsString.eqb v) buttonValues) vals = true ->
  Forall (fun v => In v buttonValues) vals.
Proof.
  intros H. apply Forall_forall. intros v Hv.
  rewrite forallb_forall in H. specialize (H v Hv).
  apply existsb_exists in H as (b & Hb & E).
  apply jsstring_eqb_eq in E. now subst.
Qed.

End ClaimFacts.

(** C6.  From every state the clear-all key [C] leaves exactly the
    initial state (empty expression, display ["0"], no result), and the
    clear-entry key [CE] does the same; so clearing twice is clearing
    once, and what [C] leaves does not depend on the state it is
    pressed in. *)
Theorem clear_resets (host : jsstring -> completion value) (st : state) :
  handleButtonClick host st b_C = Normal initial
  /\ handleButtonClick host st b_CE = Normal initial
  /\ initial = {| screenNumbers := lit "0"; expression := [];
                  previousResult := None |}
  /\ presses host st [b_C; b_C] = presses host st [b_C]
  /\ (forall st2, handleButtonClick host st2 b_C
                  = handleButtonClick host st b_C).
Proof.
  split; [apply press_C|]. split; [apply press_CE|].
  split; [reflexivity|]. split.
  - now rewrite !presses_cons, !press_C, !bind_normal, presses_cons, press_C.
  - intros st2. now rewrite !press_C.
Qed.

(** C9.  In the error display (display ["Error"], empty expression, no
    result) a digit key leaves that digit alone as expression and as
    display, and [C] and [CE] leave the initial state.  The display is
    the only place a failure shows: on the evaluator of [JsEngine] every
    press of a button, in every state, returns a state and throws
    nothing. *)
Theorem error_display_recovers
    (Number_exponentiate : number -> number -> number)
    (host : jsstring -> completion value) :
  error_display = {| screenNumbers := lit "Error"; expression := [];
                     previousResult := None |}
  /\ (forall d, In d digit_values ->
        handleButtonClick host error_display (b_digit d)
        = Normal {| screenNumbers := b_digit d; expression := b_digit d;
                    previousResult := None |})
  /\ handleButtonClick host error_display b_C = Normal initial
  /\ handleButtonClick host error_display b_CE = Normal initial
  /\ (forall st val, In val buttonValues ->
        exists st',
          handleButtonClick (engine Number_exponentiate) st val = Normal st').
Proof.
  split; [reflexivity|]. split.
  { intros d Hd. now rewrite press_digit. }
  split; [apply press_C|]. split; [apply press_CE|].
  intros st val Hval. now apply handler_returns.
Qed.

(** C3.  When [=] is pressed on an expression that is not blank and its
    evaluation fails (the value is NaN or not finite, as for a division
    by zero, or the evaluator threw, as for a malformed expression),
    the next state is the error display: display ["Error"], empty
    expression, no result.  A throw of the evaluator is caught in
    [safeEval], and on the evaluator of [JsEngine] the press returns a
    state from every state.  The keys 5, ÷, 0, = from the initial state
    end in the error display. *)
Theorem evaluate_failure_shows_error
    (Number_exponentiate : number -> number -> number) :
  (forall host st,
      trim st.(expression) <> [] ->
      failed (safeEval host st.(expression)) = true ->
      handleButtonClick host st b_equals
      = Normal {| screenNumbers := lit "Error"; expression := [];
                  previousResult := None |})
  /\ (forall host e err,
        host ([c_lparen] ++ sanitize e ++ [c_rparen]) = Throw err ->
        failed (safeEval host e) = true)
  /\ (forall st, exists st',
        handleButtonClick (engine Number_exponentiate) st b_equals
        = Normal st')
  /\ safeEval (engine Number_exponentiate)
       (b_digit 5 ++ b_divide ++ b_digit 0) = VNumber (S754_infinity false)
  /\ presses (engine Number_exponentiate) initial
       [b_digit 5; b_divide; b_digit 0; b_equals]
     = Normal {| screenNumbers := lit "Error"; expression := [];
                 previousResult := None |}.
Proof.
  split.
  { intros host st Ht Hf. rewrite press_equals.
    destruct (trim (expression st)); [contradiction|].
    cbv zeta. now rewrite Hf. }
  split.
  { intros host e err H. unfold safeEval.
    destruct (negb (arithmetic_only (sanitize e))); [reflexivity|].
    now rewrite H. }
  split.
  { intros st. apply handler_returns. unfold buttonValues.
    repeat (first [now left | right]). }
  split; vm_compute; reflexivity.
Qed.

(** C4.  The unary keys do not work on the number the display shows.
    The handler reads the display with [parseFloat], which stops at the
    decimal comma, where [safeEval] reads the same text with the comma
    as the decimal point.  After the keys 2, comma, 5 the display shows
    ["2,5"], which [safeEval] reads as 2.5, a number whose square is
    defined and prints as ["6.25"]; the square key shows ["4"].  After
    0, comma, 5 the display shows ["0,5"], which [safeEval] reads as
    0.5, a number whose reciprocal is defined and prints as ["2"]; the
    reciprocal key leaves the error display.  And the result cell does
    not hold the number computed but the one its formatted text
    denotes: after 3 and the reciprocal key it holds 0.33333333, which
    is not the quotient of 1 and 3. *)
Theorem unary_keys_misread_the_display
    (Number_exponentiate : number -> number -> number) :
  let two_and_a_half := {| whole := lit "2"; fraction := Some (lit "5") |} in
  let a_half := {| whole := lit "0"; fraction := Some (lit "5") |} in
  (presses (engine Number_exponentiate) initial
     [b_digit 2; b_comma; b_digit 5]
   = Normal (typed (lit "2,5"))
   /\ safeEval (engine Number_exponentiate) (lit "2,5")
      = VNumber (numeral_value two_and_a_half)
   /\ domain_failure Square (numeral_value two_and_a_half) = false
   /\ formatNumber (unary_apply Square (numeral_value two_and_a_half))
      = lit "6.25"
   /\ handleButtonClick (engine Number_exponentiate) (typed (lit "2,5"))
        b_square
      = Normal {| screenNumbers := lit "4"; expression := lit "4";
                  previousResult := Some (of_Z 4) |})
  /\ (presses (engine Number_exponentiate) initial
        [b_digit 0; b_comma; b_digit 5]
      = Normal (typed (lit "0,5"))
      /\ safeEval (engine Number_exponentiate) (lit "0,5")
         = VNumber (numeral_value a_half)
      /\ domain_failure Reciprocal (numeral_value a_half) = false
      /\ formatNumber (unary_apply Reciprocal (numeral_value a_half))
         = lit "2"
      /\ handleButtonClick (engine Number_exponentiate) (typed (lit "0,5"))
           b_reciprocal
         = Normal {| screenNumbers := lit "Error"; expression := [];
                     previousResult := None |})
  /\ (presses (engine Number_exponentiate) initial
        [b_digit 3; b_reciprocal]
      = Normal {| screenNumbers := lit "0.33333333";
                  expression := lit "0.33333333";
                  previousResult := Some (of_decimal false 33333333 (-8)) |}
      /\ of_decimal false 33333333 (-8) <> unary_apply Reciprocal (of_Z 3)).
Proof.
  intros two_and_a_half a_half.
  split; [|split].
  - repeat split; vm_compute; reflexivity.
  - repeat split; vm_compute; reflexivity.
  - split; [vm_compute; reflexivity|].
    vm_compute. discriminate.
Qed.

(** C1.  When the expression, translated to arithmetic form (÷ to /,
    × to *, the comma to the point), holds a character outside
    [0-9+-*/.() ], [safeEval] answers NaN whatever the evaluator it is
    given would do: the guard rejects before any text reaches the
    evaluator.  In every state the calculator can reach, [=] on such an
    expression leaves the error display and throws nothing. *)
Theorem guard_rejects_foreign_characters
    (Number_exponentiate : number -> number -> number) :
  (forall host host' e,
      (exists c, In c (sanitize e) /\ is_arithmetic c = false) ->
      safeEval host e = VNumber NaN /\ safeEval host e = safeEval host' e)
  /\ (forall st,
        reachable Number_exponentiate st ->
        (exists c, In c (sanitize st.(expression))
                   /\ is_arithmetic c = false) ->
        handleButtonClick (engine Number_exponentiate) st b_equals
        = Normal {| screenNumbers := lit "Error"; expression := [];
                    previousResult := None |}).
Proof.
  split.
  { intros host host' e H. now rewrite !safeEval_rejects. }
  intros st Hr H.
  apply reachable_invariant in Hr as (_ & (Hs & _) & _).
  rewrite equals_engine.
  - now rewrite safeEval_rejects.
  - apply no_space_trim; [assumption|].
    destruct H as (c & Hc & _). intros E. rewrite E in Hc. exact Hc.
Qed.

(** C2.  The keys 2, +, 3, ×, 4, = from the initial state show ["14"].
    The evaluator reads three numbers with two of the four operators
    between them with the standard precedence (× and ÷ before + and -)
    and from left to right where the two operators have the same
    precedence.  So for any three digits and any two operators between
    them, [=] shows that value: the formatted number, or the error
    display when the value is not a finite number. *)
Theorem evaluation_follows_precedence
    (Number_exponentiate : number -> number -> number) :
  presses (engine Number_exponentiate) initial
    [b_digit 2; b_plus; b_digit 3; b_times; b_digit 4; b_equals]
  = Normal {| screenNumbers := lit "14"; expression := lit "14";
              previousResult := Some (of_Z 14) |}
  /\ (forall x y z o1 o2,
        option_map (eval Number_exponentiate)
          (parse [TLParen; TNum x; binary_token o1; TNum y;
                  binary_token o2; TNum z; TRParen])
        = Some (Normal (VNumber (standard o1 o2 x y z))))
  /\ (forall d1 d2 d3 o1 o2,
        In d1 digit_values -> In d2 digit_values -> In d3 digit_values ->
        presses (engine Number_exponentiate) initial
          [b_digit d1; binary_label o1; b_digit d2; binary_label o2;
           b_digit d3; b_equals]
        = Normal (shown (standard o1 o2 (of_Z d1) (of_Z d2) (of_Z d3)))).
Proof.
  split; [vm_compute; reflexivity|].
  split; [intros x y z [] []; reflexivity|].
  intros d1 d2 d3 o1 o2 H1 H2 H3.
  rewrite presses_cons, typing_first_digit, bind_normal by assumption.
  rewrite presses_cons, typing_operator, bind_normal;
    [|discriminate | apply (ends_with_digit [] H1)].
  rewrite presses_cons, typing_digit, bind_normal;
    [|assumption | apply snoc_not_nil; destruct o1; discriminate].
  rewrite presses_cons, typing_operator, bind_normal;
    [|apply snoc_not_nil; discriminate | now apply ends_with_digit].
  rewrite presses_cons, typing_digit, bind_normal;
    [|assumption | apply snoc_not_nil; destruct o2; discriminate].
  rewrite presses_cons, equals_engine, bind_normal, presses_nil.
  2:{ apply trim_keeps with (c := digit_char d1);
        [|now apply b_digit_no_space].
      simpl expression. repeat (apply in_or_app; left). now left. }
  pose proof (reads_standard_spec Number_exponentiate o1 o2 H1 H2 H3) as R.
  unfold reads_standard in R.
  simpl expression. rewrite <- !app_assoc.
  destruct (safeEval _ _) as [x| |]; try discriminate.
  apply SameValue_eq in R. now subst x.
Qed.

(** C5.  The display is never empty.  It is ["0"] in the initial state,
    and whatever buttons are pressed from there, every press returns a
    state and the display of the last one is not empty; indeed a press
    in any state whose display is not empty leaves a display that is
    not empty.  Backspace on an expression of at most one character
    leaves display ["0"], from every state. *)
Theorem display_never_empty
    (Number_exponentiate : number -> number -> number) :
  screenNumbers initial = lit "0"
  /\ (forall vals,
        Forall (fun v => In v buttonValues) vals ->
        exists st,
          presses (engine Number_exponentiate) initial vals = Normal st
          /\ screenNumbers st <> [])
  /\ (forall st val,
        In val buttonValues -> screenNumbers st <> [] ->
        exists st',
          handleButtonClick (engine Number_exponentiate) st val = Normal st'
          /\ screenNumbers st' <> [])
  /\ (forall host st,
        (length st.(expression) <= 1)%nat ->
        exists st',
          handleButtonClick host st b_backspace = Normal st'
          /\ screenNumbers st' = lit "0").
Proof.
  split; [reflexivity|]. split.
  - intros vals Hv.
    destruct (invariant_presses Number_exponentiate Hv invariant_initial)
      as (st & E & H & _).
    eauto.
  - split; [intros st val; apply display_step|].
    intros host st Hl. rewrite press_backspace.
    destruct (previousResult st); [eexists; split; reflexivity|].
    apply Nat.leb_le in Hl. rewrite Hl. eexists; split; reflexivity.
Qed.

(** C7.  In a state with no result shown whose expression ends in a
    binary operator, a binary operator key replaces that operator: the
    expression and the display become the expression without its last
    character followed by the new operator.  Two operator keys in a
    row, from any state, leave what the second one alone leaves; and
    from a state the calculator can reach they leave an expression that
    ends in the second operator with no operator before it. *)
Theorem operator_replaces_operator
    (Number_exponentiate : number -> number -> number) :
  (forall host st o,
      st.(previousResult) = None ->
      ends_with_operator st.(expression) = true ->
      handleButtonClick host st (binary_label o)
      = Normal {| screenNumbers := slice_0_m1 st.(expression) ++ binary_label o;
                  expression := slice_0_m1 st.(expression) ++ binary_label o;
                  previousResult := None |})
  /\ (forall host st o1 o2,
        presses host st [binary_label o1; binary_label o2]
        = presses host st [binary_label o2])
  /\ (forall st o1 o2,
        reachable Number_exponentiate st ->
        exists base,
          presses (engine Number_exponentiate) st
            [binary_label o1; binary_label o2]
          = Normal {| screenNumbers := base ++ binary_label o2;
                      expression := base ++ binary_label o2;
                      previousResult := None |}
          /\ ends_with_operator base = false).
Proof.
  split.
  { intros host st o Hp He. rewrite press_binary, Hp, He. reflexivity. }
  split.
  { intros host st o1 o2.
    destruct (two_operators host st o1 o2) as [_ ->].
    destruct (two_operators host st o2 o2) as [E _].
    now rewrite presses_cons, E, bind_normal. }
  intros st o1 o2 Hr.
  apply reachable_invariant in Hr as (_ & Ht & Hres).
  destruct (two_operators (engine Number_exponentiate) st o1 o2) as [_ E].
  eexists; split; [exact E|].
  destruct (previousResult st).
  - destruct Hres as [<- (_ & _ & _ & H)]; [discriminate | exact H].
  - destruct (ends_with_operator (expression st)) eqn:Ee; [|exact Ee].
    now apply removelast_not_ends.
Qed.


(** C10.  While a result is shown, expression and display are the same
    text.  That holds in the initial state and every press of a button
    keeps it; more, from any state a press either changes nothing, or
    leaves no result, or leaves one formatted number as expression and
    as display.  So it holds in every state the calculator can reach. *)
Theorem result_alignment
    (Number_exponentiate : number -> number -> number) :
  aligned initial
  /\ (forall st val,
        In val buttonValues -> aligned st ->
        exists st',
          handleButtonClick (engine Number_exponentiate) st val = Normal st'
          /\ aligned st')
  /\ (forall st val,
        In val buttonValues ->
        exists st',
          handleButtonClick (engine Number_exponentiate) st val = Normal st'
          /\ (st' = st
              \/ previousResult st' = None
              \/ exists y, expression st' = formatNumber y
                           /\ screenNumbers st' = formatNumber y))
  /\ (forall st,
        reachable Number_exponentiate st ->
        previousResult st <> None -> expression st = screenNumbers st).
Proof.
  split; [intros H; now contradiction H|].
  split.
  { intros st val Hv Ha.
    destruct (step_outcome Number_exponentiate st Hv)
      as (st' & E & [->|[Hn|(y & x & ->)]]);
      eexists; (split; [exact E|]); try assumption.
    - intros H. now contradiction H.
    - intros _. reflexivity. }
  split.
  { intros st val Hv.
    destruct (step_outcome Number_exponentiate st Hv)
      as (st' & E & [->|[Hn|(y & x & ->)]]);
      eexists; (split; [exact E|]).
    - now left.
    - right; left; exact Hn.
    - right; right. exists y. split; reflexivity. }
  intros st Hr Hp. apply reachable_invariant in Hr as (_ & _ & Hres).
  now apply Hres.
Qed.

(** * Further properties

    Properties of the helpers, the handler and the keyboard listener
    beyond the claims. *)

(** ** Runs of presses, the translation, the key map *)

Section MoreFacts.

Lemma presses_app host (st : state) (a b : list jsstring) :
  presses host st (a ++ b)
  = bind (presses host st a) (fun st' => presses host st' b).
Proof.
  revert st; induction a as [|v a IH]; intros st; [reflexivity|].
  simpl. destruct (handleButtonClick host st v); simpl; [apply IH | reflexivity].
Qed.

Lemma reachable_initial pow : reachable pow initial.
Proof. exists []. split; [constructor | reflexivity]. Qed.

Lemma reachable_step pow (st st' : state) (val : jsstring) :
  reachable pow st -> In val buttonValues ->
  handleButtonClick (engine pow) st val = Normal st' ->
  reachable pow st'.
Proof.
  intros (vals & Hv & E) Hval Hs. exists (vals ++ [val]). split.
  - apply Forall_app. split; [assumption | now constructor].
  - rewrite presses_app, E. simpl. now rewrite Hs.
Qed.

Lemma sanitize_char (c : N) :
  let f x := if N.eqb x c_comma then c_dot else x in
  let g x := if N.eqb x c_times then c_star else x in
  let h x := if N.eqb x c_divide then c_slash else x in
  f (g (h (f (g (h c))))) = f (g (h c)).
Proof.
  cbv zeta.
  destruct (N.eqb_spec c c_divide) as [->|Hd]; [reflexivity|].
  destruct (N.eqb_spec c c_times) as [->|Ht]; [reflexivity|].
  destruct (N.eqb_spec c c_comma) as [->|Hc]; [reflexivity|].
  apply N.eqb_neq in Hd, Ht, Hc.
  repeat (rewrite ?Hd, ?Ht, ?Hc; cbv iota). reflexivity.
Qed.

Lemma sanitize_idempotent (e : jsstring) : sanitize (sanitize e) = sanitize e.
Proof.
  unfold sanitize, replace_all. rewrite !map_map. apply map_ext.
  intros c. apply sanitize_char.
Qed.

Lemma sanitize_clean (e : jsstring) (c : N) :
  In c (sanitize e) -> c <> c_divide /\ c <> c_times /\ c <> c_comma.
Proof.
  unfold sanitize, replace_all. rewrite !map_map. intros H.
  apply in_map_iff in H as (x & <- & _).
  destruct (N.eqb_spec x c_divide) as [->|Hd];
    [repeat split; discriminate|].
  destruct (N.eqb_spec x c_times) as [->|Ht];
    [repeat split; discriminate|].
  destruct (N.eqb_spec x c_comma) as [->|Hc];
    [repeat split; discriminate|].
  auto.
Qed.

Lemma lookup_In {A} (k : jsstring) (l : list (jsstring * A)) (a : A) :
  lookup k l = Some a -> In (k, a) l.
Proof.
  induction l as [|[k' a'] l IH]; simpl; [discriminate|].
  destruct (JsString.eqb k k') eqn:E.
  - intros [= ->]. apply jsstring_eqb_eq in E. subst. now left.
  - intros H. right. now apply IH.
Qed.

Lemma keyMap_buttons (key val : jsstring) :
  lookup key keyMap = Some val -> In val buttonValues /\ val <> [].
Proof.
  intros H. apply lookup_In in H.
  assert (Hall : Forall (fun v => In v buttonValues) (map snd keyMap))
    by (apply all_buttons; reflexivity).
  rewrite Forall_forall in Hall. split.
  - apply Hall. now apply (in_map snd) in H.
  - simpl in H.
    repeat (destruct H as [[= _ <-]|H]; [discriminate|]). contradiction.
Qed.

Lemma digit_button (c : N) : is_digit c = true -> In [c] buttonValues.
Proof.
  intros H. apply is_digit_cases in H.
  simpl. unfold b_digit, digit_char. simpl.
  repeat (destruct H as [->|H]; [tauto|]). subst. tauto.
Qed.

End MoreFacts.

(** ** What the presses do to the state *)

Section StateFacts.

Lemma or_zero_id (s : jsstring) : s <> [] -> or_zero s = s.
Proof. destruct s; [contradiction | reflexivity]. Qed.

Lemma mirrors_typed (s : jsstring) : s <> [] -> mirrors (typed s).
Proof. intros H. right. simpl. now rewrite or_zero_id. Qed.

Lemma mirrors_shown (x : number) : mirrors (shown x).
Proof.
  unfold shown. destruct (isNaN x || negb (isFinite x)); [now left|].
  right. simpl. symmetry. apply or_zero_id, formatNumber_settled.
Qed.

Lemma mirrors_step pow (st : state) (val : jsstring) :
  In val buttonValues ->
  exists st', handleButtonClick (engine pow) st val = Normal st'
              /\ (st' = st \/ mirrors st').
Proof.
  intros Hval.
  apply button_cases in Hval
    as [->|[->|[->|[->|[->|[(u & ->)|[(d & Hd & ->)|(o & ->)]]]]]]].
  - rewrite press_C. eexists; split; [reflexivity|]. right; now right.
  - rewrite press_CE. eexists; split; [reflexivity|]. right; now right.
  - destruct (trim (expression st)) eqn:E.
    + rewrite press_equals, E. eauto.
    + rewrite equals_engine by (rewrite E; discriminate).
      eexists; split; [reflexivity|]. right. apply mirrors_shown.
  - rewrite press_backspace. destruct (previousResult st).
    { eexists; split; [reflexivity|]. right; now right. }
    destruct (length (expression st) <=? 1)%nat;
      (eexists; split; [reflexivity|]); right; now right.
  - rewrite press_comma. destruct (previousResult st).
    { eexists; split; [reflexivity|]. right. now apply mirrors_typed. }
    destruct (includes c_comma _); [eauto|].
    destruct (is_empty _ || ends_with_operator _);
      (eexists; split; [reflexivity|]); right;
      apply mirrors_typed, snoc_not_nil; discriminate.
  - rewrite press_unary. cbv zeta. destruct (domain_failure u _).
    + eexists; split; [reflexivity|]. right; now left.
    + eexists; split; [reflexivity|]. right; right. simpl.
      symmetry. apply or_zero_id, formatNumber_settled.
  - rewrite press_digit by assumption.
    assert (Hn : b_digit d <> []) by discriminate.
    destruct (previousResult st).
    { eexists; split; [reflexivity|]. right. now apply mirrors_typed. }
    destruct (expression st).
    { eexists; split; [reflexivity|]. right. now apply mirrors_typed. }
    eexists; split; [reflexivity|]. right. apply mirrors_typed. discriminate.
  - rewrite press_binary.
    assert (Ho : binary_label o <> []) by (destruct o; discriminate).
    destruct (previousResult st).
    { eexists; split; [reflexivity|]. right.
      now apply mirrors_typed, snoc_not_nil. }
    destruct (ends_with_operator (expression st));
      (eexists; split; [reflexivity|]); right.
    + now apply mirrors_typed, snoc_not_nil.
    + now right.
Qed.

Lemma mirrors_presses pow (vals : list jsstring) (st : state) :
  Forall (fun v => In v buttonValues) vals -> mirrors st ->
  exists st', presses (engine pow) st vals = Normal st' /\ mirrors st'.
Proof.
  intros H; revert st; induction H as [|v vals Hv _ IH]; intros st Hst.
  - exists st; split; [reflexivity | assumption].
  - destruct (mirrors_step pow st Hv) as (st1 & E1 & H1).
    assert (Hm : mirrors st1) by (destruct H1 as [->|H1]; assumption).
    destruct (IH _ Hm) as (st2 & E2 & H2).
    exists st2. split; [|assumption]. simpl. rewrite E1. exact E2.
Qed.

Lemma backspace_initial host : handleButtonClick host initial b_backspace = Normal initial.
Proof. reflexivity. Qed.

Lemma backspaces_initial host (n : nat) :
  presses host initial (repeat b_backspace n) = Normal initial.
Proof. induction n as [|n IH]; [reflexivity|]. simpl repeat. rewrite presses_cons, backspace_initial. exact IH. Qed.

Lemma length_removelast (s : jsstring) :
  length (removelast s) = Nat.pred (length s).
Proof.
  destruct s as [|c s] using rev_ind; [reflexivity|].
  rewrite removelast_snoc, length_app. simpl. lia.
Qed.

Lemma long_snoc (s : jsstring) (c : N) :
  s <> [] -> (length (s ++ [c]) <=? 1)%nat = false.
Proof.
  intros H. apply Nat.leb_gt. rewrite length_app. simpl.
  destruct s; [contradiction | simpl; lia].
Qed.

Lemma presses_one host (st : state) (v : jsstring) :
  presses host st [v] = handleButtonClick host st v.
Proof. simpl. now destruct (handleButtonClick host st v). Qed.

Lemma backspace_typed host (s : jsstring) (c : N) :
  handleButtonClick host (typed (s ++ [c])) b_backspace
  = Normal {| screenNumbers := or_zero s; expression := s;
              previousResult := None |}.
Proof.
  rewrite press_backspace. cbn [typed previousResult expression].
  unfold slice_0_m1. rewrite removelast_snoc.
  destruct s as [|x s]; [reflexivity|].
  now rewrite long_snoc by discriminate.
Qed.

Lemma backspace_undoes_digit host (st : state) (d : Z) :
  previousResult st = None ->
  screenNumbers st = or_zero (expression st) ->
  In d digit_values ->
  presses host st [b_digit d; b_backspace] = Normal st.
Proof.
  intros Hp Hs Hd. rewrite presses_cons, press_digit, Hp by assumption.
  transitivity (bind (Normal (typed (expression st ++ b_digit d)))
                  (fun st' => presses host st' [b_backspace])).
  { now destruct (expression st). }
  rewrite bind_normal, presses_one. unfold b_digit.
  rewrite backspace_typed, <- Hs, <- Hp. now destruct st.
Qed.

Lemma backspace_undoes_operator host (st : state) (o : binary) :
  previousResult st = None ->
  screenNumbers st = or_zero (expression st) ->
  ends_with_operator (expression st) = false ->
  presses host st [binary_label o; b_backspace] = Normal st.
Proof.
  intros Hp Hs He.
  rewrite presses_cons, (proj1 (two_operators host st o o)), Hp, He.
  rewrite bind_normal, presses_one.
  destruct (binary_label_operator o) as (c & -> & Hc).
  rewrite backspace_typed, <- Hs, <- Hp. now destruct st.
Qed.

End StateFacts.

(** ** The keyboard listener *)

Section KeyFacts.

Lemma lt_string_nil (a : jsstring) : lt_string a [] = false.
Proof. now destruct a. Qed.

(** [key >= "0" && key <= "9"] looks at the first code unit and, for a
    [9], at whether anything follows. *)
Lemma digit_range (c : N) (r : jsstring) :
  ge_string (c :: r) (lit "0") && le_string (c :: r) (lit "9")
  = is_digit c && (negb (N.eqb c 57) || is_empty r).
Proof.
  unfold ge_string, le_string, is_digit.
  change (lit "0") with [48%N]. change (lit "9") with [57%N].
  cbn [lt_string]. rewrite lt_string_nil.
  destruct (N.ltb_spec c 48), (N.ltb_spec 48 c), (N.ltb_spec 57 c),
    (N.ltb_spec c 57), (N.leb_spec 48 c), (N.leb_spec c 57),
    (N.eqb_spec c 57); try lia; try reflexivity; now destruct r.
Qed.

Lemma keyMap_at_own (key val : jsstring) :
  lookup key keyMap = Some val ->
  exists c r, val = c :: r /\ keyMap_at key = Own (c :: r).
Proof.
  intros H. unfold keyMap_at. rewrite H.
  apply keyMap_buttons in H as [_ Hn].
  destruct val as [|c r]; [contradiction|]. now exists c, r.
Qed.

(** A key of [keyMap] presses the button the map gives. *)
Lemma keydown_mapped host click (st : state) (key val : jsstring) :
  lookup key keyMap = Some val ->
  In val buttonValues
  /\ handleKeyDown host click st key
     = {| prevented := true; next := handleButtonClick host st val |}.
Proof.
  intros E. split; [apply (keyMap_buttons _ E)|].
  destruct (keyMap_at_own _ E) as (c & r & -> & Ea).
  unfold handleKeyDown. rewrite Ea. cbn [truthy].
  now rewrite orb_true_r.
Qed.


(** Any other key is taken when it lies between ["0"] and ["9"], and
    then passed on as it is. *)
Lemma keydown_other host click (st : state) (key : jsstring) :
  lookup key keyMap = None ->
  existsb (JsString.eqb key) inherited_names = false ->
  handleKeyDown host click st key
  = if ge_string key (lit "0") && le_string key (lit "9")
    then {| prevented := true; next := handleButtonClick host st key |}
    else {| prevented := false; next := Normal st |}.
Proof.
  intros E Hi. unfold handleKeyDown, keyMap_at. rewrite E, Hi.
  cbn [truthy]. now rewrite orb_false_r.
Qed.


Lemma digit_range_single (key : jsstring) :
  (length key =? 1)%nat || negb (starts_with_digit key) = true ->
  ge_string key (lit "0") && le_string key (lit "9")
  = (length key =? 1)%nat && starts_with_digit key.
Proof.
  destruct key as [|c r]; [reflexivity|].
  rewrite digit_range. cbn [starts_with_digit length].
  destruct r as [|c' r].
  - intros _. cbn [is_empty Nat.eqb andb].
    now rewrite orb_true_r, andb_true_r.
  - cbn [Nat.eqb orb andb]. intros H. apply negb_true_iff in H.
    now rewrite H.
Qed.

Lemma keydown_returns pow click (st : state) (key : jsstring) :
  event_key key = true -> reachable pow st ->
  exists st', next (handleKeyDown (engine pow) click st key) = Normal st'
              /\ reachable pow st'.
Proof.
  unfold event_key. rewrite andb_true_iff, negb_true_iff.
  intros [Hi Hk] Hr.
  destruct (lookup key keyMap) as [val|] eqn:E.
  - destruct (@keydown_mapped (engine pow) click st key val E) as [Hv ->].
    cbn [next]. destruct (handler_returns pow st Hv) as (st' & E').
    exists st'. split; [assumption | now apply (reachable_step Hr Hv)].
  - rewrite (@keydown_other (engine pow) click st key E Hi).
    rewrite (digit_range_single _ Hk).
    destruct ((length key =? 1)%nat && starts_with_digit key) eqn:Ed.
    + assert (Hv : In key buttonValues).
      { destruct key as [|c [|c' r]]; try discriminate.
        now apply digit_button. }
      cbn [next]. destruct (handler_returns pow st Hv) as (st' & E').
      exists st'. split; [assumption | now apply (reachable_step Hr Hv)].
    + exists st. now split.
Qed.

Lemma keydowns_reachable pow click (keys : list jsstring) (st : state) :
  Forall (fun k => event_key k = true) keys -> reachable pow st ->
  exists st', keydowns (engine pow) click st keys = Normal st'
              /\ reachable pow st'.
Proof.
  intros H; revert st; induction H as [|k keys Hk _ IH]; intros st Hst.
  - exists st; split; [reflexivity | assumption].
  - destruct (@keydown_returns pow click st k Hk Hst) as (st1 & E1 & H1).
    destruct (IH _ H1) as (st2 & E2 & H2).
    exists st2. split; [|assumption]. simpl. rewrite E1. exact E2.
Qed.

End KeyFacts.

(** ** Reading numerals and formulas *)

Section Reading.

Lemma span_digits_run (ds r : jsstring) (c : N) :
  forallb is_digit ds = true -> is_digit c = false ->
  span_digits (ds ++ c :: r) = (ds, c :: r).
Proof.
  intros Hd Hc. induction ds as [|d ds IH]; simpl.
  - now rewrite Hc.
  - simpl in Hd. apply andb_true_iff in Hd as [H1 H2].
    now rewrite H1, IH.
Qed.

Lemma span_digits_cons (d : N) (s : jsstring) :
  is_digit d = true ->
  span_digits (d :: s) = (d :: fst (span_digits s), snd (span_digits s)).
Proof. intros H. simpl. rewrite H. now destruct (span_digits s). Qed.

Lemma sanitize_app (s t : jsstring) :
  sanitize (s ++ t) = sanitize s ++ sanitize t.
Proof. unfold sanitize, replace_all. now rewrite !map_app. Qed.

Lemma sanitize_cons (c : N) (s : jsstring) :
  sanitize (c :: s) = sanitize [c] ++ sanitize s.
Proof. reflexivity. Qed.

Lemma sanitize_digit (c : N) : is_digit c = true -> sanitize [c] = [c].
Proof.
  intros H. apply is_digit_cases in H. simpl in H.
  repeat (destruct H as [<-|H]; [reflexivity|]). contradiction.
Qed.

Lemma sanitize_digits (ds : jsstring) :
  forallb is_digit ds = true -> sanitize ds = ds.
Proof.
  induction ds as [|d ds IH]; [reflexivity|]. simpl forallb.
  rewrite andb_true_iff. intros [H1 H2].
  rewrite sanitize_cons, sanitize_digit, IH by assumption. reflexivity.
Qed.

Lemma digit_facts (c : N) :
  is_digit c = true ->
  N.eqb c c_space = false /\ is_arithmetic c = true
  /\ is_space c = false /\ is_operator c = false /\ N.eqb c c_comma = false.
Proof.
  intros H. apply is_digit_cases in H. simpl in H.
  repeat (destruct H as [<-|H]; [repeat split; reflexivity|]). contradiction.
Qed.

Lemma valid_numeral_parts (n : numeral) :
  valid_numeral n = true ->
  forallb is_digit (whole n) = true
  /\ (exists d w, whole n = d :: w /\ is_digit d = true
                  /\ (w = [] \/ N.eqb d c_0 = false))
  /\ forallb is_digit (fraction_digits n) = true.
Proof.
  unfold valid_numeral. rewrite !andb_true_iff. intros [[H1 H2] H3].
  repeat split; try assumption.
  destruct (whole n) as [|d w]; [discriminate|].
  exists d, w. simpl in H1. apply andb_true_iff in H1 as [Hd _].
  repeat split; try assumption.
  destruct w; [now left | right]. now apply negb_true_iff.
Qed.

(** The numeral as [safeEval] hands it on. *)
Lemma sanitize_numeral (n : numeral) :
  valid_numeral n = true ->
  sanitize (numeral_text n)
  = whole n ++ match fraction n with
               | Some f => c_dot :: f
               | None => []
               end.
Proof.
  intros H. apply valid_numeral_parts in H as (Hw & _ & Hf).
  unfold numeral_text, fraction_digits in *.
  rewrite sanitize_app, (@sanitize_digits _ Hw).
  destruct (fraction n) as [f|]; [|reflexivity].
  rewrite sanitize_cons, (@sanitize_digits _ Hf). reflexivity.
Qed.

Lemma scan_numeral (n : numeral) (c : N) (rest : jsstring) :
  valid_numeral n = true -> is_digit c = false -> N.eqb c c_dot = false ->
  scan_number (sanitize (numeral_text n) ++ c :: rest)
  = Some (TNum (numeral_value n), length (sanitize (numeral_text n))).
Proof.
  intros Hv Hc Hdot. rewrite (@sanitize_numeral n Hv).
  destruct (@valid_numeral_parts n Hv) as (Hw & (d & w & Ew & Hd & Hz) & Hf).
  unfold scan_number, numeral_value, fraction_digits in *.
  destruct (fraction n) as [f|].
  - rewrite <- app_assoc. cbn [app].
    rewrite (@span_digits_run (whole n) _ c_dot Hw) by reflexivity.
    replace (match whole n with
             | z :: _ :: _ => N.eqb z c_0
             | _ => false
             end) with false
      by (rewrite Ew; destruct Hz as [->|Hz]; [reflexivity|];
          destruct w; [reflexivity | now rewrite Hz]).
    change (N.eqb c_dot c_dot) with true. cbv iota.
    rewrite (@span_digits_run f _ c Hf Hc).
    rewrite length_app. cbn [length]. do 2 f_equal. lia.
  - rewrite app_nil_r. rewrite (@span_digits_run (whole n) _ c Hw Hc).
    replace (match whole n with
             | z :: _ :: _ => N.eqb z c_0
             | _ => false
             end) with false
      by (rewrite Ew; destruct Hz as [->|Hz]; [reflexivity|];
          destruct w; [reflexivity | now rewrite Hz]).
    rewrite Hdot. reflexivity.
Qed.

Lemma lex_skip (pre : jsstring) (acc : list token) (s : jsstring) :
  lex (length pre) acc (pre ++ s) = lex 0 acc s.
Proof. induction pre as [|x pre IH]; [reflexivity | exact IH]. Qed.

Lemma lex_token (w rest : jsstring) (acc : list token) (t : token) :
  w <> [] ->
  scan (expects_operand acc) (w ++ rest) = Some (Some t, length w) ->
  lex 0 acc (w ++ rest) = lex 0 (t :: acc) rest.
Proof.
  intros Hw Hs. destruct w as [|x w]; [contradiction|].
  cbn [app lex] in *. rewrite Hs. cbn [length Nat.pred]. apply lex_skip.
Qed.

Lemma numeral_starts (n : numeral) :
  valid_numeral n = true ->
  exists d r, sanitize (numeral_text n) = d :: r /\ is_digit d = true.
Proof.
  intros Hv. rewrite (@sanitize_numeral n Hv).
  destruct (@valid_numeral_parts n Hv) as (_ & (d & w & -> & Hd & _) & _).
  exists d. eexists. split; [reflexivity | assumption].
Qed.

Lemma lex_numeral (n : numeral) (c : N) (rest : jsstring)
    (acc : list token) :
  valid_numeral n = true -> is_digit c = false -> N.eqb c c_dot = false ->
  lex 0 acc (sanitize (numeral_text n) ++ c :: rest)
  = lex 0 (TNum (numeral_value n) :: acc) (c :: rest).
Proof.
  intros Hv Hc Hdot. apply lex_token.
  - destruct (@numeral_starts n Hv) as (d & r & -> & _). discriminate.
  - pose proof (@scan_numeral n c rest Hv Hc Hdot) as Hs.
    destruct (@numeral_starts n Hv) as (d & r & E & Hd).
    rewrite E in *. cbn [app] in *. unfold scan.
    destruct (@digit_facts d Hd) as (-> & _). rewrite Hd, Hs. reflexivity.
Qed.

Lemma lex_operator (o : binary) (d : N) (rest : jsstring) (y : number)
    (acc : list token) :
  is_digit d = true ->
  lex 0 (TNum y :: acc) (sanitize (binary_label o) ++ d :: rest)
  = lex 0 (binary_token o :: TNum y :: acc) (d :: rest).
Proof.
  intros Hd. apply is_digit_cases in Hd. simpl in Hd.
  repeat (destruct Hd as [<-|Hd]; [destruct o; reflexivity|]).
  contradiction.
Qed.


Lemma units_text_cons (o : binary) (n : numeral)
    (us : list (binary * numeral)) :
  units_text ((o, n) :: us)
  = binary_label o ++ numeral_text n ++ units_text us.
Proof. unfold units_text. cbn [flat_map]. now rewrite <- app_assoc. Qed.

(** What follows a numeral in a formula is no digit and no point. *)
Lemma units_head (us : list (binary * numeral)) (c : N) (rest : jsstring) :
  is_digit c = false -> N.eqb c c_dot = false ->
  exists c' r,
    sanitize (units_text us) ++ c :: rest = c' :: r
    /\ is_digit c' = false /\ N.eqb c' c_dot = false.
Proof.
  intros Hc Hdot. destruct us as [|[o n] us].
  - exists c, rest. repeat split; assumption.
  - rewrite units_text_cons, sanitize_app.
    destruct o; eexists; eexists; (split; [reflexivity|]); split; reflexivity.
Qed.

Lemma lex_units (us : list (binary * numeral)) :
  forallb (fun '(_, n) => valid_numeral n) us = true ->
  forall (x : number) (acc : list token) (c : N) (rest : jsstring),
    is_digit c = false -> N.eqb c c_dot = false ->
    lex 0 (TNum x :: acc) (sanitize (units_text us) ++ c :: rest)
    = lex 0 (rev (units_tokens us) ++ TNum x :: acc) (c :: rest).
Proof.
  induction us as [|[o n] us IH]; intros Hv x acc c0 rest Hc0 Hdot0.
  - reflexivity.
  - cbn [forallb] in Hv. apply andb_true_iff in Hv as [Hn Hus].
    rewrite units_text_cons, !sanitize_app, <- !app_assoc.
    destruct (@numeral_starts n Hn) as (d & r & E & Hd).
    destruct (@units_head us c0 rest Hc0 Hdot0) as (c & r' & E' & Hc & Hdot).
    rewrite E. cbn [app]. rewrite (@lex_operator o d _ x acc Hd).
    rewrite app_comm_cons, <- E. rewrite E'.
    rewrite (@lex_numeral n c r' _ Hn Hc Hdot), <- E'.
    rewrite IH by assumption.
    unfold units_tokens. cbn [flat_map app rev].
    rewrite <- !app_assoc. reflexivity.
Qed.

(** The tokens of a formula and what is read next, for a formula
    followed by [c]. *)
Lemma lex_formula (f : formula) (c : N) (rest : jsstring)
    (acc : list token) :
  valid_formula f = true ->
  is_digit c = false -> N.eqb c c_dot = false ->
  lex 0 acc (sanitize (formula_text f) ++ c :: rest)
  = lex 0 (rev (units_tokens (formula_units f))
           ++ TNum (numeral_value (fst (fst f))) :: acc) (c :: rest).
Proof.
  unfold valid_formula. rewrite andb_true_iff. intros [Hn Hus] Hc Hdot.
  unfold formula_text. rewrite sanitize_app, <- app_assoc.
  destruct (@units_head (formula_units f) c rest Hc Hdot)
    as (c' & r & E & Hc' & Hdot').
  rewrite E, (@lex_numeral _ c' r _ Hn Hc' Hdot'), <- E.
  now apply lex_units.
Qed.

(** The tokens of a formula in brackets. *)
Lemma tokens_formula (f : formula) :
  valid_formula f = true ->
  tokens ([c_lparen] ++ sanitize (formula_text f) ++ [c_rparen])
  = Some (TLParen :: TNum (numeral_value (fst (fst f)))
            :: units_tokens (formula_units f) ++ [TRParen]).
Proof.
  intros Hv. unfold tokens. cbn [app].
  change (lex 0 [] (c_lparen :: ?s)) with (lex 0 [TLParen] s).
  rewrite (@lex_formula f c_rparen [] _ Hv) by reflexivity.
  cbn [lex scan]. cbn. rewrite !rev_app_distr, rev_involutive. reflexivity.
Qed.

End Reading.

(** ** Parsing formulas *)

Section Parsing.

Variable pow : number -> number -> number.

(** A numeral in front of an operator or a closing bracket is an
    operand on its own. *)
Lemma operand_parsed (fuel : nat) (x : number) (ts : list token) :
  (exists o r, ts = binary_token o :: r) \/ (exists r, ts = TRParen :: r) ->
  exponentiation (3 + fuel) (TNum x :: ts) = Parsed (ELit x) ts.
Proof.
  intros [(o & r & ->)|(r & ->)]; [destruct o|]; destruct fuel; reflexivity.
Qed.

Lemma units_tokens_app (a b : list (binary * numeral)) :
  units_tokens (a ++ b) = units_tokens a ++ units_tokens b.
Proof. unfold units_tokens. apply flat_map_app. Qed.

Lemma eval_binary (o : binary) (a b : expr) (x y : number) :
  eval pow a = Normal (VNumber x) -> eval pow b = Normal (VNumber y) ->
  eval pow (EBin match o with
                 | Plus => Add | Minus => Sub | Times => Mul | Divide => Div
                 end a b)
  = Normal (VNumber (binary_apply o x y)).
Proof. intros Ha Hb. simpl. rewrite Ha, Hb. now destruct o. Qed.

(** The factors of a product, from left to right. *)
Lemma factors_parsed (fs : list (scaling * numeral)) :
  forall (fuel : nat) (a : expr) (x : number) (tail : list token),
    eval pow a = Normal (VNumber x) ->
    (exists k r, tail = binary_token (summing_binary k) :: r)
    \/ (exists r, tail = TRParen :: r) ->
    (length fs + 3 <= fuel)%nat ->
    exists a',
      multiplicative_rest fuel a
        (units_tokens (map (fun '(k, n) => (scaling_binary k, n)) fs) ++ tail)
      = Parsed a' tail
      /\ eval pow a'
         = Normal (VNumber
             (fold_left (fun acc '(k, n) =>
                           binary_apply (scaling_binary k) acc (numeral_value n))
                fs x)).
Proof.
  induction fs as [|[k n] fs IH]; intros fuel a x tail Ha Ht Hf.
  - exists a. split; [|exact Ha]. cbn [map units_tokens flat_map app].
    destruct Ht as [([] & r & ->)|(r & ->)]; destruct fuel; reflexivity.
  - destruct fuel as [|fuel]; [simpl in Hf; lia|].
    cbn [length] in Hf.
    set (rest := units_tokens (map (fun '(k, n) => (scaling_binary k, n)) fs)
                 ++ tail).
    assert (Hr : (exists o r, rest = binary_token o :: r)
                 \/ (exists r, rest = TRParen :: r)).
    { subst rest. destruct fs as [|[k' n'] fs'].
      - cbn [map units_tokens flat_map app].
        destruct Ht as [(k' & r & ->)|(r & ->)]; [left | right];
          repeat eexists.
      - left. eexists; eexists. reflexivity. }
    assert (E : exponentiation fuel (TNum (numeral_value n) :: rest)
                = Parsed (ELit (numeral_value n)) rest).
    { replace fuel with (3 + (fuel - 3))%nat by lia.
      now apply operand_parsed. }
    destruct (IH fuel
                (EBin match scaling_binary k with
                      | Plus => Add | Minus => Sub
                      | Times => Mul | Divide => Div
                      end a (ELit (numeral_value n)))
                (binary_apply (scaling_binary k) x (numeral_value n)) tail)
      as (a' & Ea & Hv); [now apply eval_binary | assumption | lia |].
    exists a'. split; [|exact Hv].
    cbn [map units_tokens flat_map app]. fold (units_tokens
      (map (fun '(k, n) => (scaling_binary k, n)) fs)). fold rest.
    destruct k; cbn [scaling_binary binary_token multiplicative_rest];
      rewrite E; exact Ea.
Qed.

Lemma product_parsed (p : product) (fuel : nat) (tail : list token) :
  (exists k r, tail = binary_token (summing_binary k) :: r)
  \/ (exists r, tail = TRParen :: r) ->
  (length (snd p) + 4 <= fuel)%nat ->
  exists a,
    multiplicative fuel
      (TNum (numeral_value (fst p)) :: units_tokens (product_units p) ++ tail)
    = Parsed a tail
    /\ eval pow a = Normal (VNumber (product_value p)).
Proof.
  intros Ht Hf. destruct fuel as [|fuel]; [lia|].
  destruct p as [n fs]. unfold product_units, product_value. cbn [fst snd] in *.
  set (rest := units_tokens (map (fun '(k, n) => (scaling_binary k, n)) fs)
               ++ tail).
  assert (Hr : (exists o r, rest = binary_token o :: r)
               \/ (exists r, rest = TRParen :: r)).
  { subst rest. destruct fs as [|[k' n'] fs'].
    - cbn [map units_tokens flat_map app].
      destruct Ht as [(k' & r & ->)|(r & ->)]; [left | right];
        repeat eexists.
    - left. eexists; eexists. reflexivity. }
  assert (E : exponentiation fuel (TNum (numeral_value n) :: rest)
              = Parsed (ELit (numeral_value n)) rest).
  { replace fuel with (3 + (fuel - 3))%nat by lia.
    now apply operand_parsed. }
  cbn [multiplicative]. rewrite E.
  subst rest. apply factors_parsed; [reflexivity | assumption | lia].
Qed.


Lemma terms_tokens_cons (k : summing) (p : product)
    (ts : list (summing * product)) :
  units_tokens
    (flat_map (fun '(k, p) => (summing_binary k, fst p) :: product_units p)
       ((k, p) :: ts))
  = binary_token (summing_binary k) :: TNum (numeral_value (fst p))
    :: units_tokens (product_units p)
    ++ units_tokens
         (flat_map (fun '(k, p) => (summing_binary k, fst p) :: product_units p)
            ts).
Proof. cbn [flat_map]. now rewrite units_tokens_app. Qed.

Lemma units_tokens_length (us : list (binary * numeral)) :
  length (units_tokens us) = (2 * length us)%nat.
Proof.
  induction us as [|[o n] us IH]; [reflexivity|].
  unfold units_tokens in *. cbn [flat_map app length]. rewrite IH. lia.
Qed.

Lemma product_units_length (p : product) :
  length (product_units p) = length (snd p).
Proof. unfold product_units. apply length_map. Qed.

(** The products of a sum, from left to right. *)
Lemma terms_parsed (ts : list (summing * product)) :
  forall (fuel : nat) (a : expr) (x : number) (tail : list token),
    eval pow a = Normal (VNumber x) ->
    (length (units_tokens
               (flat_map (fun '(k, p) =>
                            (summing_binary k, fst p) :: product_units p) ts))
     + 4 <= fuel)%nat ->
    exists a',
      additive_rest fuel a
        (units_tokens
           (flat_map (fun '(k, p) =>
                        (summing_binary k, fst p) :: product_units p) ts)
         ++ TRParen :: tail)
      = Parsed a' (TRParen :: tail)
      /\ eval pow a'
         = Normal (VNumber
             (fold_left (fun acc '(k, p) =>
                           binary_apply (summing_binary k) acc (product_value p))
                ts x)).
Proof.
  induction ts as [|[k p] ts IH]; intros fuel a x tail Ha Hf.
  - exists a. split; [|exact Ha]. destruct fuel; reflexivity.
  - rewrite terms_tokens_cons in Hf |- *.
    cbn [length] in Hf. rewrite length_app, units_tokens_length in Hf.
    rewrite product_units_length in Hf.
    destruct fuel as [|fuel]; [lia|].
    set (rest := units_tokens
                   (flat_map (fun '(k, p) =>
                      (summing_binary k, fst p) :: product_units p) ts)).
    fold rest in Hf.
    destruct (@product_parsed p fuel (rest ++ TRParen :: tail))
      as (b & Eb & Hb).
    { subst rest. destruct ts as [|[k' p'] ts'].
      - right. eexists. reflexivity.
      - left. rewrite terms_tokens_cons. eexists; eexists. reflexivity. }
    { lia. }
    destruct (IH fuel
                (EBin match summing_binary k with
                      | Plus => Add | Minus => Sub
                      | Times => Mul | Divide => Div
                      end a b)
                (binary_apply (summing_binary k) x (product_value p)) tail)
      as (a' & Ea & Hv); [now apply eval_binary | fold rest; lia |].
    exists a'. split; [|exact Hv].
    rewrite <- !app_comm_cons, <- app_assoc.
    destruct k; cbn [summing_binary binary_token additive_rest];
      rewrite Eb; exact Ea.
Qed.

(** A sum: a product and the products after it. *)
Lemma sum_parsed (p : product) (ts : list (summing * product))
    (fuel : nat) (tail : list token) :
  (length (units_tokens (formula_units (p, ts))) + 5 <= fuel)%nat ->
  exists e,
    additive fuel
      (TNum (numeral_value (fst p))
         :: units_tokens (formula_units (p, ts)) ++ TRParen :: tail)
    = Parsed e (TRParen :: tail)
    /\ eval pow e = Normal (VNumber (formula_value (p, ts))).
Proof.
  unfold formula_units, formula_value. cbn [fst snd].
  rewrite units_tokens_app, length_app, units_tokens_length,
    product_units_length, <- app_assoc.
  remember (units_tokens
              (flat_map (fun '(k, p) =>
                 (summing_binary k, fst p) :: product_units p) ts))
    as sums eqn:Es.
  intros Hf. destruct fuel as [|fuel]; [lia|].
  destruct (@product_parsed p fuel (sums ++ TRParen :: tail))
    as (a & Ea & Ha).
  { subst sums. destruct ts as [|[k' p'] ts'].
    - right. eexists. reflexivity.
    - left. rewrite terms_tokens_cons. eexists; eexists. reflexivity. }
  { lia. }
  destruct (@terms_parsed ts fuel a (product_value p) tail Ha)
    as (e & Ee & He).
  { rewrite <- Es. lia. }
  rewrite <- Es in Ee.
  exists e. split; [|exact He].
  cbn [additive]. rewrite Ea. exact Ee.
Qed.

(** An expression in brackets that is all of the text. *)
Lemma brackets_parsed (fuel : nat) (inner : list token) (e : expr) :
  additive fuel (inner ++ [TRParen]) = Parsed e [TRParen] ->
  additive (5 + fuel) (TLParen :: inner ++ [TRParen]) = Parsed (EParen e) [].
Proof.
  intros H.
  cbn [Nat.add additive multiplicative exponentiation update primary].
  rewrite H. reflexivity.
Qed.

(** A formula in brackets is one expression, and its value is the
    value of the formula. *)
Lemma formula_parsed (f : formula) :
  exists e,
    parse (TLParen :: TNum (numeral_value (fst (fst f)))
             :: units_tokens (formula_units f) ++ [TRParen])
    = Some e
    /\ eval pow e = Normal (VNumber (formula_value f)).
Proof.
  destruct f as [p ts]. cbn [fst].
  remember (units_tokens (formula_units (p, ts))) as us eqn:Eu.
  assert (Hb : exists fuel,
             budget (TLParen :: TNum (numeral_value (fst p))
                       :: us ++ [TRParen])
             = (5 + fuel)%nat
             /\ (length us + 5 <= fuel)%nat).
  { exists (8 * (length us + 3) + 3)%nat. unfold budget. cbn [length].
    rewrite length_app. cbn [length]. lia. }
  destruct Hb as (fuel & Eb & Hf).
  destruct (@sum_parsed p ts fuel []) as (e & Ee & He).
  { rewrite <- Eu. exact Hf. }
  rewrite <- Eu in Ee.
  exists (EParen e). split; [|exact He].
  pose proof (@brackets_parsed fuel (TNum (numeral_value (fst p)) :: us) e Ee)
    as Hp.
  cbn [app] in Hp. unfold parse. rewrite Eb, Hp. reflexivity.
Qed.

End Parsing.

(** ** Evaluating and typing formulas *)

Section Formulas.

Lemma arithmetic_digits (ds : jsstring) :
  forallb is_digit ds = true -> forallb is_arithmetic ds = true.
Proof.
  intros H. apply forallb_forall. intros c Hc.
  rewrite forallb_forall in H. now apply digit_facts, H.
Qed.

Lemma arithmetic_numeral (n : numeral) :
  valid_numeral n = true ->
  forallb is_arithmetic (sanitize (numeral_text n)) = true.
Proof.
  intros Hv. rewrite (@sanitize_numeral n Hv).
  destruct (@valid_numeral_parts n Hv) as (Hw & _ & Hf).
  rewrite forallb_app, (arithmetic_digits _ Hw).
  unfold fraction_digits in Hf. destruct (fraction n); [|reflexivity].
  cbn [forallb]. now rewrite (arithmetic_digits _ Hf).
Qed.

Lemma arithmetic_units (us : list (binary * numeral)) :
  forallb (fun '(_, n) => valid_numeral n) us = true ->
  forallb is_arithmetic (sanitize (units_text us)) = true.
Proof.
  induction us as [|[o n] us IH]; [reflexivity|].
  cbn [forallb]. rewrite andb_true_iff. intros [Hn Hus].
  rewrite units_text_cons, !sanitize_app, !forallb_app.
  rewrite (arithmetic_numeral _ Hn), IH by assumption.
  now destruct o.
Qed.

Lemma arithmetic_formula (f : formula) :
  valid_formula f = true ->
  arithmetic_only (sanitize (formula_text f)) = true.
Proof.
  unfold valid_formula. rewrite andb_true_iff. intros [Hn Hus].
  unfold arithmetic_only, formula_text. rewrite sanitize_app.
  destruct (@numeral_starts _ Hn) as (d & r & E & Hd).
  pose proof (arithmetic_numeral _ Hn) as Ha. rewrite E in *. cbn [app].
  rewrite app_comm_cons, forallb_app, Ha. now apply arithmetic_units.
Qed.

Lemma engine_formula pow (f : formula) :
  valid_formula f = true ->
  engine pow ([c_lparen] ++ sanitize (formula_text f) ++ [c_rparen])
  = Normal (VNumber (formula_value f)).
Proof.
  intros Hv. unfold engine, Function_return. rewrite (tokens_formula _ Hv).
  destruct (formula_parsed pow f) as (e & -> & ->). reflexivity.
Qed.

Lemma safeEval_formula pow (f : formula) :
  valid_formula f = true ->
  safeEval (engine pow) (formula_text f) = VNumber (formula_value f).
Proof.
  intros Hv. unfold safeEval. rewrite (arithmetic_formula _ Hv). cbn [negb].
  now rewrite engine_formula.
Qed.


Lemma digit_key (c : N) :
  is_digit c = true ->
  In (Z.of_N c - 48) digit_values /\ [c] = b_digit (Z.of_N c - 48).
Proof.
  intros H. apply is_digit_cases in H. simpl in H.
  repeat (destruct H as [<-|H]; [split; [simpl; tauto | reflexivity]|]).
  contradiction.
Qed.

(** A digit key, when no result is shown, adds its digit. *)
Lemma press_digit_char host (st : state) (c : N) :
  previousResult st = None -> is_digit c = true ->
  handleButtonClick host st [c]
  = Normal (typed (expression st ++ [c])).
Proof.
  intros Hp Hc. destruct (@digit_key c Hc) as [Hd E].
  rewrite E at 1. rewrite press_digit, Hp by assumption.
  rewrite <- E. now destruct (expression st).
Qed.

Lemma keys_of_app (s t : jsstring) : keys_of (s ++ t) = keys_of s ++ keys_of t.
Proof. apply map_app. Qed.

Lemma type_digits host (ds : jsstring) :
  forall e, forallb is_digit ds = true ->
    presses host (typed e) (keys_of ds) = Normal (typed (e ++ ds)).
Proof.
  induction ds as [|d ds IH]; intros e Hd.
  - now rewrite app_nil_r.
  - cbn [forallb] in Hd. apply andb_true_iff in Hd as [H1 H2].
    cbn [keys_of map]. rewrite presses_cons, press_digit_char by easy.
    rewrite bind_normal. cbn [typed expression].
    fold (keys_of ds). rewrite IH by assumption.
    now rewrite <- app_assoc.
Qed.

Lemma split_plain (p : N -> bool) (w : jsstring) :
  forallb (fun c => negb (p c)) w = true -> split p w = [w].
Proof.
  induction w as [|c w IH]; [reflexivity|]. cbn [forallb].
  rewrite andb_true_iff, negb_true_iff. intros [Hc Hw].
  cbn [split]. now rewrite Hc, IH.
Qed.

(** Text without operators lengthens the last piece. *)
Lemma split_app_run (p : N -> bool) (s w : jsstring) :
  forallb (fun c => negb (p c)) w = true ->
  exists ps q, split p s = ps ++ [q] /\ split p (s ++ w) = ps ++ [q ++ w].
Proof.
  intros Hw. induction s as [|x s (ps & q & E1 & E2)].
  - exists [], []. split; [reflexivity|]. now apply split_plain.
  - cbn [app split]. rewrite E1, E2. destruct (p x).
    + exists ([] :: ps), q. split; reflexivity.
    + destruct ps as [|a ps].
      * exists [], (x :: q). split; reflexivity.
      * exists ((x :: a) :: ps), q. split; reflexivity.
Qed.

Lemma split_after_operator (p : N -> bool) (s : jsstring) (c : N) :
  p c = true -> exists ps, split p (s ++ [c]) = ps ++ [[]].
Proof.
  intros Hc.
  assert (H : exists a ps, split p (s ++ [c]) = a :: ps ++ [[]]).
  { induction s as [|x s (a & ps & E)].
    - exists [], []. cbn [app split]. now rewrite Hc.
    - cbn [app split]. rewrite E. destruct (p x).
      + exists [], (a :: ps). reflexivity.
      + exists (x :: a), ps. reflexivity. }
  destruct H as (a & ps & E). exists (a :: ps). exact E.
Qed.

Lemma last_snoc (ps : list jsstring) (q : jsstring) : last (ps ++ [q]) [] = q.
Proof. apply last_last. Qed.

(** After an operator, or at the start, the current number is what has
    been typed since. *)
Lemma current_number_run (e w : jsstring) :
  e = [] \/ ends_with_operator e = true ->
  forallb (fun c => negb (is_operator c)) w = true ->
  last (split is_operator (e ++ w)) [] = w.
Proof.
  intros He Hw.
  destruct (@split_app_run is_operator e w Hw) as (ps & q & E1 & E2).
  rewrite E2, last_snoc.
  assert (Hq : q = []); [|now rewrite Hq].
  destruct He as [->|He].
  - cbn [split] in E1. destruct ps as [|a ps].
    + now injection E1.
    + destruct ps; discriminate.
  - destruct (rev_cons_case e) as [->|(s & c & ->)]; [discriminate|].
    rewrite ends_with_operator_snoc in He.
    destruct (@split_after_operator is_operator s c He) as (ps' & E).
    rewrite E in E1. now apply app_inj_tail in E1.
Qed.

Lemma digits_no_operator (w : jsstring) :
  forallb is_digit w = true ->
  forallb (fun c => negb (is_operator c)) w = true
  /\ includes c_comma w = false.
Proof.
  intros H. rewrite forallb_forall in H. split.
  - apply forallb_forall. intros c Hc.
    now destruct (@digit_facts c (H c Hc)) as (_ & _ & _ & -> & _).
  - unfold includes. apply not_true_is_false. intros E.
    apply existsb_exists in E as (c & Hc & E).
    apply N.eqb_eq in E. subst c.
    now specialize (H _ Hc).
Qed.

Lemma ends_with_digits (s w : jsstring) :
  w <> [] -> forallb is_digit w = true -> ends_with_operator (s ++ w) = false.
Proof.
  intros Hn Hw. rewrite ends_with_operator_app by assumption.
  destruct (rev_cons_case w) as [->|(w' & c & ->)]; [contradiction|].
  rewrite ends_with_operator_snoc. rewrite forallb_app in Hw.
  apply andb_true_iff in Hw as [_ Hc]. cbn [forallb] in Hc.
  rewrite andb_true_r in Hc.
  now destruct (@digit_facts c Hc) as (_ & _ & _ & -> & _).
Qed.

(** The decimal comma after the digits of a whole part. *)
Lemma type_comma host (e w : jsstring) :
  e = [] \/ ends_with_operator e = true ->
  w <> [] -> forallb is_digit w = true ->
  handleButtonClick host (typed (e ++ w)) b_comma
  = Normal (typed (e ++ w ++ [c_comma])).
Proof.
  intros He Hn Hw. rewrite press_comma. cbn [typed previousResult expression].
  destruct (@digits_no_operator w Hw) as [Ho Hc].
  rewrite (@current_number_run e w He Ho), Hc.
  rewrite (@ends_with_digits e w Hn Hw), orb_false_r.
  replace (is_empty (e ++ w)) with false
    by (destruct w; [contradiction | now destruct e]).
  now rewrite <- app_assoc.
Qed.

Lemma type_numeral host (n : numeral) (st : state) :
  valid_numeral n = true ->
  previousResult st = None ->
  expression st = [] \/ ends_with_operator (expression st) = true ->
  presses host st (keys_of (numeral_text n))
  = Normal (typed (expression st ++ numeral_text n)).
Proof.
  intros Hv Hp He.
  destruct (@valid_numeral_parts n Hv) as (Hw & (d & w & Ew & Hd & _) & Hf).
  unfold numeral_text, fraction_digits in *. rewrite Ew in *.
  cbn [forallb] in Hw. apply andb_true_iff in Hw as [_ Hw].
  rewrite keys_of_app, presses_app. cbn [keys_of map].
  rewrite presses_cons, press_digit_char, bind_normal by assumption.
  fold (keys_of w). rewrite type_digits, bind_normal by assumption.
  rewrite <- app_assoc. cbn [app].
  destruct (fraction n) as [f|]; [|now rewrite app_nil_r].
  cbn [keys_of map]. rewrite presses_cons.
  change [c_comma] with b_comma.
  rewrite (@type_comma host (expression st) (d :: w) He);
    [|discriminate | cbn [forallb]; now rewrite Hd].
  rewrite bind_normal. fold (keys_of f). rewrite type_digits by assumption.
  now rewrite <- !app_assoc.
Qed.

Lemma numeral_text_end (n : numeral) (s : jsstring) :
  valid_numeral n = true ->
  s ++ numeral_text n <> []
  /\ ends_with_operator (s ++ numeral_text n) = false.
Proof.
  intros Hv.
  destruct (@valid_numeral_parts n Hv) as (Hw & (d & w & Ew & Hd & _) & Hf).
  unfold numeral_text, fraction_digits in *. split.
  { rewrite Ew. destruct s; discriminate. }
  destruct (fraction n) as [f|].
  - rewrite app_assoc.
    destruct (rev_cons_case f) as [->|(f' & c & ->)].
    + now rewrite ends_with_operator_snoc.
    + rewrite app_comm_cons, app_assoc, ends_with_operator_snoc.
      rewrite forallb_app in Hf. apply andb_true_iff in Hf as [_ Hc].
      cbn [forallb] in Hc. rewrite andb_true_r in Hc.
      now destruct (@digit_facts c Hc) as (_ & _ & _ & -> & _).
  - rewrite app_nil_r. apply ends_with_digits; [|assumption].
    rewrite Ew. discriminate.
Qed.

Lemma type_units host (us : list (binary * numeral)) :
  forallb (fun '(_, n) => valid_numeral n) us = true ->
  forall s, s <> [] -> ends_with_operator s = false ->
    presses host (typed s) (keys_of (units_text us))
    = Normal (typed (s ++ units_text us)).
Proof.
  induction us as [|[o n] us IH]; intros Hv s Hs He.
  - now rewrite app_nil_r.
  - cbn [forallb] in Hv. apply andb_true_iff in Hv as [Hn Hus].
    rewrite units_text_cons, !keys_of_app, presses_app.
    replace (keys_of (binary_label o)) with [binary_label o]
      by now destruct o.
    rewrite presses_one, typing_operator, bind_normal by assumption.
    destruct (binary_label_operator o) as (c & Ec & Hc).
    rewrite presses_app.
    rewrite (@type_numeral host n (typed (s ++ binary_label o)) Hn);
      [|reflexivity
       |right; cbn [typed expression];
        now rewrite Ec, ends_with_operator_snoc].
    rewrite bind_normal. cbn [typed expression].
    destruct (@numeral_text_end n (s ++ binary_label o) Hn) as [H1 H2].
    rewrite IH by assumption. now rewrite <- !app_assoc.
Qed.

(** Typing a formula shows it. *)
Lemma type_formula host (f : formula) :
  valid_formula f = true ->
  presses host initial (keys_of (formula_text f))
  = Normal (typed (formula_text f)).
Proof.
  unfold valid_formula. rewrite andb_true_iff. intros [Hn Hus].
  unfold formula_text. rewrite keys_of_app, presses_app.
  rewrite (@type_numeral host _ initial Hn); [|reflexivity | now left].
  rewrite bind_normal. cbn [initial expression app].
  destruct (@numeral_text_end (fst (fst f)) [] Hn) as [H1 H2].
  now apply type_units.
Qed.

Lemma numeral_chars (n : numeral) (c : N) :
  valid_numeral n = true -> In c (numeral_text n) ->
  is_digit c = true \/ c = c_comma.
Proof.
  intros Hv Hc. destruct (@valid_numeral_parts n Hv) as (Hw & _ & Hf).
  unfold numeral_text, fraction_digits in *.
  rewrite forallb_forall in Hw, Hf.
  apply in_app_iff in Hc as [Hc|Hc]; [left; now apply Hw|].
  destruct (fraction n); [|contradiction].
  destruct Hc as [<-|Hc]; [now right | left; now apply Hf].
Qed.

(** The characters of a formula: digits, operators, decimal commas. *)
Lemma formula_chars (f : formula) (c : N) :
  valid_formula f = true -> In c (formula_text f) ->
  is_digit c = true \/ is_operator c = true \/ c = c_comma.
Proof.
  unfold valid_formula, formula_text. rewrite andb_true_iff, in_app_iff.
  intros [Hn Hus] [Hc|Hc].
  - destruct (numeral_chars _ _ Hn Hc); tauto.
  - induction (formula_units f) as [|[o n] us IH]; [contradiction|].
    cbn [forallb] in Hus. apply andb_true_iff in Hus as [Hn' Hus].
    rewrite units_text_cons, !in_app_iff in Hc.
    destruct Hc as [Hc|[Hc|Hc]]; [| |now apply IH].
    + right; left. destruct o; destruct Hc as [<-|[]]; reflexivity.
    + destruct (numeral_chars _ _ Hn' Hc); tauto.
Qed.

Lemma char_button (c : N) :
  is_digit c = true \/ is_operator c = true \/ c = c_comma ->
  In [c] buttonValues.
Proof.
  intros [H|[H| ->]]; [now apply digit_button | | simpl; tauto].
  unfold is_operator in H. rewrite !orb_true_iff, !N.eqb_eq in H.
  destruct H as [[[-> | ->] | ->] | ->]; simpl; tauto.
Qed.

Lemma keys_of_buttons (f : formula) :
  valid_formula f = true ->
  Forall (fun v => In v buttonValues) (keys_of (formula_text f)).
Proof.
  intros Hv. apply Forall_forall. intros v Hin.
  apply in_map_iff in Hin as (c & <- & Hc).
  now apply char_button, (formula_chars f).
Qed.

Lemma formula_not_blank (f : formula) :
  valid_formula f = true -> trim (formula_text f) <> [].
Proof.
  unfold valid_formula. rewrite andb_true_iff. intros [Hn _].
  destruct (@valid_numeral_parts _ Hn) as (_ & (d & w & Ew & Hd & _) & _).
  apply (@trim_keeps _ d).
  - unfold formula_text, numeral_text. rewrite Ew. now left.
  - now destruct (@digit_facts d Hd) as (_ & _ & -> & _).
Qed.

Lemma equals_formula pow (f : formula) :
  valid_formula f = true ->
  presses (engine pow) initial (keys_of (formula_text f) ++ [b_equals])
  = Normal (shown (formula_value f)).
Proof.
  intros Hv. rewrite presses_app, type_formula, bind_normal by assumption.
  rewrite presses_one, equals_engine
    by (cbn [typed expression]; now apply formula_not_blank).
  cbn [typed expression]. now rewrite safeEval_formula.
Qed.

End Formulas.

(** ** Digits, and a zero in front *)

Section Zeros.

(** Digits typed in any state. *)
Lemma type_digits_any host (st : state) (d : N) (ds : jsstring) :
  is_digit d = true -> forallb is_digit ds = true ->
  presses host st (keys_of (d :: ds))
  = Normal (typed (match previousResult st with
                   | Some _ => []
                   | None => expression st
                   end ++ d :: ds)).
Proof.
  intros Hd Hds. cbn [keys_of map]. fold (keys_of ds). rewrite presses_cons.
  destruct (@digit_key d Hd) as [Hin E]. rewrite E at 1.
  rewrite press_digit by assumption. rewrite <- E.
  transitivity
    (bind (Normal (typed (match previousResult st with
                          | Some _ => []
                          | None => expression st
                          end ++ [d])))
       (fun st' => presses host st' (keys_of ds))).
  { destruct (previousResult st); [reflexivity|].
    now destruct (expression st). }
  rewrite bind_normal, type_digits by assumption.
  now rewrite <- app_assoc.
Qed.

(** A literal that starts with [0] and another digit is no token. *)
Lemma scan_leading_zero (operand : bool) (d : N) (rest : jsstring) :
  is_digit d = true -> scan operand (c_0 :: d :: rest) = None.
Proof.
  intros Hd. unfold scan. cbn [N.eqb c_0 c_space is_digit].
  change (N.eqb c_0 c_space) with false. change (is_digit c_0) with true.
  cbv iota. unfold scan_number.
  rewrite (@span_digits_cons c_0 (d :: rest)) by reflexivity.
  rewrite (@span_digits_cons d rest Hd). cbn [fst snd].
  change (N.eqb c_0 c_0) with true. reflexivity.
Qed.

Lemma lex_leading_zero (acc : list token) (d : N) (rest : jsstring) :
  is_digit d = true -> lex 0 acc (c_0 :: d :: rest) = None.
Proof.
  intros Hd. cbn [lex]. now rewrite scan_leading_zero.
Qed.

Lemma safeEval_no_tokens pow (e : jsstring) :
  tokens ([c_lparen] ++ sanitize e ++ [c_rparen]) = None ->
  safeEval (engine pow) e = VNumber NaN.
Proof.
  intros H. unfold safeEval. destruct (negb _); [reflexivity|].
  unfold engine, Function_return. now rewrite H.
Qed.

Lemma sanitize_zero_digit (d : N) (rest : jsstring) :
  is_digit d = true ->
  sanitize (c_0 :: d :: rest) = c_0 :: d :: sanitize rest.
Proof.
  intros Hd. rewrite sanitize_cons, (sanitize_cons d).
  now rewrite (@sanitize_digit d Hd).
Qed.

Lemma leading_zero_start pow (d : N) (rest : jsstring) :
  is_digit d = true ->
  safeEval (engine pow) (c_0 :: d :: rest) = VNumber NaN.
Proof.
  intros Hd. apply safeEval_no_tokens.
  rewrite (@sanitize_zero_digit d rest Hd). unfold tokens. cbn [app].
  change (lex 0 [] (c_lparen :: ?s)) with (lex 0 [TLParen] s).
  now apply lex_leading_zero.
Qed.

Lemma leading_zero_after pow (f : formula) (o : binary) (d : N)
    (rest : jsstring) :
  valid_formula f = true -> is_digit d = true ->
  safeEval (engine pow)
    (formula_text f ++ binary_label o ++ c_0 :: d :: rest)
  = VNumber NaN.
Proof.
  intros Hv Hd. apply safeEval_no_tokens.
  rewrite !sanitize_app, (@sanitize_zero_digit d rest Hd).
  unfold tokens. cbn [app].
  change (lex 0 [] (c_lparen :: ?s)) with (lex 0 [TLParen] s).
  rewrite <- !app_assoc.
  destruct (binary_label_operator o) as (c & Ec & Hc).
  assert (Hs : exists c', sanitize (binary_label o) = [c']
                          /\ is_digit c' = false /\ N.eqb c' c_dot = false)
    by (destruct o; eexists; repeat split).
  destruct Hs as (c' & Es & Hc' & Hdot).
  pose proof (@lex_operator o c_0 (d :: sanitize rest ++ [c_rparen])) as Ho.
  rewrite Es in *. cbn [app] in *.
  rewrite (@lex_formula f c' _ _ Hv Hc' Hdot).
  cbn [app] in Ho.
  destruct (rev (units_tokens (formula_units f))) as [|t ts] eqn:Er.
  - cbn [app]. rewrite Ho by reflexivity. now apply lex_leading_zero.
  - assert (Ht : exists y, t = TNum y).
    { destruct (formula_units f) as [|[o' n'] us] using rev_ind;
        [discriminate|].
      unfold units_tokens in Er. rewrite flat_map_app in Er.
      cbn [flat_map app] in Er. rewrite rev_app_distr in Er.
      cbn [rev app] in Er. injection Er as <- _. eauto. }
    destruct Ht as (y & ->). cbn [app].
    rewrite Ho by reflexivity. now apply lex_leading_zero.
Qed.

End Zeros.

(** ** What [parseFloat] reads of a display *)

Section LeadingNumber.

Lemma parseFloat_leading (ds tail : jsstring) :
  ds <> [] -> forallb is_digit ds = true ->
  match tail with
  | [] => True
  | c :: _ => is_operator c = true \/ c = c_comma
  end ->
  parseFloat (ds ++ tail) = of_decimal false (digits_val ds) 0.
Proof.
  intros Hn Hd Ht. destruct ds as [|d ds]; [contradiction|].
  pose proof Hd as Hd'. cbn [forallb] in Hd'.
  apply andb_true_iff in Hd' as [Hd0 _].
  destruct (@digit_facts d Hd0) as (_ & _ & Hsp & _).
  unfold parseFloat. cbn [app trimStart]. rewrite Hsp.
  assert (Hsign : N.eqb d c_plus = false /\ N.eqb d c_minus = false
                  /\ N.eqb 73 d = false).
  { apply is_digit_cases in Hd0. simpl in Hd0.
    repeat (destruct Hd0 as [<-|Hd0]; [repeat split|]). contradiction. }
  destruct Hsign as (Hp & Hm & Hi).
  unfold StrDecimalLiteral. rewrite Hp, Hm. unfold unsigned_decimal.
  change (lit "Infinity") with (73%N :: lit "nfinity").
  cbn [strip_prefix]. rewrite Hi.
  rewrite app_comm_cons.
  destruct tail as [|c tail].
  - assert (Hsp' : span_digits ((d :: ds) ++ []) = (d :: ds, [])).
    { clear - Hd. induction (d :: ds) as [|x l IH]; [reflexivity|].
      cbn [forallb] in Hd. apply andb_true_iff in Hd as [H1 H2].
      cbn [app span_digits]. now rewrite H1, IH. }
    rewrite Hsp'. cbn [exponent_part]. now rewrite app_nil_r.
  - assert (Hc : is_digit c = false /\ N.eqb c c_dot = false
                 /\ N.eqb c 101 = false /\ N.eqb c 69 = false).
    { destruct Ht as [Ho| ->]; [|repeat split].
      unfold is_operator in Ho. rewrite !orb_true_iff, !N.eqb_eq in Ho.
      destruct Ho as [[[-> | ->] | ->] | ->]; repeat split. }
    destruct Hc as (Hc1 & Hc2 & Hc3 & Hc4).
    rewrite (@span_digits_run (d :: ds) tail c Hd Hc1).
    rewrite Hc2. cbn [exponent_part]. rewrite Hc3, Hc4. cbn [orb].
    now rewrite app_nil_r.
Qed.

End LeadingNumber.

(** ** One decimal comma to a number *)

Section Commas.

Lemma commas_app (s t : jsstring) : commas (s ++ t) = (commas s + commas t)%nat.
Proof. unfold commas. now rewrite filter_app, length_app. Qed.

Lemma commas_zero (s : jsstring) : includes c_comma s = false -> commas s = 0%nat.
Proof.
  unfold includes, commas. induction s as [|c s IH]; [reflexivity|].
  cbn [existsb filter]. rewrite orb_false_iff. intros [-> H]. now apply IH.
Qed.

Lemma split_snoc_operator (p : N -> bool) (s : jsstring) (c : N) :
  p c = true -> split p (s ++ [c]) = split p s ++ [[]].
Proof.
  intros Hc. induction s as [|x s IH].
  - cbn [app split]. now rewrite Hc.
  - cbn [app split]. rewrite IH. destruct (p x); [reflexivity|].
    destruct (split p s) as [|a ps] eqn:E; [|reflexivity].
    now destruct (split_not_nil p s).
Qed.

Lemma single_commas_nil : single_commas [].
Proof. intros part [<-|[]]. unfold commas. simpl. lia. Qed.

Lemma single_commas_plain (r : jsstring) :
  includes c_comma r = false -> single_commas r.
Proof.
  intros Hr part Hp. rewrite commas_zero; [lia|].
  unfold includes in *. apply not_true_is_false. intros E.
  apply existsb_exists in E as (c & Hc & E).
  assert (Hin : In c r) by (now apply (split_sub is_operator r part)).
  assert (existsb (N.eqb c_comma) r = true)
    by (apply existsb_exists; eauto).
  congruence.
Qed.

Lemma single_commas_run (e w : jsstring) :
  forallb (fun c => negb (is_operator c)) w = true ->
  single_commas e ->
  (commas (last (split is_operator e) []) + commas w <= 1)%nat ->
  single_commas (e ++ w).
Proof.
  intros Hw He Hc part Hp.
  destruct (@split_app_run is_operator e w Hw) as (ps & q & E1 & E2).
  rewrite E1, last_snoc in Hc. rewrite E2 in Hp.
  apply in_app_iff in Hp as [Hp|[<-|[]]].
  - apply He. rewrite E1. apply in_app_iff. now left.
  - now rewrite commas_app.
Qed.

Lemma single_commas_operator (e : jsstring) (c : N) :
  is_operator c = true -> single_commas e -> single_commas (e ++ [c]).
Proof.
  intros Hc He part Hp. rewrite split_snoc_operator in Hp by assumption.
  apply in_app_iff in Hp as [Hp|[<-|[]]]; [now apply He|].
  unfold commas. simpl. lia.
Qed.

Lemma single_commas_removelast (e : jsstring) :
  single_commas e -> single_commas (removelast e).
Proof.
  destruct (rev_cons_case e) as [->|(s & c & ->)]; [easy|].
  rewrite removelast_snoc. intros He part Hp.
  destruct (is_operator c) eqn:Hc.
  - apply He. rewrite split_snoc_operator by assumption.
    apply in_app_iff. now left.
  - destruct (@split_app_run is_operator s [c]) as (ps & q & E1 & E2).
    { cbn [forallb]. now rewrite Hc. }
    rewrite E1 in Hp. apply in_app_iff in Hp as [Hp|[<-|[]]].
    + apply He. rewrite E2. apply in_app_iff. now left.
    + assert (H : (commas (q ++ [c]) <= 1)%nat).
      { apply He. rewrite E2. apply in_app_iff. right. now left. }
      rewrite commas_app in H. lia.
Qed.

Lemma single_commas_last (e : jsstring) :
  single_commas e -> (commas (last (split is_operator e) []) <= 1)%nat.
Proof. intros He. apply He, last_In, split_not_nil. Qed.

Lemma single_commas_digit (e : jsstring) (d : Z) :
  In d digit_values -> single_commas e -> single_commas (e ++ b_digit d).
Proof.
  intros Hd He. pose proof (single_commas_last He) as Hl.
  pose proof (plain_forall (b_digit_plain Hd)) as Hp.
  destruct (Hp (digit_char d)) as (Ho & Hc & _); [now left|].
  apply single_commas_run; [cbn [b_digit forallb]; now rewrite Ho | assumption|].
  rewrite (@commas_zero (b_digit d)); [lia|].
  unfold includes, b_digit. cbn [existsb]. now rewrite N.eqb_sym, Hc.
Qed.

Lemma single_commas_step pow (st : state) (val : jsstring) :
  In val buttonValues -> invariant st -> single_commas (expression st) ->
  exists st', handleButtonClick (engine pow) st val = Normal st'
              /\ single_commas (expression st').
Proof.
  intros Hval (_ & _ & Hres) Hc.
  assert (Hfmt : forall x, single_commas (formatNumber x)).
  { intros x. apply single_commas_plain.
    now destruct (formatNumber_settled x) as (_ & _ & H & _). }
  apply button_cases in Hval
    as [->|[->|[->|[->|[->|[(u & ->)|[(d & Hd & ->)|(o & ->)]]]]]]].
  - rewrite press_C. eexists; split; [reflexivity | apply single_commas_nil].
  - rewrite press_CE. eexists; split; [reflexivity | apply single_commas_nil].
  - destruct (trim (expression st)) eqn:E.
    + rewrite press_equals, E. eauto.
    + rewrite equals_engine by (rewrite E; discriminate).
      eexists; split; [reflexivity|]. unfold shown.
      destruct (isNaN _ || negb _); [apply single_commas_nil | apply Hfmt].
  - rewrite press_backspace. destruct (previousResult st).
    { eexists; split; [reflexivity | apply single_commas_nil]. }
    destruct (length (expression st) <=? 1)%nat;
      (eexists; split; [reflexivity|]);
      [apply single_commas_nil | now apply single_commas_removelast].
  - rewrite press_comma. destruct (previousResult st).
    { eexists; split; [reflexivity|].
      intros part [<-|[]]. unfold commas. simpl. lia. }
    destruct (includes c_comma _) eqn:Ei; [eauto|].
    apply commas_zero in Ei.
    destruct (is_empty _ || ends_with_operator _);
      (eexists; split; [reflexivity|]); cbn [typed expression];
      (apply single_commas_run; [reflexivity | assumption|]);
      rewrite Ei; unfold commas; simpl; lia.
  - rewrite press_unary. cbv zeta. destruct (domain_failure u _).
    + eexists; split; [reflexivity | apply single_commas_nil].
    + eexists; split; [reflexivity | apply Hfmt].
  - rewrite press_digit by assumption.
    destruct (previousResult st).
    { eexists; split; [reflexivity|].
      apply (@single_commas_digit [] d Hd single_commas_nil). }
    destruct (expression st) eqn:E.
    { eexists; split; [reflexivity|].
      apply (@single_commas_digit [] d Hd single_commas_nil). }
    eexists; split; [reflexivity|]. now apply single_commas_digit.
  - rewrite press_binary.
    destruct (binary_label_operator o) as (c & -> & Ho).
    destruct (previousResult st) eqn:Ep.
    { eexists; split; [reflexivity|]. cbn [typed expression].
      destruct Hres as [E _]; [discriminate|]. rewrite <- E.
      now apply single_commas_operator. }
    destruct (ends_with_operator (expression st));
      (eexists; split; [reflexivity|]); cbn [typed expression].
    + now apply single_commas_operator, single_commas_removelast.
    + now apply single_commas_operator.
Qed.

Lemma single_commas_presses pow (vals : list jsstring) (st : state) :
  Forall (fun v => In v buttonValues) vals ->
  invariant st -> single_commas (expression st) ->
  exists st', presses (engine pow) st vals = Normal st'
              /\ single_commas (expression st').
Proof.
  intros H; revert st; induction H as [|v vals Hv _ IH]; intros st Hi Hc.
  - exists st; split; [reflexivity | assumption].
  - destruct (invariant_step pow Hv Hi) as (st1 & E1 & H1).
    destruct (single_commas_step pow Hv Hi Hc) as (st1' & E1' & C1).
    rewrite E1 in E1'. injection E1' as <-.
    destruct (IH _ H1 C1) as (st2 & E2 & H2).
    exists st2. split; [|assumption]. simpl. rewrite E1. exact E2.
Qed.

End Commas.

(** ** Typing on the keyboard *)

Section KeyboardTyping.

Lemma keydown_key_for host click (st : state) (c : N) :
  is_digit c = true \/ is_operator c = true \/ c = c_comma ->
  event_key (key_for c) = true
  /\ handleKeyDown host click st (key_for c)
     = {| prevented := true; next := handleButtonClick host st [c] |}.
Proof.
  intros [H|[H| ->]]; [| |split; reflexivity].
  - apply is_digit_cases in H. simpl in H.
    repeat (destruct H as [<-|H]; [split; reflexivity|]). contradiction.
  - unfold is_operator in H. rewrite !orb_true_iff, !N.eqb_eq in H.
    destruct H as [[[-> | ->] | ->] | ->]; split; reflexivity.
Qed.

(** The keys of a text do what its buttons do. *)
Lemma keydowns_text host click (s : jsstring) :
  (forall c, In c s ->
     is_digit c = true \/ is_operator c = true \/ c = c_comma) ->
  forall st,
    keydowns host click st (map key_for s) = presses host st (keys_of s).
Proof.
  induction s as [|c s IH]; intros Hs st; [reflexivity|].
  cbn [map keys_of keydowns presses].
  destruct (@keydown_key_for host click st c (Hs c (or_introl eq_refl)))
    as [_ ->].
  cbn [next]. destruct (handleButtonClick host st [c]); [|reflexivity].
  cbn [bind]. apply IH. intros c' Hc'. apply Hs. now right.
Qed.

Lemma keydowns_app host click (a b : list jsstring) (st : state) :
  keydowns host click st (a ++ b)
  = bind (keydowns host click st a) (fun st' => keydowns host click st' b).
Proof.
  revert st; induction a as [|k a IH]; intros st; [reflexivity|].
  cbn [app keydowns].
  destruct (next (handleKeyDown host click st k)); [apply IH | reflexivity].
Qed.

Lemma keydown_enter host click (st : state) :
  keydowns host click st [lit "Enter"] = handleButtonClick host st b_equals.
Proof.
  cbn [keydowns].
  change (next (handleKeyDown host click st (lit "Enter")))
    with (handleButtonClick host st b_equals).
  now destruct (handleButtonClick host st b_equals).
Qed.

End KeyboardTyping.

(** ** The properties *)

(** X1.  The text [formatNumber] returns is never empty, holds no
    decimal comma and no white space, has no two operators in a row and
    does not end in an operator; for a number that is not finite it is
    ["Error"]. *)
Theorem formatNumber_text (num : number) :
  formatNumber num <> []
  /\ includes c_comma (formatNumber num) = false
  /\ no_space (formatNumber num) = true
  /\ no_adjacent_operators (formatNumber num) = true
  /\ ends_with_operator (formatNumber num) = false
  /\ (isFinite num = false -> formatNumber num = lit "Error").
Proof.
  destruct (formatNumber_settled num) as (Hn & (Hs & Ha) & Hc & He).
  repeat (split; [assumption|]).
  intros H. unfold formatNumber. now rewrite H.
Qed.

(** X2.  On the evaluator of the language [safeEval] returns a number,
    or a value that counts as [NaN]: a text or a regular expression it
    may return (as for [÷5÷+1]) never reads as a number.  So [=] on an
    expression that is not blank never throws: it leaves the error
    display when the value is [NaN] or infinite, and otherwise the
    formatted number in both cells with the number as the result. *)
Theorem safeEval_number_or_nan
    (Number_exponentiate : number -> number -> number) :
  (forall e,
      (exists x, safeEval (engine Number_exponentiate) e = VNumber x)
      \/ isNaN (ToNumber (safeEval (engine Number_exponentiate) e)) = true)
  /\ (forall st,
        trim st.(expression) <> [] ->
        handleButtonClick (engine Number_exponentiate) st b_equals
        = Normal (shown (ToNumber
                    (safeEval (engine Number_exponentiate) st.(expression))))).
Proof.
  split.
  - intros e.
    destruct (ToNumber_slashed _ (safeEval_slashed Number_exponentiate e))
      as [H|H]; [now left | right]. now rewrite H.
  - intros st. apply equals_engine.
Qed.

(** X3.  The translation of [safeEval] (÷ to [/], × to [*], the comma to
    the point) leaves none of the three characters behind and changes
    nothing when applied again: [safeEval] gives a translated text the
    value of the text it came from. *)
Theorem translation_is_idempotent (host : jsstring -> completion value)
    (e : jsstring) :
  sanitize (sanitize e) = sanitize e
  /\ safeEval host (sanitize e) = safeEval host e
  /\ (forall c, In c (sanitize e) ->
        c <> c_divide /\ c <> c_times /\ c <> c_comma).
Proof.
  split; [apply sanitize_idempotent|]. split; [|apply sanitize_clean].
  unfold safeEval. now rewrite sanitize_idempotent.
Qed.

(** X4.  [safeEval] gives a formula its value.  For every formula of
    numerals (digits, with or without a decimal comma and a fraction, no
    superfluous zero in front) joined by [+], [-], [×] and [÷], however
    long, the translated text passes the guard, the evaluator returns
    without throwing, and the result is the number standard arithmetic
    gives: products and quotients first, each kind from left to right,
    every operation rounded as the language rounds it. *)
Theorem safeEval_formula_value
    (Number_exponentiate : number -> number -> number) (f : formula) :
  valid_formula f = true ->
  arithmetic_only (sanitize (formula_text f)) = true
  /\ engine Number_exponentiate
       ([c_lparen] ++ sanitize (formula_text f) ++ [c_rparen])
     = Normal (VNumber (formula_value f))
  /\ safeEval (engine Number_exponentiate) (formula_text f)
     = VNumber (formula_value f).
Proof.
  intros Hv. split; [now apply arithmetic_formula|].
  split; [now apply engine_formula | now apply safeEval_formula].
Qed.

(** X5.  Typing a formula and pressing [=].  The keys of a formula, one
    for each of its characters, are buttons of the calculator; pressed
    from the initial state they show the formula as typed, and [=] then
    shows its value: the error display when the value is not a finite
    number, and else the formatted value. *)
Theorem typed_formula_shows_value
    (Number_exponentiate : number -> number -> number) (f : formula) :
  valid_formula f = true ->
  Forall (fun v => In v buttonValues) (keys_of (formula_text f) ++ [b_equals])
  /\ presses (engine Number_exponentiate) initial (keys_of (formula_text f))
     = Normal {| screenNumbers := formula_text f;
                 expression := formula_text f;
                 previousResult := None |}
  /\ presses (engine Number_exponentiate) initial
       (keys_of (formula_text f) ++ [b_equals])
     = Normal (shown (formula_value f)).
Proof.
  intros Hv. split; [|split].
  - apply Forall_app. split; [now apply keys_of_buttons|].
    constructor; [simpl; tauto | constructor].
  - now apply type_formula.
  - now apply equals_formula.
Qed.

(** X6.  Digit keys pressed one after the other show the digits in the
    order typed, zeros in front included: after what the expression
    held when no result is shown, and on their own when one is. *)
Theorem digits_are_concatenated (host : jsstring -> completion value)
    (st : state) (ds : jsstring) :
  ds <> [] -> forallb is_digit ds = true ->
  Forall (fun v => In v buttonValues) (keys_of ds)
  /\ presses host st (keys_of ds)
     = Normal (let before := match previousResult st with
                             | Some _ => []
                             | None => expression st
                             end in
               {| screenNumbers := before ++ ds;
                  expression := before ++ ds;
                  previousResult := None |}).
Proof.
  intros Hn Hd. split.
  - apply Forall_forall. intros v Hv.
    apply in_map_iff in Hv as (c & <- & Hc).
    rewrite forallb_forall in Hd. now apply digit_button, Hd.
  - destruct ds as [|d ds]; [contradiction|].
    cbn [forallb] in Hd. apply andb_true_iff in Hd as [H1 H2].
    now apply type_digits_any.
Qed.

(** X7.  A number typed with a zero in front of another digit makes
    [=] leave the error display, whatever follows it: at the start of
    the expression, and after a formula and an operator.  The evaluator
    runs in strict mode, where such a literal is a syntax error. *)
Theorem leading_zero_is_error
    (Number_exponentiate : number -> number -> number)
    (st : state) (d : N) (rest : jsstring) :
  is_digit d = true ->
  expression st = c_0 :: d :: rest
  \/ (exists f o,
        valid_formula f = true
        /\ expression st
           = formula_text f ++ binary_label o ++ c_0 :: d :: rest) ->
  handleButtonClick (engine Number_exponentiate) st b_equals
  = Normal error_display.
Proof.
  intros Hd He.
  assert (Ht : trim (expression st) <> []).
  { apply (@trim_keeps _ c_0); [|reflexivity].
    destruct He as [->|(f & o & _ & ->)]; [now left|].
    rewrite !in_app_iff. right; right. now left. }
  rewrite equals_engine by assumption.
  destruct He as [->|(f & o & Hv & ->)].
  - now rewrite leading_zero_start.
  - now rewrite leading_zero_after.
Qed.

(** X8.  A unary key reads the display with [parseFloat], which stops
    at the first operator and at the decimal comma: on a display that
    starts with digits it works on the whole number these digits spell
    and drops the rest.  On ["2,5"] the square key shows ["4"]. *)
Theorem unary_reads_leading_digits (host : jsstring -> completion value)
    (st : state) (u : unary) (ds tail : jsstring) :
  ds <> [] -> forallb is_digit ds = true ->
  (forall c r, tail = c :: r -> is_operator c = true \/ c = c_comma) ->
  screenNumbers st = ds ++ tail ->
  handleButtonClick host st (unary_label u)
  = (let num := of_decimal false (digits_val ds) 0 in
     if domain_failure u num then Normal error_display
     else Normal {| screenNumbers := formatNumber (unary_apply u num);
                    expression := formatNumber (unary_apply u num);
                    previousResult :=
                      Some (parseFloat (formatNumber (unary_apply u num))) |}).
Proof.
  intros Hn Hd Ht Hs. rewrite press_unary, Hs. cbv zeta.
  rewrite parseFloat_leading; [reflexivity | assumption | assumption|].
  destruct tail as [|c r]; [exact I | now apply (Ht c r)].
Qed.

(** X9.  Backspace undoes the key before it.  In a state that shows its
    expression and no result, a digit key and then backspace leave the
    state as it was; so do an operator key and then backspace when the
    expression does not end in an operator. *)
Theorem backspace_undoes_typing (host : jsstring -> completion value)
    (st : state) :
  previousResult st = None ->
  screenNumbers st = or_zero (expression st) ->
  (forall d, In d digit_values ->
     presses host st [b_digit d; b_backspace] = Normal st)
  /\ (forall o, ends_with_operator (expression st) = false ->
        presses host st [binary_label o; b_backspace] = Normal st).
Proof.
  intros Hp Hs. split.
  - intros d Hd. now apply backspace_undoes_digit.
  - intros o He. now apply backspace_undoes_operator.
Qed.

(** X10.  As many presses of backspace as the expression has characters,
    and at least one, lead from every state to the initial state; any
    further ones keep it. *)
Theorem backspaces_reach_initial (host : jsstring -> completion value)
    (st : state) (n : nat) :
  (length (expression st) <= n)%nat -> (1 <= n)%nat ->
  presses host st (repeat b_backspace n) = Normal initial.
Proof.
  revert st; induction n as [|n IH]; intros st Hl Hn; [lia|].
  simpl repeat. rewrite presses_cons, press_backspace.
  destruct (previousResult st).
  { rewrite bind_normal. apply backspaces_initial. }
  destruct (length (expression st) <=? 1)%nat eqn:E.
  { rewrite bind_normal. apply (backspaces_initial host n). }
  rewrite bind_normal. apply Nat.leb_gt in E.
  apply IH; simpl; [|lia].
  unfold slice_0_m1. rewrite length_removelast. lia.
Qed.

(** X11.  The display follows the expression.  In every state the
    buttons can reach the display shows the expression, ["0"] when the
    expression is empty, or the state is the error display; and every
    press leaves such a state or changes nothing. *)
Theorem display_follows_expression
    (Number_exponentiate : number -> number -> number) :
  (forall st val,
      In val buttonValues ->
      exists st',
        handleButtonClick (engine Number_exponentiate) st val = Normal st'
        /\ (st' = st
            \/ st' = error_display
            \/ screenNumbers st' = or_zero (expression st')))
  /\ (forall st,
        reachable Number_exponentiate st ->
        st = error_display \/ screenNumbers st = or_zero (expression st)).
Proof.
  split.
  - intros st val Hv. apply (mirrors_step Number_exponentiate st Hv).
  - intros st (vals & Hv & E).
    destruct (@mirrors_presses Number_exponentiate vals initial Hv)
      as (st' & E' & H); [now right|].
    rewrite E in E'. injection E' as ->. exact H.
Qed.

(** X12.  Only [=] and the five unary keys leave a result: after every
    other button [previousResult] is [null], whatever the state and
    whatever the evaluator. *)
Theorem result_needs_evaluation (host : jsstring -> completion value)
    (st st' : state) (val : jsstring) :
  In val buttonValues ->
  handleButtonClick host st val = Normal st' ->
  previousResult st' <> None ->
  val = b_equals \/ exists u, val = unary_label u.
Proof.
  intros Hval.
  apply button_cases in Hval
    as [->|[->|[->|[->|[->|[(u & ->)|[(d & Hd & ->)|(o & ->)]]]]]]];
    eauto.
  - rewrite press_C. intros [= <-] H. now contradiction H.
  - rewrite press_CE. intros [= <-] H. now contradiction H.
  - rewrite press_backspace. destruct (previousResult st).
    { intros [= <-] H. now contradiction H. }
    destruct (length (expression st) <=? 1)%nat;
      intros [= <-] H; now contradiction H.
  - rewrite press_comma. destruct (previousResult st) eqn:Ep.
    { intros [= <-] H. now contradiction H. }
    destruct (includes c_comma _).
    { intros [= <-] H. now contradiction H. }
    destruct (is_empty _ || ends_with_operator _);
      intros [= <-] H; now contradiction H.
  - rewrite press_digit by assumption.
    destruct (previousResult st).
    { intros [= <-] H. now contradiction H. }
    destruct (expression st); intros [= <-] H; now contradiction H.
  - rewrite press_binary. destruct (previousResult st).
    { intros [= <-] H. now contradiction H. }
    destruct (ends_with_operator (expression st));
      intros [= <-] H; now contradiction H.
Qed.


(** X14.  With the keys a keyboard sends, the keyboard reaches no state
    the buttons do not reach.  For key events whose keys are each one
    character, or a name that does not start with a digit and is none of
    the names every object inherits, every run from a reachable state
    returns, whatever the handler would do with an inherited value, and
    ends in a reachable state, which has the invariant of those
    states. *)
Theorem keyboard_stays_reachable
    (Number_exponentiate : number -> number -> number)
    (inherited_click : state -> jsstring -> completion state)
    (st : state) (keys : list jsstring) :
  Forall (fun k => event_key k = true) keys ->
  reachable Number_exponentiate st ->
  exists st',
    keydowns (engine Number_exponentiate) inherited_click st keys = Normal st'
    /\ reachable Number_exponentiate st'
    /\ invariant st'.
Proof.
  intros Hk Hr.
  destruct (@keydowns_reachable Number_exponentiate inherited_click keys st
              Hk Hr) as (st' & E & H).
  exists st'. split; [exact E|]. split; [exact H|].
  exact (@reachable_invariant Number_exponentiate st' H).
Qed.

(** X15.  No number gets two decimal commas: in every state the buttons
    can reach, each piece of the expression between operators, the
    pieces the handler of the comma key splits it into, holds at most
    one comma. *)
Theorem one_comma_per_number
    (Number_exponentiate : number -> number -> number) (st : state) :
  reachable Number_exponentiate st ->
  forall part,
    In part (split is_operator (expression st)) -> (commas part <= 1)%nat.
Proof.
  intros (vals & Hv & E).
  destruct (@single_commas_presses Number_exponentiate vals initial Hv
              invariant_initial single_commas_nil) as (st' & E' & H).
  rewrite E in E'. injection E' as ->. exact H.
Qed.

(** X16.  A formula typed on the keyboard.  With [*] for [×], [/] for
    [÷] and the point for the decimal comma, the keys of a formula do
    what its buttons do: from the initial state they show the formula,
    and [Enter] then shows its value. *)
Theorem keyboard_formula_shows_value
    (Number_exponentiate : number -> number -> number)
    (inherited_click : state -> jsstring -> completion state)
    (f : formula) :
  valid_formula f = true ->
  Forall (fun k => event_key k = true)
    (map key_for (formula_text f) ++ [lit "Enter"])
  /\ keydowns (engine Number_exponentiate) inherited_click initial
       (map key_for (formula_text f))
     = Normal {| screenNumbers := formula_text f;
                 expression := formula_text f;
                 previousResult := None |}
  /\ keydowns (engine Number_exponentiate) inherited_click initial
       (map key_for (formula_text f) ++ [lit "Enter"])
     = Normal (shown (formula_value f)).
Proof.
  intros Hv.
  pose proof (fun c => @formula_chars f c Hv) as Hc.
  assert (Ht : keydowns (engine Number_exponentiate) inherited_click initial
                 (map key_for (formula_text f))
               = Normal (typed (formula_text f))).
  { rewrite keydowns_text by assumption. now apply type_formula. }
  split; [|split; [exact Ht|]].
  - apply Forall_app. split; [|now repeat constructor].
    apply Forall_forall. intros k Hk.
    apply in_map_iff in Hk as (c & <- & Hin).
    now apply (keydown_key_for (engine Number_exponentiate) inherited_click
                 initial), Hc.
  - rewrite keydowns_app, Ht, bind_normal, keydown_enter.
    rewrite <- presses_one, <- (bind_normal (typed (formula_text f))
      (fun st' => presses (engine Number_exponentiate) st' [b_equals])).
    rewrite <- (@type_formula (engine Number_exponentiate) f Hv).
    rewrite <- presses_app. now apply equals_formula.
Qed.

(** * Instances

    Each theorem above at a concrete input, with its hypotheses checked
    there. *)

(** C1 at the state after 1, twenty-one times 0, and [=]: the result
    ["1e+21"] holds an [e]. *)
Lemma guard_rejects_foreign_characters_witness :
  let st := {| screenNumbers := lit "1e+21"; expression := lit "1e+21";
               previousResult := Some (of_decimal false 1 21) |} in
  reachable exponentiate_unused st
  /\ (exists c, In c (sanitize st.(expression)) /\ is_arithmetic c = false)
  /\ handleButtonClick (engine exponentiate_unused) st b_equals
     = Normal error_display.
Proof.
  intros st.
  assert (R : reachable exponentiate_unused st).
  { exists (twenty_two_presses ++ [b_equals]). split.
    - apply all_buttons. vm_compute. reflexivity.
    - vm_compute. reflexivity. }
  assert (B : exists c, In c (sanitize st.(expression))
                        /\ is_arithmetic c = false).
  { exists 101%N. split; [simpl; tauto | reflexivity]. }
  split; [exact R|]. split; [exact B|].
  exact (proj2 (guard_rejects_foreign_characters exponentiate_unused) st R B).
Defined.

(** C2 at 2 + 3 × 4. *)
Lemma evaluation_follows_precedence_witness :
  In 2 digit_values /\ In 3 digit_values /\ In 4 digit_values
  /\ presses (engine exponentiate_unused) initial
       [b_digit 2; binary_label Plus; b_digit 3; binary_label Times;
        b_digit 4; b_equals]
     = Normal (shown (standard Plus Times (of_Z 2) (of_Z 3) (of_Z 4))).
Proof.
  assert (H2 : In 2 digit_values) by (simpl; tauto).
  assert (H3 : In 3 digit_values) by (simpl; tauto).
  assert (H4 : In 4 digit_values) by (simpl; tauto).
  repeat (split; [assumption|]).
  exact (proj2 (proj2 (evaluation_follows_precedence exponentiate_unused))
           2 3 4 Plus Times H2 H3 H4).
Defined.

(** C3 at the expression ["5÷0"]. *)
Lemma evaluate_failure_shows_error_witness :
  let st := typed (b_digit 5 ++ b_divide ++ b_digit 0) in
  trim st.(expression) <> []
  /\ failed (safeEval (engine exponentiate_unused) st.(expression)) = true
  /\ handleButtonClick (engine exponentiate_unused) st b_equals
     = Normal error_display.
Proof.
  intros st.
  assert (T : trim st.(expression) <> []) by (vm_compute; discriminate).
  assert (F : failed (safeEval (engine exponentiate_unused) st.(expression))
              = true) by (vm_compute; reflexivity).
  split; [exact T|]. split; [exact F|].
  exact (proj1 (evaluate_failure_shows_error exponentiate_unused)
           (engine exponentiate_unused) st T F).
Defined.

(** C5 at the presses 1, backspace. *)
Lemma display_never_empty_witness :
  Forall (fun v => In v buttonValues) [b_digit 1; b_backspace]
  /\ exists st,
       presses (engine exponentiate_unused) initial [b_digit 1; b_backspace]
       = Normal st
       /\ screenNumbers st <> [].
Proof.
  assert (H : Forall (fun v => In v buttonValues) [b_digit 1; b_backspace])
    by (apply all_buttons; reflexivity).
  split; [exact H|].
  exact (proj1 (proj2 (display_never_empty exponentiate_unused)) _ H).
Defined.

(** C7 at the expression ["2+"] and the key [-]. *)
Lemma operator_replaces_operator_witness :
  let st := typed (lit "2+") in
  st.(previousResult) = None
  /\ ends_with_operator st.(expression) = true
  /\ handleButtonClick (engine exponentiate_unused) st (binary_label Minus)
     = Normal (typed (lit "2-")).
Proof.
  intros st. split; [reflexivity|]. split; [reflexivity|].
  exact (proj1 (operator_replaces_operator exponentiate_unused)
           (engine exponentiate_unused) st Minus eq_refl eq_refl).
Defined.


(** C9 at the digit 7. *)
Lemma error_display_recovers_witness :
  In 7 digit_values
  /\ handleButtonClick (engine exponentiate_unused) error_display (b_digit 7)
     = Normal (typed (b_digit 7)).
Proof.
  assert (H : In 7 digit_values) by (simpl; tauto).
  split; [exact H|].
  exact (proj1 (proj2 (error_display_recovers exponentiate_unused
                         (engine exponentiate_unused))) 7 H).
Defined.

(** C10 at the result ["14"] and the key [+]. *)
Lemma result_alignment_witness :
  let st := {| screenNumbers := lit "14"; expression := lit "14";
               previousResult := Some (of_Z 14) |} in
  In b_plus buttonValues /\ aligned st
  /\ exists st',
       handleButtonClick (engine exponentiate_unused) st b_plus = Normal st'
       /\ aligned st'.
Proof.
  intros st.
  assert (H : In b_plus buttonValues) by (simpl; tauto).
  assert (A : aligned st) by (intros _; reflexivity).
  split; [exact H|]. split; [exact A|].
  exact (proj1 (proj2 (result_alignment exponentiate_unused)) st b_plus H A).
Defined.

(** X4 at the formula 2,5 × 4 - 1. *)
Lemma safeEval_formula_value_witness :
  let f : formula :=
    (({| whole := lit "2"; fraction := Some (lit "5") |},
      [(ByTimes, {| whole := lit "4"; fraction := None |})]),
     [(ByMinus, ({| whole := lit "1"; fraction := None |}, []))]) in
  valid_formula f = true
  /\ formula_text f = lit "2,5" ++ b_times ++ lit "4-1"
  /\ safeEval (engine exponentiate_unused) (formula_text f)
     = VNumber (formula_value f).
Proof.
  intros f. split; [reflexivity|]. split; [reflexivity|].
  exact (proj2 (proj2 (@safeEval_formula_value exponentiate_unused f
                         eq_refl))).
Defined.

(** X5 at the formula 12 ÷ 4 + 3 × 2. *)
Lemma typed_formula_shows_value_witness :
  let f : formula :=
    (({| whole := lit "12"; fraction := None |},
      [(ByDivide, {| whole := lit "4"; fraction := None |})]),
     [(ByPlus, ({| whole := lit "3"; fraction := None |},
                [(ByTimes, {| whole := lit "2"; fraction := None |})]))]) in
  valid_formula f = true
  /\ presses (engine exponentiate_unused) initial
       (keys_of (formula_text f) ++ [b_equals])
     = Normal (shown (formula_value f)).
Proof.
  intros f. split; [reflexivity|].
  exact (proj2 (proj2 (@typed_formula_shows_value exponentiate_unused f
                         eq_refl))).
Defined.

(** X6 at the digits 0, 0, 7 from the initial state. *)
Lemma digits_are_concatenated_witness :
  forallb is_digit (lit "007") = true
  /\ presses (engine exponentiate_unused) initial (keys_of (lit "007"))
     = Normal (typed (lit "007")).
Proof.
  split; [reflexivity|].
  exact (proj2 (@digits_are_concatenated (engine exponentiate_unused)
                  initial (lit "007") ltac:(discriminate) eq_refl)).
Defined.

(** X7 at the expression ["2+07"]. *)
Lemma leading_zero_is_error_witness :
  let st := typed (lit "2+07") in
  let f : formula := (({| whole := lit "2"; fraction := None |}, []), []) in
  is_digit 55 = true
  /\ valid_formula f = true
  /\ expression st = formula_text f ++ binary_label Plus ++ c_0 :: 55%N :: []
  /\ handleButtonClick (engine exponentiate_unused) st b_equals
     = Normal error_display.
Proof.
  intros st f. split; [reflexivity|]. split; [reflexivity|].
  split; [reflexivity|].
  exact (@leading_zero_is_error exponentiate_unused st 55%N [] eq_refl
           (or_intror (ex_intro _ f (ex_intro _ Plus (conj eq_refl eq_refl))))).
Defined.

(** X8 at the display ["2,5"] and the square key. *)
Lemma unary_reads_leading_digits_witness :
  let st := typed (lit "2,5") in
  forallb is_digit (lit "2") = true
  /\ screenNumbers st = lit "2" ++ lit ",5"
  /\ handleButtonClick (engine exponentiate_unused) st b_square
     = Normal {| screenNumbers := lit "4"; expression := lit "4";
                 previousResult := Some (of_Z 4) |}.
Proof.
  intros st. split; [reflexivity|]. split; [reflexivity|].
  exact (@unary_reads_leading_digits (engine exponentiate_unused) st Square
           (lit "2") (lit ",5") ltac:(discriminate) eq_refl
           ltac:(intros c r [= <- _]; right; reflexivity) eq_refl).
Defined.

(** X9 at the expression ["12"] and the digit 3. *)
Lemma backspace_undoes_typing_witness :
  let st := typed (lit "12") in
  previousResult st = None
  /\ screenNumbers st = or_zero (expression st)
  /\ In 3 digit_values
  /\ presses (engine exponentiate_unused) st [b_digit 3; b_backspace]
     = Normal st.
Proof.
  intros st.
  assert (H : In 3 digit_values) by (simpl; tauto).
  split; [reflexivity|]. split; [reflexivity|]. split; [exact H|].
  exact (proj1 (@backspace_undoes_typing (engine exponentiate_unused) st
                  eq_refl eq_refl) 3 H).
Defined.

(** X10 at the expression ["123"] and three presses. *)
Lemma backspaces_reach_initial_witness :
  let st := typed (lit "123") in
  (length (expression st) <= 3)%nat /\ (1 <= 3)%nat
  /\ presses (engine exponentiate_unused) st (repeat b_backspace 3)
     = Normal initial.
Proof.
  intros st.
  assert (H1 : (length (expression st) <= 3)%nat) by (simpl; lia).
  assert (H2 : (1 <= 3)%nat) by lia.
  split; [exact H1|]. split; [exact H2|].
  exact (@backspaces_reach_initial (engine exponentiate_unused) st 3 H1 H2).
Defined.

(** X12 at [=] on the expression ["2"]. *)
Lemma result_needs_evaluation_witness :
  let st := typed (lit "2") in
  let st' := {| screenNumbers := lit "2"; expression := lit "2";
                previousResult := Some (of_Z 2) |} in
  In b_equals buttonValues
  /\ handleButtonClick (engine exponentiate_unused) st b_equals = Normal st'
  /\ previousResult st' <> None
  /\ (b_equals = b_equals \/ exists u, b_equals = unary_label u).
Proof.
  intros st st'.
  assert (H1 : In b_equals buttonValues) by (simpl; tauto).
  assert (H2 : handleButtonClick (engine exponentiate_unused) st b_equals
               = Normal st') by (vm_compute; reflexivity).
  assert (H3 : previousResult st' <> None) by discriminate.
  split; [exact H1|]. split; [exact H2|]. split; [exact H3|].
  exact (@result_needs_evaluation (engine exponentiate_unused) st st'
           b_equals H1 H2 H3).
Defined.

(** X14 at the keys 2, [*], 3, [Enter], [F5], none of which is an
    inherited name: what the handler does with such a value plays no
    part. *)
Lemma keyboard_stays_reachable_witness :
  let keys := [lit "2"; lit "*"; lit "3"; lit "Enter"; lit "F5"] in
  let unused : state -> jsstring -> completion state :=
    fun _ _ => Throw TypeError in
  Forall (fun k => event_key k = true) keys
  /\ reachable exponentiate_unused initial
  /\ exists st',
       keydowns (engine exponentiate_unused) unused initial keys = Normal st'
       /\ reachable exponentiate_unused st'
       /\ invariant st'.
Proof.
  intros keys unused.
  assert (H : Forall (fun k => event_key k = true) keys)
    by (repeat constructor).
  pose proof (reachable_initial exponentiate_unused) as R.
  split; [exact H|]. split; [exact R|].
  exact (@keyboard_stays_reachable exponentiate_unused unused initial keys
           H R).
Defined.

(** X15 at the state after 1, comma, 5, [+], 2, comma. *)
Lemma one_comma_per_number_witness :
  let st := typed (lit "1,5+2,") in
  reachable exponentiate_unused st
  /\ In (lit "2,") (split is_operator (expression st))
  /\ (commas (lit "2,") <= 1)%nat.
Proof.
  intros st.
  assert (R : reachable exponentiate_unused st).
  { exists [b_digit 1; b_comma; b_digit 5; b_plus; b_digit 2; b_comma].
    split.
    - apply all_buttons. reflexivity.
    - reflexivity. }
  assert (H : In (lit "2,") (split is_operator (expression st)))
    by (simpl; tauto).
  split; [exact R|]. split; [exact H|].
  exact (@one_comma_per_number exponentiate_unused st R (lit "2,") H).
Defined.

(** X16 at the formula 2,5 × 4, typed as [2.5*4] and [Enter]. *)
Lemma keyboard_formula_shows_value_witness :
  let f : formula :=
    (({| whole := lit "2"; fraction := Some (lit "5") |},
      [(ByTimes, {| whole := lit "4"; fraction := None |})]), []) in
  let unused : state -> jsstring -> completion state :=
    fun _ _ => Throw TypeError in
  valid_formula f = true
  /\ map key_for (formula_text f) ++ [lit "Enter"]
     = [lit "2"; lit "."; lit "5"; lit "*"; lit "4"; lit "Enter"]
  /\ keydowns (engine exponentiate_unused) unused initial
       (map key_for (formula_text f) ++ [lit "Enter"])
     = Normal (shown (formula_value f)).
Proof.
  intros f unused. split; [reflexivity|]. split; [reflexivity|].
  exact (proj2 (proj2 (@keyboard_formula_shows_value exponentiate_unused
                         unused f eq_refl))).
Defined.
